(** * perma-capture: capture queue, orchestrator and webhook dispatcher

    A shallow embedding of [web/main/tasks.py] (with the settings it reads
    and the queue tests that exercise it) and the properties its
    specification states about it.

    Layout: Part I holds the model (one module per component), Part II the
    predicates and sample data the statements are written with, Part III
    the theorems (one module of facts per component). *)

From Stdlib Require Import List ZArith Bool String Ascii Lia Arith Permutation.
Import ListNotations.
Open Scope string_scope.
Open Scope list_scope.
Open Scope Z_scope.

(* ================================================================= *)
(** * Part I: the model *)
(* ================================================================= *)

(* ----------------------------------------------------------------- *)
(** ** Settings read by the tasks ([config/settings/settings_base.py]) *)

Module Settings.

(** [CELERY_TASK_SOFT_TIME_LIMIT=300] *)
Definition CELERY_TASK_SOFT_TIME_LIMIT : Z := 300.

(** [CELERY_TASK_TIME_LIMIT = 420] *)
Definition CELERY_TASK_TIME_LIMIT : Z := 420.

(** [REST_FRAMEWORK['NON_FIELD_ERRORS_KEY'] = 'error'] *)
Definition NON_FIELD_ERRORS_KEY : string := "error".

(** [APP_NAME = 'capture.perma.cc'] *)
Definition APP_NAME : string := "capture.perma.cc".

(** [DEFAULT_FROM_EMAIL = 'info@perma.cc'] *)
Definition DEFAULT_FROM_EMAIL : string := "info@perma.cc".

End Settings.

(* ----------------------------------------------------------------- *)
(** ** The [CaptureJob] table *)

Module Models.

(** [CaptureJob.Status] *)
Inductive Status : Type :=
| PENDING
| IN_PROGRESS
| COMPLETED
| FAILED
| INVALID.

Definition status_eqb (a b : Status) : bool :=
  match a, b with
  | PENDING, PENDING
  | IN_PROGRESS, IN_PROGRESS
  | COMPLETED, COMPLETED
  | FAILED, FAILED
  | INVALID, INVALID => true
  | _, _ => false
  end.

(** The terminal states of the job state machine. *)
Definition terminal (s : Status) : bool :=
  match s with
  | COMPLETED | FAILED | INVALID => true
  | PENDING | IN_PROGRESS => false
  end.

(** The [message] JSON field: a dict from a field name to a list of
    messages; [[]] is the empty (falsy) value. *)
Definition Message : Type := list (string * list string).

(** One row of the [CaptureJob] table.  Timestamps are seconds on the
    database clock.  [created_at] is the submission timestamp. *)
Record CaptureJob : Type := mkCaptureJob {
  id : nat;
  user_id : nat;
  human : bool;
  created_at : Z;
  requested_url : string;
  validated_url : option string;
  status : Status;
  step_count : nat;
  step_description : string;
  message : Message;
  capture_start_time : option Z;
  capture_end_time : option Z
}.

(** The table: its rows in primary-key order. *)
Definition Table : Type := list CaptureJob.

(** One row of the [WebhookSubscription] table, with the e-mail address of
    the user that owns it ([subscription.user.email]). *)
Record WebhookSubscription : Type := mkWebhookSubscription {
  ws_id : nat;
  ws_user_email : string;
  callback_url : string;
  signing_key : string;
  signing_key_algorithm : string
}.

Definition set_status (st : Status) (j : CaptureJob) : CaptureJob :=
  mkCaptureJob (id j) (user_id j) (human j) (created_at j) (requested_url j)
    (validated_url j) st (step_count j) (step_description j) (message j)
    (capture_start_time j) (capture_end_time j).

Definition set_message (m : Message) (j : CaptureJob) : CaptureJob :=
  mkCaptureJob (id j) (user_id j) (human j) (created_at j) (requested_url j)
    (validated_url j) (status j) (step_count j) (step_description j) m
    (capture_start_time j) (capture_end_time j).

Definition set_capture_start_time (t : option Z) (j : CaptureJob) : CaptureJob :=
  mkCaptureJob (id j) (user_id j) (human j) (created_at j) (requested_url j)
    (validated_url j) (status j) (step_count j) (step_description j) (message j)
    t (capture_end_time j).

Definition set_capture_end_time (t : option Z) (j : CaptureJob) : CaptureJob :=
  mkCaptureJob (id j) (user_id j) (human j) (created_at j) (requested_url j)
    (validated_url j) (status j) (step_count j) (step_description j) (message j)
    (capture_start_time j) t.

Definition set_validated_url (u : option string) (j : CaptureJob) : CaptureJob :=
  mkCaptureJob (id j) (user_id j) (human j) (created_at j) (requested_url j)
    u (status j) (step_count j) (step_description j) (message j)
    (capture_start_time j) (capture_end_time j).

Definition set_progress (n : nat) (d : string) (j : CaptureJob) : CaptureJob :=
  mkCaptureJob (id j) (user_id j) (human j) (created_at j) (requested_url j)
    (validated_url j) (status j) n d (message j)
    (capture_start_time j) (capture_end_time j).

(** [job.save()]: write the in-memory object over the row with its key. *)
Definition save (j : CaptureJob) (t : Table) : Table :=
  map (fun r => if Nat.eqb (id r) (id j) then j else r) t.

(** [CaptureJob.objects.filter(id=k).first()] *)
Definition get (k : nat) (t : Table) : option CaptureJob :=
  find (fun r => Nat.eqb (id r) k) t.

(** Modelled from the spec: [CaptureJob.inc_progress] is in models.py, which
    is not part of the sources.  [step_count] is a counter advanced by [inc],
    [step_description] the latest phase label; the doctest of
    [run_next_capture] pins the arithmetic (five increments of 1 after
    "Validating." leave [step_count == 5]). *)
Definition inc_progress (inc : nat) (description : string) (j : CaptureJob)
  : CaptureJob :=
  set_progress (step_count j + inc) description j.

(** Modelled from the spec: [CaptureJob.mark_completed] is in models.py.
    The terminal transition to Completed; [capture_end_time] is set on a
    terminal transition. *)
Definition mark_completed (now : Z) (j : CaptureJob) : CaptureJob :=
  set_capture_end_time (Some now) (set_status COMPLETED j).

(** Modelled from the spec: [CaptureJob.mark_failed] is in models.py.
    The terminal transition to Failed with a message; test_hard_timeout
    reads the message back as
    [job.message[api_settings.NON_FIELD_ERRORS_KEY][0]]. *)
Definition mark_failed (now : Z) (msg : string) (j : CaptureJob) : CaptureJob :=
  set_capture_end_time (Some now)
    (set_message [(Settings.NON_FIELD_ERRORS_KEY, [msg])] (set_status FAILED j)).

(** Modelled from the spec: [CaptureJob.mark_invalid] is in models.py.
    The terminal transition to Invalid with the structured message it is
    given. *)
Definition mark_invalid (now : Z) (m : Message) (j : CaptureJob) : CaptureJob :=
  set_capture_end_time (Some now) (set_message m (set_status INVALID j)).

End Models.

(* ----------------------------------------------------------------- *)
(** ** Stale-job reaping ([clean_up_failed_captures]) *)

Module Reaper.
Import Models.

(** The [where] clause of the query:
    [capture_start_time < now() - make_interval(secs => CELERY_TASK_TIME_LIMIT)].
    A NULL start time makes the comparison NULL, so the row is not selected. *)
Definition timed_out (now : Z) (j : CaptureJob) : bool :=
  match capture_start_time j with
  | Some t => t <? now - Settings.CELERY_TASK_TIME_LIMIT
  | None => false
  end.

(** The queryset the loop iterates over:
    [CaptureJob.objects.filter(status=IN_PROGRESS).extra(where=[...])]. *)
Definition stale (now : Z) (j : CaptureJob) : bool :=
  status_eqb (status j) IN_PROGRESS && timed_out now j.

(** [capture_job.mark_failed("Timed out.")] on one object of the queryset:
    the object is changed and saved over its row.  The call passes the
    message only; the end time the method writes is read in models.py, off
    a clock of its own: [clock j] is what that clock shows when the method
    runs on [j]. *)
Definition reap_one (clock : CaptureJob -> Z) (t : Table) (j : CaptureJob)
  : Table :=
  save (mark_failed (clock j) "Timed out." j) t.

(** [clean_up_failed_captures()], run against the table at database time
    [now]: the queryset is evaluated, then every object in it is marked
    failed with "Timed out.".  The database time decides which rows are
    selected, and nothing else. *)
Definition clean_up_failed_captures (now : Z) (clock : CaptureJob -> Z)
    (t : Table) : Table :=
  fold_left (reap_one clock) (filter (stale now) t) t.

End Reaper.

(* ----------------------------------------------------------------- *)
(** ** The job queue ([CaptureJob.get_next_job], [queue_position]) *)

Module Queue.
Import Models.

Definition is_pending (j : CaptureJob) : bool := status_eqb (status j) PENDING.

(** The pending human jobs, oldest first: the per-user FIFO sub-queues,
    interleaved in submission order. *)
Definition pending_human (t : Table) : list CaptureJob :=
  filter (fun j => is_pending j && human j) t.

(** The pending robot jobs, oldest first: one global FIFO queue. *)
Definition pending_robot (t : Table) : list CaptureJob :=
  filter (fun j => is_pending j && negb (human j)) t.

(** The times at which a human job of user [u] was reserved. *)
Definition served_times (u : nat) (t : Table) : list Z :=
  flat_map (fun j =>
              if Nat.eqb (user_id j) u && human j
              then match capture_start_time j with
                   | Some s => [s]
                   | None => []
                   end
              else []) t.

(** The oldest pending human job of user [u]: the head of the sub-queue. *)
Definition oldest_pending (u : nat) (t : Table) : option CaptureJob :=
  find (fun j => Nat.eqb (user_id j) u) (pending_human t).

(** Modelled from the spec: the rotation order is in models.py, which is not
    part of the sources.  Users are rotated by "longest since last served";
    a user entering the pending set is scheduled relative to the arrival
    time of their oldest pending job.  The key of a user is the later of
    the time they were last served and that arrival time; the smallest key
    is served next. *)
Definition rotation_key (u : nat) (t : Table) : Z :=
  match oldest_pending u t with
  | Some j => fold_right Z.max (created_at j) (served_times u t)
  | None => 0
  end.

Definition job_key (t : Table) (j : CaptureJob) : Z :=
  rotation_key (user_id j) t.

(** The first element of [l] with the least key. *)
Fixpoint first_min (key : CaptureJob -> Z) (l : list CaptureJob)
  : option CaptureJob :=
  match l with
  | [] => None
  | j :: l' =>
    match first_min key l' with
    | Some m => if key m <? key j then Some m else Some j
    | None => Some j
    end
  end.

(** Modelled from the spec: each turn selects the next user in rotation and
    dequeues that user's oldest pending job. *)
Definition next_human (t : Table) : option CaptureJob :=
  first_min (job_key t) (pending_human t).

(** Modelled from the spec: robot jobs are serviced only when the human
    rotation is entirely empty, in FIFO order. *)
Definition next_job (t : Table) : option CaptureJob :=
  match next_human t with
  | Some j => Some j
  | None => hd_error (pending_robot t)
  end.

(** The row of a job once it is reserved at time [now]. *)
Definition reserve (now : Z) (j : CaptureJob) : CaptureJob :=
  set_capture_start_time (Some now) (set_status IN_PROGRESS j).

(** Modelled from the spec: the atomic claim, a compare-and-swap on
    [status]: the row with key [k] is flipped from Pending to InProgress
    and its [capture_start_time] set, in one step.  The count of rows
    changed tells the caller whether it won the job. *)
Definition claim (now : Z) (k : nat) (t : Table) : nat * Table :=
  (List.length (filter (fun r => Nat.eqb (id r) k && is_pending r) t),
   map (fun r => if Nat.eqb (id r) k && is_pending r then reserve now r else r) t).

(** Modelled from the spec: [CaptureJob.get_next_job(reserve=True)] is in
    models.py.  It selects the next eligible job and flips it to InProgress
    as one indivisible operation, and returns the reserved job as it then
    is in the table; it returns nothing if no job is eligible. *)
Definition get_next_job (now : Z) (t : Table) : option CaptureJob * Table :=
  match next_job t with
  | None => (None, t)
  | Some j =>
    let t' := snd (claim now (id j) t) in
    (get (id j) t', t')
  end.

(** Successive calls of [get_next_job(reserve=True)], one at each of the
    times [nows], as test_job_queue_order makes them. *)
Fixpoint drain (nows : list Z) (t : Table) : list (option CaptureJob) * Table :=
  match nows with
  | [] => ([], t)
  | now :: nows' =>
    let (j, t') := get_next_job now t in
    let (js, t'') := drain nows' t' in
    (j :: js, t'')
  end.

(** The latest timestamp in the table (0 for an empty table). *)
Definition latest (t : Table) : Z :=
  fold_right
    (fun j acc =>
       Z.max (created_at j)
         (Z.max (match capture_start_time j with Some s => s | None => 0 end)
            acc)) 0 t.

(** The ticks of a clock started after [now]. *)
Fixpoint ticks (n : nat) (now : Z) : list Z :=
  match n with
  | O => []
  | S n' => (now + 1) :: ticks n' (now + 1)
  end.

(** The order in which the pending jobs of [t] would be served if the
    algorithm ran to completion from [t], computed on the side. *)
Definition service_order (t : Table) : list (option CaptureJob) :=
  fst (drain (ticks (List.length (pending_human t ++ pending_robot t))
                (latest t)) t).

Fixpoint index_of (k : nat) (l : list (option CaptureJob)) : option nat :=
  match l with
  | [] => None
  | Some j :: l' =>
    if Nat.eqb (id j) k then Some O else option_map S (index_of k l')
  | None :: l' => option_map S (index_of k l')
  end.

(** Modelled from the spec: [CaptureJob.queue_position] is in models.py.
    It answers what position a pending job would occupy if the algorithm
    ran to completion from the current queue state, without changing
    anything.  Positions count from 1, as test_job_queue_order expects;
    the model gives 0 for a job that is not in the order. *)
Definition queue_position (t : Table) (j : CaptureJob) : nat :=
  match index_of (id j) (service_order t) with
  | Some i => S i
  | None => O
  end.

End Queue.

(* ----------------------------------------------------------------- *)
(** ** Workers racing for jobs *)

Module Workers.
Import Models Queue.

(** Where a worker is in its call of [get_next_job(reserve=True)]: about
    to read the next candidate; holding a candidate it has read and not
    yet claimed (the pause of the race test sits here); or back with its
    result. *)
Inductive Worker : Type :=
| Idle
| Reading (candidate : CaptureJob)
| Returned (result : option CaptureJob).

(** The table all workers share, the database clock, and the workers. *)
Record System : Type := mkSystem {
  table : Table;
  clock : Z;
  workers : list Worker
}.

Fixpoint update (i : nat) (w : Worker) (ws : list Worker) : list Worker :=
  match ws, i with
  | [], _ => []
  | _ :: ws', O => w :: ws'
  | x :: ws', S i' => x :: update i' w ws'
  end.

(** Modelled from the spec: the body of [get_next_job] is in models.py.
    One indivisible action of worker [i].  Reading selects the next
    eligible job and changes nothing.  Claiming is the compare-and-swap on
    [status]: if the candidate is still pending it is flipped to InProgress
    with its start time, and the worker returns the row as it then is; if
    another worker got there first, no row changes and the worker falls
    through to the next candidate.  A worker that finds no eligible job
    returns nothing. *)
Definition step (i : nat) (s : System) : option System :=
  match nth_error (workers s) i with
  | Some Idle =>
    match next_job (table s) with
    | Some j =>
      Some (mkSystem (table s) (clock s + 1) (update i (Reading j) (workers s)))
    | None =>
      Some (mkSystem (table s) (clock s + 1)
              (update i (Returned None) (workers s)))
    end
  | Some (Reading j) =>
    let (count, t') := claim (clock s) (id j) (table s) in
    if Nat.eqb count 0
    then Some (mkSystem t' (clock s + 1) (update i Idle (workers s)))
    else Some (mkSystem t' (clock s + 1)
                 (update i (Returned (get (id j) t')) (workers s)))
  | Some (Returned _) => None
  | None => None
  end.

(** An interleaving: the workers act in the order of [schedule]; a worker
    that has returned, or does not exist, does nothing when named. *)
Fixpoint run (schedule : list nat) (s : System) : System :=
  match schedule with
  | [] => s
  | i :: rest =>
    match step i s with
    | Some s' => run rest s'
    | None => run rest s
    end
  end.

(** [n] workers calling [get_next_job(reserve=True)] at the same time. *)
Definition start (n : nat) (t : Table) (now : Z) : System :=
  mkSystem t now (repeat Idle n).

(** The jobs the workers have come back with. *)
Definition results (ws : list Worker) : list CaptureJob :=
  flat_map (fun w => match w with
                     | Returned (Some j) => [j]
                     | _ => []
                     end) ws.

Definition has_returned (w : Worker) : bool :=
  match w with
  | Returned _ => true
  | _ => false
  end.

End Workers.

(* ----------------------------------------------------------------- *)
(** ** The URL validator and the signing helpers ([main/utils.py]) *)

Module Utils.

(** Strings are byte strings: a Python [str] is its UTF-8 encoding. *)
Definition bytes (l : list nat) : string :=
  string_of_list_ascii (map ascii_of_nat l).

(** [drop_prefix p s]: what follows [p] in [s], when [s] starts with [p]. *)
Fixpoint drop_prefix (p s : string) : option string :=
  match p, s with
  | EmptyString, _ => Some s
  | String a p', String b s' =>
    if Ascii.eqb a b then drop_prefix p' s' else None
  | String _ _, EmptyString => None
  end.

(** The characters for which [str.isspace()] holds, which [str.strip()]
    removes: U+0009 to U+000D, U+001C to U+0020, U+0085, U+00A0, U+1680,
    U+2000 to U+200A, U+2028, U+2029, U+202F, U+205F and U+3000. *)
Definition white_space : list string :=
  map bytes
    [ [9]; [10]; [11]; [12]; [13]; [28]; [29]; [30]; [31]; [32];
      [194; 133]; [194; 160]; [225; 154; 128];
      [226; 128; 128]; [226; 128; 129]; [226; 128; 130]; [226; 128; 131];
      [226; 128; 132]; [226; 128; 133]; [226; 128; 134]; [226; 128; 135];
      [226; 128; 136]; [226; 128; 137]; [226; 128; 138];
      [226; 128; 168]; [226; 128; 169]; [226; 128; 175];
      [226; 129; 159]; [227; 128; 128] ]%nat.

(** What follows the first of [ps] that [s] starts with. *)
Fixpoint drop_any (ps : list string) (s : string) : option string :=
  match ps with
  | [] => None
  | p :: ps' =>
    match drop_prefix p s with
    | Some r => Some r
    | None => drop_any ps' s
    end
  end.

(** Characters of [ps] are dropped from the front for as long as there is
    one; [fuel] bounds their number. *)
Fixpoint strip_front (fuel : nat) (ps : list string) (s : string) : string :=
  match fuel with
  | O => s
  | S fuel' =>
    match drop_any ps s with
    | Some r => strip_front fuel' ps r
    | None => s
    end
  end.

Definition reverse (s : string) : string :=
  string_of_list_ascii (rev (list_ascii_of_string s)).

Definition lstrip (s : string) : string :=
  strip_front (String.length s) white_space s.

Definition rstrip (s : string) : string :=
  reverse (strip_front (String.length s) (map reverse white_space) (reverse s)).

(** [str.strip()] *)
Definition strip (s : string) : string := rstrip (lstrip s).

(** *** The URL validator

    Modelled from the spec: utils.py is not part of the sources, and the
    spec names the URLs the validator rejects (empty, malformed, with a
    control character, with a scheme other than http or https) without
    giving a grammar.  The one taken here is that of an http URL: a scheme
    name, "://", an authority [userinfo "@"] host [":" port], then nothing
    or a path, query or fragment; the host is a dotted name or a dotted
    address. *)

(** White space anywhere in the string. *)
Fixpoint has_space (s : string) : bool :=
  match s with
  | EmptyString => false
  | String _ s' =>
    match drop_any white_space s with
    | Some _ => true
    | None => has_space s'
    end
  end.

(** A control character at the front: U+0000 to U+001F, U+007F, or one of
    U+0080 to U+009F (the bytes C2 80 to C2 9F). *)
Definition control_first (s : string) : bool :=
  match s with
  | EmptyString => false
  | String c s' =>
    Nat.ltb (nat_of_ascii c) 32 || Nat.eqb (nat_of_ascii c) 127 ||
    (Nat.eqb (nat_of_ascii c) 194 &&
     match s' with
     | EmptyString => false
     | String d _ =>
       Nat.leb 128 (nat_of_ascii d) && Nat.leb (nat_of_ascii d) 159
     end)
  end.

Fixpoint has_control (s : string) : bool :=
  match s with
  | EmptyString => false
  | String _ s' => control_first s || has_control s'
  end.

Definition is_digit (c : ascii) : bool :=
  Nat.leb 48 (nat_of_ascii c) && Nat.leb (nat_of_ascii c) 57.

Definition is_upper (c : ascii) : bool :=
  Nat.leb 65 (nat_of_ascii c) && Nat.leb (nat_of_ascii c) 90.

Definition is_lower (c : ascii) : bool :=
  Nat.leb 97 (nat_of_ascii c) && Nat.leb (nat_of_ascii c) 122.

Definition is_alpha (c : ascii) : bool := is_upper c || is_lower c.

Definition one_of (cs : string) (c : ascii) : bool :=
  existsb (Ascii.eqb c) (list_ascii_of_string cs).

Definition all (p : ascii -> bool) (s : string) : bool :=
  forallb p (list_ascii_of_string s).

(** [str.lower()] on ASCII letters. *)
Fixpoint lower (s : string) : string :=
  match s with
  | EmptyString => EmptyString
  | String c s' =>
    String (if is_upper c then ascii_of_nat (nat_of_ascii c + 32) else c)
      (lower s')
  end.

(** [split_on d s]: the text before and after the first [d] in [s]. *)
Fixpoint split_on (d : ascii) (s : string) : option (string * string) :=
  match s with
  | EmptyString => None
  | String c s' =>
    if Ascii.eqb c d then Some (EmptyString, s')
    else match split_on d s' with
         | Some (a, b) => Some (String c a, b)
         | None => None
         end
  end.

(** [split_all d s]: [s.split(d)], the pieces of [s] between its [d]s. *)
Fixpoint split_all (d : ascii) (s : string) : list string :=
  match s with
  | EmptyString => [EmptyString]
  | String c s' =>
    if Ascii.eqb c d then EmptyString :: split_all d s'
    else match split_all d s' with
         | piece :: pieces => String c piece :: pieces
         | [] => [String c EmptyString]
         end
  end.

(** [span p s]: the longest prefix of [s] whose characters satisfy [p], and
    what follows it. *)
Fixpoint span (p : ascii -> bool) (s : string) : string * string :=
  match s with
  | EmptyString => (EmptyString, EmptyString)
  | String c s' =>
    if p c then let (a, b) := span p s' in (String c a, b)
    else (EmptyString, s)
  end.

(** The characters that end the authority of a URL. *)
Definition is_delimiter (c : ascii) : bool := one_of "/?#" c.

Definition numeric (s : string) : bool :=
  negb (String.eqb s "") && all is_digit s.

(** The number a string of digits writes. *)
Definition value (s : string) : Z :=
  fold_left (fun n c => 10 * n + (Z.of_nat (nat_of_ascii c) - 48))
    (list_ascii_of_string s) 0%Z.

(** A port number at the front: digits, up to the end or to a delimiter. *)
Definition port_first (s : string) : bool :=
  let (digits, rest) := span is_digit s in
  numeric digits &&
  match rest with
  | EmptyString => true
  | String c _ => is_delimiter c
  end.

(** The name of a scheme: a letter, then letters, digits, "+", "-", ".". *)
Definition scheme_char (c : ascii) : bool :=
  is_alpha c || is_digit c || one_of "+-." c.

Definition scheme_name (s : string) : bool :=
  match s with
  | EmptyString => false
  | String c _ => is_alpha c && all scheme_char s
  end.

(** The scheme a URL is written with, and what follows its colon.  In
    "example.com:8080/path" the colon starts a port, not a scheme. *)
Definition scheme_of (url : string) : option (string * string) :=
  match split_on ":" url with
  | Some (name, rest) =>
    if scheme_name name && negb (port_first rest) then Some (name, rest)
    else None
  | None => None
  end.

Definition http_scheme (name : string) : bool :=
  String.eqb (lower name) "http" || String.eqb (lower name) "https".

(** The URL with an explicit scheme: "http://" is put in front when the
    scheme is omitted. *)
Definition with_scheme (url : string) : string :=
  match scheme_of url with
  | Some _ => url
  | None => "http://" ++ url
  end.

Definition first_is (c : ascii) (s : string) : bool :=
  match s with
  | String x _ => Ascii.eqb x c
  | EmptyString => false
  end.

(** A label of a host name: letters, digits, hyphens and characters beyond
    ASCII, at most 63 bytes, no hyphen at either end. *)
Definition label_char (c : ascii) : bool :=
  is_alpha c || is_digit c || Ascii.eqb c "-" || Nat.leb 128 (nat_of_ascii c).

Definition well_formed_label (l : string) : bool :=
  negb (String.eqb l "") && Nat.leb (String.length l) 63 &&
  all label_char l && negb (first_is "-" l) && negb (first_is "-" (reverse l)).

(** One of the four numbers of a dotted address. *)
Definition octet (l : string) : bool :=
  numeric l && Nat.leb (String.length l) 3 && (value l <=? 255).

(** The labels of a host: two or more ("examplecom" is not a host,
    "example.com" is), each well formed; the last one is not a number,
    unless the host is a dotted address of four numbers up to 255. *)
Definition well_formed_labels (labels : list string) : bool :=
  Nat.leb 2 (List.length labels) && forallb well_formed_label labels &&
  (negb (numeric (last labels "")) ||
   (Nat.eqb (List.length labels) 4 && forallb octet labels)).

Definition well_formed_host (h : string) : bool :=
  well_formed_labels (split_all "." h).

Definition well_formed_port (p : string) : bool :=
  numeric p && Nat.leb (String.length p) 5 && (value p <=? 65535).

Definition userinfo_char (c : ascii) : bool :=
  is_alpha c || is_digit c || one_of "-._~!$&'()*+,;=%:" c.

Definition well_formed_userinfo (u : string) : bool :=
  negb (String.eqb u "") && all userinfo_char u.

Definition well_formed_hostport (hp : string) : bool :=
  match split_on ":" hp with
  | Some (h, p) => well_formed_host h && well_formed_port p
  | None => well_formed_host hp
  end.

(** The authority: [userinfo "@"] host [":" port]. *)
Definition well_formed_authority (a : string) : bool :=
  match split_on "@" a with
  | Some (u, hp) => well_formed_userinfo u && well_formed_hostport hp
  | None => well_formed_hostport a
  end.

(** An http or https URL: no white space in it; the scheme, "://", the
    authority, then nothing or a path, query or fragment. *)
Definition well_formed_url (url : string) : bool :=
  negb (has_space url) &&
  match scheme_of url with
  | Some (name, rest) =>
    http_scheme name &&
    match drop_prefix "//" rest with
    | Some r =>
      well_formed_authority (fst (span (fun c => negb (is_delimiter c)) r))
    | None => false
    end
  | None => false
  end.

(** Modelled from the spec: [validate_and_clean_url] is in utils.py, which
    is not part of the sources.  The requested URL is normalized (surrounding
    whitespace trimmed, an explicit scheme put in front when omitted); empty,
    malformed and non-http(s) URLs and URLs with control characters are
    rejected.  A control character anywhere in the URL as it was submitted
    rejects it, also where trimming would have taken it off.  [inl messages]
    is the [ValidationError] raised, [inr url] the cleaned URL returned.
    The wording of the messages is the model's. *)
Definition validate_and_clean_url (url : string) : list string + string :=
  if has_control url then inl ["Not a valid URL."]
  else
    let url := strip url in
    if String.eqb url "" then inl ["URL cannot be empty."]
    else
      let url := with_scheme url in
      if well_formed_url url then inr url else inl ["Not a valid URL."].

Section Signer.

(** The keyed digest of the standard library ([hmac.new(key, msg,
    algorithm).hexdigest()]): a function of the key, the message and the
    algorithm name. *)
Variable hmac_hexdigest : string -> string -> string -> string.

(** Modelled from the spec: [sign_data] is in utils.py, which is not part of
    the sources.  The signer is a pure function computing the signature of
    a payload with the subscription's key and algorithm. *)
Definition sign_data (data key algorithm : string) : string :=
  hmac_hexdigest key data algorithm.

(** [hmac.compare_digest]: the two strings have the same length and agree
    at every position (all positions are always compared). *)
Fixpoint compare_chars (a b : string) (acc : bool) : bool :=
  match a, b with
  | EmptyString, EmptyString => acc
  | String x a', String y b' => compare_chars a' b' (acc && Ascii.eqb x y)
  | _, _ => false
  end.

Definition compare_digest (a b : string) : bool := compare_chars a b true.

(** Modelled from the spec: [is_valid_signature] is in utils.py.  The
    validator is a pure function verifying a signature of a payload: the
    signature is recomputed and compared with the one received. *)
Definition is_valid_signature (signature data key algorithm : string) : bool :=
  compare_digest signature (sign_data data key algorithm).

End Signer.

End Utils.

(* ----------------------------------------------------------------- *)
(** ** The capture orchestrator ([run_next_capture]) *)

Module Orchestrator.
Import Models.

(** The exceptions the task tells apart; [OtherException] stands for
    anything its bare [except:] catches. *)
Inductive Exn : Type :=
| HaltCaptureException
| SoftTimeLimitExceeded
| OtherException.

(** How a call into an external service ends. *)
Inductive Outcome (A : Type) : Type :=
| Done (a : A)
| Raises (e : Exn).
Arguments Done {A} a.
Arguments Raises {A} e.

(** How [container.wait(timeout=...)] ends: with a result whose
    ['StatusCode'] is read by [result.get], by the timeout
    ([requests.exceptions.ConnectionError]), or by another error. *)
Inductive WaitOutcome : Type :=
| Exited (status_code : option Z)
| ConnectionError
| WaitFailed.

(** Everything outside the task that decides a run: the clocks, the
    container runtime, the container itself, the file system and the
    object storage.  [now] is the database time of the queries;
    [reap_time j] and [end_time] are what the clock of models.py shows when
    the reaper marks [j] failed and when the run marks its own job. *)
Record Env : Type := mkEnv {
  now : Z;
  reap_time : CaptureJob -> Z;
  end_time : Z;
  uuid4 : string;
  docker_from_env : Outcome unit;
  containers_create : Outcome unit;
  container_start : Outcome unit;
  stdout_stream : list string;
  stdout_stream_end : Outcome unit;
  wait_first : WaitOutcome;
  container_stop : Outcome unit;
  wait_after_stop : WaitOutcome;
  stderr_logs : Outcome string;
  container_status : string;
  isfile_outputfile : bool;
  container_remove : Outcome unit;
  client_close : Outcome unit;
  get_file_hash : Outcome (string * string);
  rest_of_file_empty : bool;
  file_tell : Z;
  storage_save : string -> Outcome string;
  storage_url : string -> Outcome string;
  download_expires : string -> Outcome Z
}.

(** [BrowsertrixLifeCycleThread]: what the thread has recorded once it is
    joined. *)
Record LifeCycle : Type := mkLifeCycle {
  timedout : bool;
  exit_code : option Z;
  stderr : option string;
  lc_status : string
}.

(** [BrowsertrixLifeCycleThread.run].  [result] starts as [{}], so
    [exit_code] is [None] unless a [wait] returned a status code; a timeout
    of the first [wait] stops the container at once and waits again.
    [stderr_logs] raising is the [RequestException] the thread swallows. *)
Definition life_cycle_run (e : Env) : LifeCycle :=
  let stderr :=
    match stderr_logs e with
    | Done s => Some s
    | Raises _ => None
    end in
  match wait_first e with
  | Exited code => mkLifeCycle false code stderr (container_status e)
  | ConnectionError =>
    let code :=
      match container_stop e with
      | Done _ =>
        match wait_after_stop e with
        | Exited code => code
        | _ => None
        end
      | Raises _ => None
      end in
    mkLifeCycle true code stderr (container_status e)
  | WaitFailed => mkLifeCycle false None stderr (container_status e)
  end.

(** The [Archive] row of a completed job. *)
Record Archive : Type := mkArchive {
  archive_capture_job : nat;
  hash : string;
  hash_algorithm : string;
  warc_size : Z;
  download_url : string;
  download_expiration_timestamp : Z
}.

(** What the task logs, and what it asks of the services around it.  The
    job ids interpolated into the messages are left out; [LogError] is the
    line "Browsertrix exited with {exit_code}: {stderr}". *)
Inductive Event : Type :=
| LogInfo (msg : string)
| LogWarning (msg : string)
| LogError (exit_code : option Z) (stderr : option string)
| LogException (msg : string)
| LogProgress (step : nat) (description : string)
| DockerFromEnv
| ContainersCreate (filename : string)
| ContainerStart
| LifeCycleThreadStart
| ContainerLogs
| ContainerRemove
| ClientClose
| StorageSave (filename : string)
| ApplyAsync (task : string).

(** The tables, the trace of events, and the local variables of the task
    that its [finally] blocks read. *)
Record St : Type := mkSt {
  db : Table;
  archives : list Archive;
  trace : list Event;
  capture_job : CaptureJob;
  client : bool;
  container : bool;
  have_archive : bool
}.

(** The updates of the state: each changes the one component it names. *)
Definition with_client (b : bool) (s : St) : St :=
  let 'mkSt t a tr j _ co ha := s in mkSt t a tr j b co ha.
Definition with_container (b : bool) (s : St) : St :=
  let 'mkSt t a tr j cl _ ha := s in mkSt t a tr j cl b ha.
Definition with_have_archive (b : bool) (s : St) : St :=
  let 'mkSt t a tr j cl co _ := s in mkSt t a tr j cl co b.
Definition add_event (ev : Event) (s : St) : St :=
  let 'mkSt t a tr j cl co ha := s in mkSt t a (tr ++ [ev]) j cl co ha.
Definition map_capture_job (f : CaptureJob -> CaptureJob) (s : St) : St :=
  let 'mkSt t a tr j cl co ha := s in mkSt t a tr (f j) cl co ha.
Definition save_capture_job (s : St) : St :=
  let 'mkSt t a tr j cl co ha := s in mkSt (save j t) a tr j cl co ha.
Definition add_archive (mk : CaptureJob -> Archive) (s : St) : St :=
  let 'mkSt t a tr j cl co ha := s in mkSt t (a ++ [mk j]) tr j cl co ha.

(** *** A state and exception monad for the body of the task *)

Definition M (A : Type) : Type := St -> Outcome A * St.

Definition ret {A} (a : A) : M A := fun s => (Done a, s).

Definition raise {A} (e : Exn) : M A := fun s => (Raises e, s).

Definition bind {A B} (m : M A) (k : A -> M B) : M B :=
  fun s =>
    match m s with
    | (Done a, s') => k a s'
    | (Raises e, s') => (Raises e, s')
    end.

Notation "x <- m ;; k" := (bind m (fun x => k))
  (at level 61, m at next level, right associativity).
Notation "m ;; k" := (bind m (fun _ => k))
  (at level 61, right associativity).

(** [try: m  except ...: handler e] *)
Definition try_except {A} (m : M A) (handler : Exn -> M A) : M A :=
  fun s =>
    match m s with
    | (Done a, s') => (Done a, s')
    | (Raises e, s') => handler e s'
    end.

(** [try: m  finally: cleanup] *)
Definition try_finally {A} (m : M A) (cleanup : M unit) : M A :=
  fun s =>
    match m s with
    | (r, s') =>
      match cleanup s' with
      | (Done _, s'') => (r, s'')
      | (Raises e, s'') => (Raises e, s'')
      end
    end.

Definition get_state : M St := fun s => (Done s, s).
Definition modify (f : St -> St) : M unit := fun s => (Done tt, f s).
Definition emit (ev : Event) : M unit := modify (add_event ev).

(** A call into an external service: the event is recorded, then the call
    returns or raises as the environment decides. *)
Definition call {A} (ev : Event) (o : Outcome A) : M A :=
  emit ev ;; (fun s => (o, s)).

Definition when (b : bool) (m : M unit) : M unit := if b then m else ret tt.

Fixpoint for_each {A} (l : list A) (body : A -> M unit) : M unit :=
  match l with
  | [] => ret tt
  | x :: l' => body x ;; for_each l' body
  end.

(** *** The helpers of the task *)

(** Change the in-memory job and save it. *)
Definition update_and_save (f : CaptureJob -> CaptureJob) : M unit :=
  modify (fun s => save_capture_job (map_capture_job f s)).

(** [inc_progress(capture_job, inc, description)] *)
Definition inc_progress (inc : nat) (description : string) : M unit :=
  update_and_save (Models.inc_progress inc description) ;;
  s <- get_state ;;
  emit (LogProgress (step_count (capture_job s))
          (step_description (capture_job s))).

Section Task.

Variable e : Env.

(** [filename = f'{uuid.uuid4()}.wacz'] *)
Definition filename : string := (uuid4 e ++ ".wacz")%string.

(** Step 1, validate: the requested URL is cleaned and saved as the
    validated URL, or the job is marked invalid and the capture halted. *)
Definition validate : M unit :=
  inc_progress 0 "Validating." ;;
  s <- get_state ;;
  match Utils.validate_and_clean_url (requested_url (capture_job s)) with
  | inl messages =>
    update_and_save (mark_invalid (end_time e) [("requested_url", messages)]) ;;
    raise HaltCaptureException
  | inr url => modify (map_capture_job (set_validated_url (Some url)))
  end ;;
  update_and_save (fun j => j).

(** Steps 2 and 3, and the start of step 4: the client, the container, its
    start and the start of the life-cycle thread. *)
Definition provision : M unit :=
  inc_progress 1 "Connecting to Docker." ;;
  call DockerFromEnv (docker_from_env e) ;;
  modify (with_client true) ;;
  inc_progress 1 "Creating browsertrix container." ;;
  call (ContainersCreate filename) (containers_create e) ;;
  modify (with_container true) ;;
  inc_progress 1 "Starting browsertrix." ;;
  call ContainerStart (container_start e) ;;
  emit LifeCycleThreadStart.

(** Step 4: the standard output of the container, one progress step per
    line, until the stream ends. *)
Definition stream_progress : M unit :=
  emit ContainerLogs ;;
  for_each (stdout_stream e)
    (fun msg => inc_progress 1 ("Browsertrix: " ++ Utils.strip msg ++ ".")%string) ;;
  (fun s => (stdout_stream_end e, s)).

(** Step 5, after the join: a nonzero exit code halts the capture, with
    whatever output file there is to salvage. *)
Definition evaluate_outcome : M unit :=
  let life_cycle := life_cycle_run e in
  match exit_code life_cycle with
  | Some 0 => modify (with_have_archive true)
  | _ =>
    when (isfile_outputfile e) (modify (with_have_archive true)) ;;
    emit (LogError (exit_code life_cycle) (stderr life_cycle)) ;;
    raise HaltCaptureException
  end.

(** Steps 1 to 5: the body of the outer [try]. *)
Definition capture : M unit :=
  validate ;; provision ;; stream_progress ;; evaluate_outcome.

(** The handlers of the outer [try]. *)
Definition handle (x : Exn) : M unit :=
  match x with
  | HaltCaptureException => emit (LogInfo "HaltCaptureException thrown.")
  | SoftTimeLimitExceeded => emit (LogWarning "Soft timeout while capturing job.")
  | OtherException => emit (LogException "Exception while capturing job.")
  end.

(** Step 6, first half: the container is removed and the client closed,
    if there are any. *)
Definition release : M unit :=
  s <- get_state ;;
  when (container s) (call ContainerRemove (container_remove e)) ;;
  when (client s) (call ClientClose (client_close e)).

(** Step 6, second half: the output file is hashed, measured and stored,
    the archive row saved and the job marked completed.
    [open(browsertrix_outputfile, 'rb')] raises when the file is missing,
    and the [assert] when the hash did not read the file to its end. *)
Definition save_archive : M unit :=
  (if isfile_outputfile e then ret tt else raise OtherException) ;;
  inc_progress 1 "Processing archive." ;;
  h <- (fun s => (get_file_hash e, s)) ;;
  (if rest_of_file_empty e then ret tt else raise OtherException) ;;
  inc_progress 1 "Saving archive." ;;
  name <- call (StorageSave filename) (storage_save e filename) ;;
  url <- (fun s => (storage_url e name, s)) ;;
  expires <- (fun s => (download_expires e url, s)) ;;
  modify (add_archive
            (fun j => mkArchive (id j) (fst h) (snd h) (file_tell e) url
                        expires)) ;;
  update_and_save (mark_completed (end_time e)) ;;
  emit (LogInfo "Capture succeeded.").

(** Step 6: the body of the [try] inside the outer [finally]. *)
Definition finalize : M unit :=
  release ;;
  s <- get_state ;;
  if have_archive s then save_archive else emit (LogInfo "Capture failed.").

(** Step 7: the innermost [finally]. *)
Definition safety_net : M unit :=
  s <- get_state ;;
  when (status_eqb (status (capture_job s)) IN_PROGRESS)
    (update_and_save (mark_failed (end_time e) "Failed during capture.")).

(** The whole [try ... except ... finally] statement run on a reserved
    job. *)
Definition run_capture : M unit :=
  try_finally
    (try_except capture handle)
    (try_finally
       (try_except finalize
          (fun _ => emit (LogException "Exception while finishing job.")))
       safety_net).

(** [run_next_capture()], run on the tables [t] and [a].  It gives back how
    the task ended, the tables, and the trace of what it did. *)
Definition run_next_capture (t : Table) (a : list Archive)
  : Outcome unit * Table * list Archive * list Event :=
  let t1 := Reaper.clean_up_failed_captures (now e) (reap_time e) t in
  match Queue.get_next_job (now e) t1 with
  | (None, t2) => (Done tt, t2, a, [LogInfo "No jobs waiting!"])
  | (Some job, t2) =>
    let '(r, s) :=
      (run_capture ;; emit (ApplyAsync "run_next_capture"))
        (mkSt t2 a [] job false false false) in
    (r, db s, archives s, trace s)
  end.

End Task.

End Orchestrator.

(* ----------------------------------------------------------------- *)
(** ** The webhook dispatcher ([dispatch_webhook]) *)

Module Webhook.
Import Models.

(** What [requests.post] gives back: a response with a status code, or a
    [requests.RequestException]. *)
Inductive Response : Type :=
| StatusCode (code : Z)
| RequestException.

(** The arguments of the one [requests.post] call. *)
Record Request : Type := mkRequest {
  url : string;
  json : string;
  x_hook_signature : string;
  timeout : Z;
  allow_redirects : bool
}.

(** The arguments of [send_template_email].  The context carries the two
    objects the task has loaded: the subscription, and the capture job as
    [.first()] gave it, which is [None] when no row has the id. *)
Record Email : Type := mkEmail {
  subject : string;
  template : string;
  context_subscription : WebhookSubscription;
  context_capture_job : option CaptureJob;
  from_email : string;
  recipients : list string
}.

(** The log lines of the task; the numbers are the ids interpolated into
    the message. *)
Inductive LogRecord : Type :=
| NotificationsDisabled (subscription_id capture_job_id : nat)
| DeliveryFailed (subscription_id capture_job_id retries max_retries : nat)
| PermanentlyFailed (subscription_id capture_job_id : nat)
| Delivered (subscription_id capture_job_id : nat).

(** A retry handed to the task substrate: the same task, with its retry
    counter and the delay before it runs. *)
Record Scheduled : Type := mkScheduled {
  sched_subscription : nat;
  sched_capture_job : nat;
  sched_retries : nat;
  countdown : Z
}.

(** Everything the task can read or change. *)
Record World : Type := mkWorld {
  subscriptions : list WebhookSubscription;
  capture_jobs : Table;
  requests_sent : list Request;
  mailoutbox : list Email;
  retries_scheduled : list Scheduled;
  log : list LogRecord
}.

(** How one run of the task ends. *)
Inductive Outcome : Type :=
| Returned
| RaisedRetry
| RaisedDoesNotExist.

Definition add_log (r : LogRecord) (w : World) : World :=
  mkWorld (subscriptions w) (capture_jobs w) (requests_sent w) (mailoutbox w)
    (retries_scheduled w) (log w ++ [r]).

Definition add_request (r : Request) (w : World) : World :=
  mkWorld (subscriptions w) (capture_jobs w) (requests_sent w ++ [r])
    (mailoutbox w) (retries_scheduled w) (log w).

Definition add_email (e : Email) (w : World) : World :=
  mkWorld (subscriptions w) (capture_jobs w) (requests_sent w)
    (mailoutbox w ++ [e]) (retries_scheduled w) (log w).

Definition add_retry (r : Scheduled) (w : World) : World :=
  mkWorld (subscriptions w) (capture_jobs w) (requests_sent w) (mailoutbox w)
    (retries_scheduled w ++ [r]) (log w).

(** [Task.retry] of the task substrate (celery): the retry counter of the
    next run is [request.retries + 1]; when that exceeds [max_retries] the
    call raises [MaxRetriesExceededError], otherwise the task is scheduled
    again and [Retry] is raised. *)
Definition max_retries_exceeded (max_retries retries : nat) : bool :=
  Nat.ltb max_retries (retries + 1).

(** [response.status_code in [200, 204]] *)
Definition accepted (r : Response) : bool :=
  match r with
  | StatusCode c => (c =? 200) || (c =? 204)
  | RequestException => false
  end.

Section Dispatcher.

(** [settings.DISPATCH_WEBHOOKS] and [settings.WEBHOOK_MAX_RETRIES]; the
    settings file of the sources does not fix them. *)
Variable DISPATCH_WEBHOOKS : bool.
Variable WEBHOOK_MAX_RETRIES : nat.

(** The serializers of [main/serializers.py] and the JSON encoding of the
    payload built from them. *)
Variable serialize_payload : WebhookSubscription -> option CaptureJob -> string.

Variable hmac_hexdigest : string -> string -> string -> string.

(** [dispatch_webhook(self, subscription_id, capture_job_id)], run with
    [self.request.retries = retries] in world [w]; [response] is what the
    callback answers to the POST. *)
Definition dispatch_webhook (retries subscription_id capture_job_id : nat)
    (response : Response) (w : World) : Outcome * World :=
  if negb DISPATCH_WEBHOOKS then
    (Returned, add_log (NotificationsDisabled subscription_id capture_job_id) w)
  else
    match find (fun s => Nat.eqb (ws_id s) subscription_id) (subscriptions w) with
    | None => (RaisedDoesNotExist, w)
    | Some subscription =>
      let capture_job := get capture_job_id (capture_jobs w) in
      let payload := serialize_payload subscription capture_job in
      let w1 :=
        add_request
          (mkRequest (callback_url subscription) payload
             (Utils.sign_data hmac_hexdigest payload (signing_key subscription)
                (signing_key_algorithm subscription))
             20 false) w in
      if accepted response then
        (Returned, add_log (Delivered subscription_id capture_job_id) w1)
      else
        let w2 :=
          add_log (DeliveryFailed subscription_id capture_job_id retries
                     WEBHOOK_MAX_RETRIES) w1 in
        if max_retries_exceeded WEBHOOK_MAX_RETRIES retries then
          (Returned,
           add_email
             (mkEmail
                ("[ALERT] Your " ++ Settings.APP_NAME ++
                 " webhook notification failed.")%string
                "email/webhook_failed.txt"
                subscription capture_job
                Settings.DEFAULT_FROM_EMAIL
                [ws_user_email subscription])
             (add_log (PermanentlyFailed subscription_id capture_job_id) w2))
        else
          (RaisedRetry,
           add_retry
             (mkScheduled subscription_id capture_job_id (retries + 1)
                (2 ^ Z.of_nat retries)) w2)
    end.

(** The task substrate running the task and every retry it schedules:
    [responses k] is the callback's answer to the run whose retry counter is
    [k].  [fuel] bounds the number of runs. *)
Fixpoint deliver (fuel retries subscription_id capture_job_id : nat)
    (responses : nat -> Response) (w : World) : option (Outcome * World) :=
  match fuel with
  | O => None
  | S fuel' =>
    match dispatch_webhook retries subscription_id capture_job_id
            (responses retries) w with
    | (RaisedRetry, w') =>
      deliver fuel' (retries + 1) subscription_id capture_job_id responses w'
    | r => Some r
    end
  end.

End Dispatcher.

End Webhook.

(* ================================================================= *)
(** * Part II: the vocabulary of the specification *)
(* ================================================================= *)

(* ----------------------------------------------------------------- *)
(** ** The table *)

Module ModelsSpec.
Import Models.

(** The primary key is unique. *)
Definition wf_table (t : Table) : Prop := NoDup (map id t).

End ModelsSpec.

(* ----------------------------------------------------------------- *)
(** ** The reaper *)

Module ReaperSpec.
Import Models Reaper.

(** What the reaper does to one row. *)
Definition reap_row (now : Z) (clock : CaptureJob -> Z) (j : CaptureJob)
  : CaptureJob :=
  if stale now j then mark_failed (clock j) "Timed out." j else j.

(** A small table: job 1 reserved long ago, job 2 reserved just now, job 3
    completed long ago. *)
Definition sample_job (k : nat) (st : Status) (started : option Z)
  : CaptureJob :=
  mkCaptureJob k 1 true 0 "example.com" None st 0 "" [] started None.

Definition sample_table : Table :=
  [ sample_job 1 IN_PROGRESS (Some 100);
    sample_job 2 IN_PROGRESS (Some 990);
    sample_job 3 COMPLETED (Some 100) ].

End ReaperSpec.

(* ----------------------------------------------------------------- *)
(** ** The webhook dispatcher *)

Module WebhookSpec.
Import Models Webhook.

(** The subscription row the task loads. *)
Definition lookup (subscription_id : nat) (w : World)
  : option WebhookSubscription :=
  find (fun s => Nat.eqb (ws_id s) subscription_id) (subscriptions w).

(** The escalation e-mail for a subscription and the capture job loaded
    for the run ([None] when the job table has no row with the id). *)
Definition escalation (s : WebhookSubscription) (capture_job : option CaptureJob)
  : Email :=
  mkEmail
    ("[ALERT] Your " ++ Settings.APP_NAME ++ " webhook notification failed.")%string
    "email/webhook_failed.txt" s capture_job
    Settings.DEFAULT_FROM_EMAIL [ws_user_email s].

(** The retry scheduled by the run whose retry counter is [k]. *)
Definition backoff (subscription_id capture_job_id k : nat) : Scheduled :=
  mkScheduled subscription_id capture_job_id (k + 1) (2 ^ Z.of_nat k).

(** A completed capture job, with id 9. *)
Definition sample_capture_job : CaptureJob :=
  mkCaptureJob 9 1 true 0 "example.com" (Some "http://example.com") COMPLETED
    5 "Saving archive." [] (Some 100) (Some 200).

(** A world with one subscription and that one capture job, for the runs
    below. *)
Definition sample_world : World :=
  mkWorld
    [mkWebhookSubscription 5 "owner@example.com" "https://hook.example/cb"
       "secret" "sha256"]
    [sample_capture_job] [] [] [] [].

End WebhookSpec.

(* ----------------------------------------------------------------- *)
(** ** The URLs the validator has to tell apart *)

Module UrlSpec.
Import Utils.
Local Open Scope string_scope.

(** One of [ps] is somewhere in [s]. *)
Definition contains (ps : list string) (s : string) : Prop :=
  exists a p b, In p ps /\ s = a ++ p ++ b.

(** The URL has a control character. *)
Definition Control (u : string) : Prop :=
  exists a b, u = a ++ b /\ control_first b = true.

(** A run of the characters [ps]. *)
Inductive run_of (ps : list string) : string -> Prop :=
| run_nil : run_of ps ""
| run_cons p s : In p ps -> run_of ps s -> run_of ps (p ++ s).

(** A run of white-space characters. *)
Definition blank (s : string) : Prop := run_of white_space s.

(** [s] neither starts nor ends with a white-space character. *)
Definition trimmed (s : string) : Prop :=
  forall p r, In p white_space -> s <> p ++ r /\ s <> r ++ p.

(** The URL is empty, or white space only. *)
Definition Empty (u : string) : Prop := strip u = "".

(** [u] is written with the scheme [name]: [name], a colon, and [rest],
    which does not start with a port number. *)
Definition Scheme (u name rest : string) : Prop :=
  u = name ++ ":" ++ rest /\ scheme_name name = true /\
  port_first rest = false.

(** The URL is written with a scheme that is not http or https. *)
Definition OtherScheme (u : string) : Prop :=
  exists name rest, Scheme (strip u) name rest /\
    lower name <> "http" /\ lower name <> "https".

(** A host: labels with dots between them. *)
Definition Host (h : string) : Prop :=
  exists labels, h = String.concat "." labels /\
    well_formed_labels labels = true.

(** host [":" port] *)
Definition HostPort (hp : string) : Prop :=
  Host hp \/
  exists h p, hp = h ++ ":" ++ p /\ Host h /\ well_formed_port p = true.

(** [userinfo "@"] host [":" port] *)
Definition Authority (a : string) : Prop :=
  HostPort a \/
  exists u hp, a = u ++ "@" ++ hp /\ well_formed_userinfo u = true /\
    HostPort hp.

(** Nothing, or a path, a query or a fragment. *)
Definition Tail (t : string) : Prop :=
  t = "" \/ exists c t', t = String c t' /\ is_delimiter c = true.

(** An http or https URL. *)
Definition HttpUrl (v : string) : Prop :=
  ~ contains white_space v /\
  exists name a t, v = name ++ "://" ++ a ++ t /\
    (lower name = "http" \/ lower name = "https") /\
    Authority a /\ Tail t.

(** The URL, trimmed and with "http://" in front when it is written
    without a scheme, is not an http or https URL. *)
Definition Malformed (u : string) : Prop := ~ HttpUrl (with_scheme (strip u)).

(** The characters of a host, of a host with a port, and of an
    authority. *)
Definition host_char (c : ascii) : bool := label_char c || Ascii.eqb c ".".
Definition hostport_char (c : ascii) : bool := host_char c || Ascii.eqb c ":".
Definition authority_char (c : ascii) : bool :=
  hostport_char c || userinfo_char c || Ascii.eqb c "@".

(** The URLs the specification has rejected. *)
Definition Rejected (u : string) : Prop :=
  Empty u \/ Malformed u \/ Control u \/ OtherScheme u.

End UrlSpec.

(* ----------------------------------------------------------------- *)
(** ** The orchestrator *)

Module OrchestratorSpec.
Import Models Orchestrator.

(** [m] keeps the invariant [I], however it ends. *)
Definition preserves (I : St -> Prop) {A} (m : M A) : Prop :=
  forall s, I s -> I (snd (m s)).

(** *** The invariant of a run

    From the reservation to the safety net: the in-memory job is the
    reserved one, its row is in the table with the same status, that status
    is InProgress or was set by [mark_invalid] or [mark_completed], and the
    task has not been enqueued again. *)
Definition Inv (k : nat) (s : St) : Prop :=
  id (capture_job s) = k /\
  (exists row, get k (db s) = Some row /\
     status row = status (capture_job s)) /\
  (status (capture_job s) = IN_PROGRESS \/
   status (capture_job s) = INVALID \/
   status (capture_job s) = COMPLETED) /\
  (forall task, ~ In (ApplyAsync task) (trace s)).

(** An update of the job that keeps its key and either keeps its status or
    moves it to Invalid or Completed. *)
Definition quiet_update (f : CaptureJob -> CaptureJob) : Prop :=
  forall j, id (f j) = id j /\
    (status (f j) = status j \/ status (f j) = INVALID \/
     status (f j) = COMPLETED).

(** What the safety net leaves: a terminal status, in the job and in its
    row. *)
Definition Settled (k : nat) (s : St) : Prop :=
  id (capture_job s) = k /\
  (exists row, get k (db s) = Some row /\
     status row = status (capture_job s)) /\
  (status (capture_job s) = INVALID \/
   status (capture_job s) = COMPLETED \/
   (status (capture_job s) = FAILED /\
    message (capture_job s) =
      [(Settings.NON_FIELD_ERRORS_KEY, ["Failed during capture."])])) /\
  (forall task, ~ In (ApplyAsync task) (trace s)).

(** What a phase leaves alone: the local variables, the archives, and the
    key and status of the job. *)
Definition same_frame (s s' : St) : Prop :=
  client s' = client s /\ container s' = container s /\
  have_archive s' = have_archive s /\ archives s' = archives s /\
  id (capture_job s') = id (capture_job s) /\
  status (capture_job s') = status (capture_job s).

(** The state in which the [try] statement starts. *)
Definition start (t : Table) (a : list Archive) (job : CaptureJob) : St :=
  mkSt t a [] job false false false.

(** An environment in which every service answers, the container prints
    two lines and exits with 0. *)
Definition calm : Env :=
  mkEnv 1000 (fun _ => 1005) 1010 "6f1c" (Done tt) (Done tt) (Done tt)
    ["status 1"; "status 2"] (Done tt)
    (Exited (Some 0)) (Done tt) (Exited (Some 137)) (Done "") "exited"
    true (Done tt) (Done tt) (Done ("9a0b", "sha256")) true 2048
    (fun name => Done name)
    (fun name => Done ("https://storage/" ++ name ++ "?Expires=2000")%string)
    (fun _ => Done 2000).

(** A table with one pending job for [url]. *)
Definition one_pending (url : string) : Table :=
  [mkCaptureJob 1 1 true 0 url None PENDING 0 "" [] None None].

(** An environment like [calm], but for how the container exits, whether
    the output file exists, and what the storage does with an upload. *)
Definition scenario (exit : WaitOutcome) (file : bool)
    (upload : string -> Outcome string) : Env :=
  mkEnv 1000 (fun _ => 1005) 1010 "6f1c" (Done tt) (Done tt) (Done tt)
    ["status 1"; "status 2"] (Done tt)
    exit (Done tt) (Exited (Some 137)) (Done "") "exited"
    file (Done tt) (Done tt) (Done ("9a0b", "sha256")) true 2048
    upload
    (fun name => Done ("https://storage/" ++ name ++ "?Expires=2000")%string)
    (fun _ => Done 2000).

(** The events that create or launch a container. *)
Definition launches (ev : Event) : bool :=
  match ev with
  | DockerFromEnv | ContainersCreate _ | ContainerStart
  | LifeCycleThreadStart | ContainerLogs => true
  | _ => false
  end.

End OrchestratorSpec.

(* ----------------------------------------------------------------- *)
(** ** The queue *)

Module QueueSpec.
Import Models Queue.

(** Every timestamp of the table is earlier than [now]. *)
Definition before (now : Z) (t : Table) : Prop :=
  forall j, In j t ->
    created_at j < now /\
    forall s, capture_start_time j = Some s -> s < now.

(** The times of successive calls: each later than the one before, the
    first later than [lo]. *)
Fixpoint ascending (lo : Z) (nows : list Z) : Prop :=
  match nows with
  | [] => True
  | now :: nows' => lo < now /\ ascending now nows'
  end.

Definition claim_row (now : Z) (k : nat) (r : CaptureJob) : CaptureJob :=
  if Nat.eqb (id r) k && is_pending r then reserve now r else r.

(** The jobs still waiting: the human sub-queues, then the robot queue. *)
Definition waiting (t : Table) : list CaptureJob :=
  pending_human t ++ pending_robot t.

(** The rows selected by successive reservations, as they were when
    selected. *)
Fixpoint picks (nows : list Z) (t : Table) : list CaptureJob :=
  match nows with
  | [] => []
  | now :: nows' =>
    match next_job t with
    | None => []
    | Some j => j :: picks nows' (snd (claim now (id j) t))
    end
  end.

(** What the calls return for the rows selected: each row as reserved at
    the time of its call. *)
Definition reserved_at (nows : list Z) (js : list CaptureJob)
  : list (option CaptureJob) :=
  map (fun p => Some (reserve (fst p) (snd p))) (combine nows js).

(** No timestamp of the table is later than [lo]. *)
Definition upto (lo : Z) (t : Table) : Prop :=
  forall j, In j t ->
    created_at j <= lo /\
    forall s, capture_start_time j = Some s -> s <= lo.

Definition by_user (u : nat) (j : CaptureJob) : bool := Nat.eqb (user_id j) u.

(** Two tables queue the same jobs in the same rotation. *)
Definition same_rotation (t1 t2 : Table) : Prop :=
  pending_human t1 = pending_human t2 /\
  pending_robot t1 = pending_robot t2 /\
  forall a b, In a (pending_human t1) -> In b (pending_human t1) ->
    (job_key t1 a <? job_key t1 b) = (job_key t2 a <? job_key t2 b).

(** The human jobs are served round robin: when a user is served twice,
    every other user who is still waiting after the first of the two is
    served in between. *)
Definition round_robin (order : list CaptureJob) : Prop :=
  forall l1 a l2 b l3,
    order = l1 ++ a :: l2 ++ b :: l3 ->
    human a = true -> human b = true -> user_id a = user_id b ->
    forall c, In c (l2 ++ b :: l3) -> human c = true ->
      user_id c <> user_id a ->
      exists c', In c' l2 /\ user_id c' = user_id c.

(** A table of pending jobs submitted one after the other. *)
Definition submitted (k u : nat) (h : bool) : CaptureJob :=
  mkCaptureJob k u h (Z.of_nat k) "example.com" None PENDING 0 "" [] None None.

(** The jobs of test_job_queue_order: user 1 submits three human jobs, user
    2 a human job and a robot job, user 1 three more human jobs, user 2 one
    more. *)
Definition test_jobs : Table :=
  [ submitted 0 1 true; submitted 1 1 true; submitted 2 1 true;
    submitted 3 2 true;
    submitted 4 2 false;
    submitted 5 1 true; submitted 6 1 true; submitted 7 1 true;
    submitted 8 2 true ].

End QueueSpec.

(* ----------------------------------------------------------------- *)
(** ** Workers racing for jobs *)

Module WorkersSpec.
Import Models Queue Workers ModelsSpec QueueSpec.

Definition result_of (w : Worker) : list CaptureJob :=
  match w with
  | Returned (Some j) => [j]
  | _ => []
  end.

Definition came_back_empty (w : Worker) : bool :=
  match w with
  | Returned None => true
  | _ => false
  end.

(** *** The invariant of a race

    Relative to the table [t0] the race started from: keys are unique; a
    pending row is a row of [t0]; the jobs still waiting and the jobs
    returned are, together, the jobs that waited in [t0]; a returned job is
    a pending row of [t0] as reserved, and is in the table; and once a
    worker has come back with nothing, nothing is waiting. *)
Record Inv (t0 : Table) (s : System) : Prop := mkInv {
  inv_wf : wf_table (table s);
  inv_pending : forall r, In r (table s) -> is_pending r = true -> In r t0;
  inv_perm :
    Permutation (map id (waiting t0))
      (map id (waiting (table s)) ++ map id (results (workers s)));
  inv_results :
    forall j, In j (results (workers s)) ->
      In j (table s) /\
      exists now j0, j = reserve now j0 /\ In j0 t0 /\ is_pending j0 = true;
  inv_empty :
    existsb came_back_empty (workers s) = true -> waiting (table s) = []
}.

(** What one action does: it reads, or loses a claim, and the table stays
    as it is; or it wins a claim, and exactly the claimed row changes, from
    Pending to InProgress with its start time, in that one action, and the
    worker returns that row. *)
Inductive Action (i : nat) (s s' : System) : Prop :=
| Read_candidate j :
    nth_error (workers s) i = Some Idle ->
    next_job (table s) = Some j ->
    table s' = table s ->
    workers s' = update i (Reading j) (workers s) ->
    Action i s s'
| Read_nothing :
    nth_error (workers s) i = Some Idle ->
    next_job (table s) = None ->
    table s' = table s ->
    workers s' = update i (Returned None) (workers s) ->
    Action i s s'
| Claim_lost j :
    nth_error (workers s) i = Some (Reading j) ->
    fst (claim (clock s) (id j) (table s)) = 0%nat ->
    table s' = table s ->
    workers s' = update i Idle (workers s) ->
    Action i s s'
| Claim_won j r l1 l2 :
    nth_error (workers s) i = Some (Reading j) ->
    id r = id j -> is_pending r = true ->
    table s = l1 ++ r :: l2 ->
    table s' = l1 ++ reserve (clock s) r :: l2 ->
    table s' = snd (claim (clock s) (id r) (table s)) ->
    workers s' = update i (Returned (Some (reserve (clock s) r))) (workers s) ->
    Action i s s'.

Definition claimable (t : Table) (k : nat) : bool :=
  existsb (fun r => Nat.eqb (id r) k && is_pending r) t.

(** What a worker may still cost: a read and a claim when idle, a claim
    when its candidate is still there, a lost claim, a read and a claim
    when it is not. *)
Definition cost (t : Table) (w : Worker) : nat :=
  match w with
  | Idle => 2
  | Reading j => if claimable t (id j) then 1 else 3
  | Returned _ => 0
  end.

Definition potential (s : System) : nat :=
  list_sum (map (cost (table s)) (workers s)) +
  2 * List.length (workers s) * List.length (waiting (table s)).

(** The number of actions taken along a schedule. *)
Fixpoint actions (schedule : list nat) (s : System) : nat :=
  match schedule with
  | [] => O
  | i :: rest =>
    match step i s with
    | Some s' => S (actions rest s')
    | None => actions rest s
    end
  end.

(** Two pending jobs, as in test_race_condition_prevented. *)
Definition two_jobs : Table :=
  [submitted 1 1 false; submitted 2 1 false].

(** The race of the test, with the pause: both workers read the same
    candidate before either claims it; the first claim wins, the second is
    lost, and the second worker falls through to the other job. *)
Definition paused_race : list nat := [0; 1; 0; 1; 1; 1]%nat.

End WorkersSpec.

(* ----------------------------------------------------------------- *)
(** ** The orchestrator: what a run leaves *)

Module CaptureSpec.
Import Models Orchestrator OrchestratorSpec.

(** Whether a call into a service returned. *)
Definition returned {A} (o : Outcome A) : bool :=
  match o with
  | Done _ => true
  | Raises _ => false
  end.

(** The progress lines of a trace: the step count and the description
    logged by each [inc_progress]. *)
Definition steps (tr : list Event) : list (nat * string) :=
  flat_map (fun ev => match ev with
                      | LogProgress n d => [(n, d)]
                      | _ => []
                      end) tr.

(** How often a trace holds an event of a kind. *)
Definition count (p : Event -> bool) (tr : list Event) : nat :=
  List.length (filter p tr).

Definition is_remove (ev : Event) : bool :=
  match ev with
  | ContainerRemove => true
  | _ => false
  end.

Definition is_close (ev : Event) : bool :=
  match ev with
  | ClientClose => true
  | _ => false
  end.

(** The fields of a job the task never writes. *)
Definition same_job (j j' : CaptureJob) : Prop :=
  id j' = id j /\ user_id j' = user_id j /\ human j' = human j /\
  created_at j' = created_at j /\ requested_url j' = requested_url j /\
  capture_start_time j' = capture_start_time j.

(** Whether the validator accepts the URL of a job. *)
Definition valid_url (j : CaptureJob) : bool :=
  match Utils.validate_and_clean_url (requested_url j) with
  | inr _ => true
  | inl _ => false
  end.

(** [inc_progress] as a change of the state. *)
Definition progressed (n : nat) (d : string) (s : St) : St :=
  let 'mkSt t a tr j cl co ha := s in
  mkSt (save (Models.inc_progress n d j) t) a
    (tr ++ [LogProgress (step_count j + n) d])
    (Models.inc_progress n d j) cl co ha.

(** An update of the job that leaves its identity and its progress. *)
Definition settles (f : CaptureJob -> CaptureJob) : Prop :=
  forall j, same_job j (f j) /\ step_count (f j) = step_count j /\
    step_description (f j) = step_description j.

(** The description of the progress step made for one line of output. *)
Definition label (msg : string) : string :=
  ("Browsertrix: " ++ Utils.strip msg ++ ".")%string.

(** The local variables of the task, the job and the archive table at a
    point of a run, and how often removal and close were asked for. *)
Definition At (j : CaptureJob) (a : list Archive) (cl co ha : bool)
    (removes closes : nat) (s : St) : Prop :=
  capture_job s = j /\ archives s = a /\
  client s = cl /\ container s = co /\ have_archive s = ha /\
  count is_remove (trace s) = removes /\ count is_close (trace s) = closes.

(** From a state that satisfies [P], [m] returns exactly when [b] holds,
    and leaves a state that satisfies [Q] whether it returns or raises. *)
Definition runs {A} (P : St -> Prop) (m : M A) (b : bool) (Q : St -> Prop)
  : Prop :=
  forall s, P s -> returned (fst (m s)) = b /\ Q (snd (m s)).

Definition row_list (x : option Archive) : list Archive :=
  match x with
  | Some x => [x]
  | None => []
  end.

Definition is_some {A} (x : option A) : bool :=
  match x with
  | Some _ => true
  | None => false
  end.

Section Run.

Variable e : Env.

(** *** What each phase does to the job *)

(** Step 1. *)
Definition validate_job (j : CaptureJob) : CaptureJob :=
  let j0 := Models.inc_progress 0 "Validating." j in
  match Utils.validate_and_clean_url (requested_url j) with
  | inl msgs => mark_invalid (end_time e) [("requested_url", msgs)] j0
  | inr url => set_validated_url (Some url) j0
  end.

(** Steps 2 to 4: a progress step before each call, as far as the calls
    return. *)
Definition provision_job (j : CaptureJob) : CaptureJob :=
  let j1 := Models.inc_progress 1 "Connecting to Docker." j in
  if returned (docker_from_env e) then
    let j2 := Models.inc_progress 1 "Creating browsertrix container." j1 in
    if returned (containers_create e) then
      Models.inc_progress 1 "Starting browsertrix." j2
    else j2
  else j1.

(** Step 4: one progress step for each line of output. *)
Definition stream_job (j : CaptureJob) : CaptureJob :=
  fold_left (fun j msg => Models.inc_progress 1 (label msg) j)
    (stdout_stream e) j.

(** The archive row of job [k], when hashing, the upload, the URL and its
    expiry all return. *)
Definition archive_row (k : nat) : option Archive :=
  match get_file_hash e with
  | Done h =>
    match storage_save e (filename e) with
    | Done name =>
      match storage_url e name with
      | Done u =>
        match download_expires e u with
        | Done exp => Some (mkArchive k (fst h) (snd h) (file_tell e) u exp)
        | Raises _ => None
        end
      | Raises _ => None
      end
    | Raises _ => None
    end
  | Raises _ => None
  end.

(** The output file was hashed, and read to its end by that. *)
Definition hashed : bool :=
  returned (get_file_hash e) && rest_of_file_empty e.

(** Step 6, second half, on an output file that exists. *)
Definition archive_job (j : CaptureJob) : CaptureJob :=
  let j1 := Models.inc_progress 1 "Processing archive." j in
  if hashed then
    let j2 := Models.inc_progress 1 "Saving archive." j1 in
    match archive_row (id j) with
    | Some _ => mark_completed (end_time e) j2
    | None => j2
    end
  else j1.

(** Step 7. *)
Definition safety_job (j : CaptureJob) : CaptureJob :=
  if status_eqb (status j) IN_PROGRESS
  then mark_failed (end_time e) "Failed during capture." j
  else j.

(** The container exited with code 0. *)
Definition exit_zero : bool :=
  match exit_code (life_cycle_run e) with
  | Some 0 => true
  | _ => false
  end.

Variable job : CaptureJob.

(** *** How far a run gets *)

(** The client was opened: the URL was accepted and [docker.from_env]
    returned. *)
Definition opened : bool := valid_url job && returned (docker_from_env e).

(** The container was created. *)
Definition created : bool := opened && returned (containers_create e).

(** The container was started. *)
Definition started : bool := created && returned (container_start e).

(** The output was streamed to its end, so the life-cycle thread was
    joined. *)
Definition joined : bool := started && returned (stdout_stream_end e).

(** [have_archive] when the [finally] block is entered. *)
Definition salvaged : bool := joined && (exit_zero || isfile_outputfile e).

(** The container removal and the client close returned, as far as there
    was a container or a client. *)
Definition released : bool :=
  (negb created || returned (container_remove e)) &&
  (negb opened || returned (client_close e)).

(** The output file was there to be stored: the thread was joined, the
    resources were released, and the file exists. *)
Definition filed : bool := joined && released && isfile_outputfile e.

(** The archive row a run adds. *)
Definition archived : option Archive :=
  if filed && hashed then archive_row (id job) else None.

(** The validated URL a run leaves: the cleaned URL when the validator
    accepts the requested one, what it was otherwise. *)
Definition cleaned_url : option string :=
  match Utils.validate_and_clean_url (requested_url job) with
  | inr url => Some url
  | inl _ => validated_url job
  end.

(** *** The job a run leaves *)

Definition captured_job : CaptureJob :=
  let j := validate_job job in
  if valid_url job then
    let j' := provision_job j in
    if started then stream_job j' else j'
  else j.

Definition finalized_job : CaptureJob :=
  if filed then archive_job captured_job else captured_job.

Definition final_job : CaptureJob := safety_job finalized_job.

Variable t2 : Table.
Variable a0 : list Archive.

(** The books of a run, from the first progress line on: the job in memory
    is the reserved job, it is the row of the table under its key and no
    other row has changed, the progress lines logged count up from the
    step count of the reserved job, and the last of them is where the job
    stands. *)
Definition Base (s : St) : Prop :=
  same_job job (capture_job s) /\
  db s = save (capture_job s) t2 /\
  map fst (steps (trace s)) =
    seq (step_count job) (List.length (steps (trace s))) /\
  exists l, steps (trace s) =
    l ++ [(step_count (capture_job s), step_description (capture_job s))].

(** Where the [try ... except ... finally] statement leaves a run. *)
Definition Finished (s : St) : Prop :=
  Base s /\
  At final_job
    (a0 ++ row_list archived)
    opened created salvaged
    (if created then 1 else 0)
    (if opened && (negb created || returned (container_remove e))
     then 1 else 0) s.

End Run.

(** What a run of the task leaves behind: how it ended, the job table and
    the archive table. *)
Definition leaves (r : Outcome unit * Table * list Archive * list Event)
  : Outcome unit * Table * list Archive :=
  let '(o, t, a, _) := r in (o, t, a).

(** The job table a run of the task leaves. *)
Definition table_of (r : Outcome unit * Table * list Archive * list Event)
  : Table :=
  let '(_, t, _, _) := r in t.

(** An environment with another life-cycle thread: other outcomes of the
    two waits and of the stop, other logs, another container status. *)
Definition with_life_cycle (first : WaitOutcome) (stop : Outcome unit)
    (second : WaitOutcome) (logs : Outcome string) (st : string) (e : Env)
  : Env :=
  mkEnv (now e) (reap_time e) (end_time e) (uuid4 e) (docker_from_env e)
    (containers_create e) (container_start e) (stdout_stream e)
    (stdout_stream_end e) first stop second logs st (isfile_outputfile e)
    (container_remove e) (client_close e) (get_file_hash e)
    (rest_of_file_empty e) (file_tell e) (storage_save e) (storage_url e)
    (download_expires e).

(** An environment like [calm], but the capture is halted after the second
    line of output, as in the doctest of the task. *)
Definition interrupted : Env :=
  mkEnv 1000 (fun _ => 1005) 1010 "6f1c" (Done tt) (Done tt) (Done tt)
    ["status 1"; "status 2"] (Raises HaltCaptureException)
    (Exited (Some 0)) (Done tt) (Exited (Some 137)) (Done "") "exited"
    true (Done tt) (Done tt) (Done ("9a0b", "sha256")) true 2048
    (fun name => Done name)
    (fun name => Done ("https://storage/" ++ name ++ "?Expires=2000")%string)
    (fun _ => Done 2000).

End CaptureSpec.

(* ----------------------------------------------------------------- *)
(** ** The reaper: what it leaves alone *)

Module ReaperFrame.
Import Models.

(** The fields of a row the reaper never writes. *)
Definition untouched (j : CaptureJob)
  : nat * nat * bool * Z * string * option string * nat * string * option Z :=
  (id j, user_id j, human j, created_at j, requested_url j, validated_url j,
   step_count j, step_description j, capture_start_time j).

(** What a reader of the table sees of the verdict on a job. *)
Definition verdict (j : CaptureJob) : nat * Status * Message :=
  (id j, status j, message j).

End ReaperFrame.

(* ----------------------------------------------------------------- *)
(** ** The webhook dispatcher: the ledger of a chain of runs *)

Module WebhookLedger.
Import Models Webhook.

(** The seconds of back-off of the retries scheduled. *)
Definition total_countdown (l : list Scheduled) : Z :=
  fold_right Z.add 0 (map countdown l).

(** The log lines of the failed runs whose retry counters are
    [k], ..., [k + n - 1]. *)
Definition failures (subscription_id capture_job_id max_retries k n : nat)
  : list LogRecord :=
  map (fun i => DeliveryFailed subscription_id capture_job_id i max_retries)
    (seq k n).

End WebhookLedger.

(* ================================================================= *)
(** * Part III: theorems *)
(* ================================================================= *)

(* ----------------------------------------------------------------- *)
(** ** Facts about the table *)

Module ModelsFacts.
Import Models ModelsSpec.

Lemma status_eqb_eq a b : status_eqb a b = true <-> a = b.
Proof. destruct a, b; simpl; split; congruence. Qed.

Lemma wf_table_inj t j r :
  wf_table t -> In j t -> In r t -> id j = id r -> j = r.
Proof.
  unfold wf_table. induction t as [|x t IH]; simpl; [tauto|].
  intros Hnd Hj Hr Hid. inversion Hnd as [|? ? Hx Hnd']; subst.
  destruct Hj as [->|Hj], Hr as [->|Hr]; auto.
  - exfalso. apply Hx. rewrite Hid. now apply in_map.
  - exfalso. apply Hx. rewrite <- Hid. now apply in_map.
Qed.

Lemma get_in t j : wf_table t -> In j t -> get (id j) t = Some j.
Proof.
  intros Hwf Hin. unfold get.
  destruct (find (fun r => Nat.eqb (id r) (id j)) t) as [r|] eqn:E.
  - apply find_some in E. destruct E as [Hr Hid].
    apply Nat.eqb_eq in Hid. f_equal. eapply wf_table_inj; eauto.
  - exfalso. apply (find_none _ _ E) in Hin.
    now rewrite Nat.eqb_refl in Hin.
Qed.

Lemma map_id_rowwise (f : CaptureJob -> CaptureJob) t :
  (forall j, id (f j) = id j) -> map id (map f t) = map id t.
Proof.
  intros Hf. rewrite map_map. apply map_ext. exact Hf.
Qed.

End ModelsFacts.

(* ----------------------------------------------------------------- *)
(** ** The reaper *)

Module ReaperFacts.
Import Models Reaper ModelsFacts ModelsSpec ReaperSpec.

Lemma stale_mark_failed now now' msg j :
  stale now' (mark_failed now msg j) = false.
Proof. reflexivity. Qed.

Lemma id_reap_row now clock j : id (reap_row now clock j) = id j.
Proof. unfold reap_row. now destruct (stale now j). Qed.

(** Saving objects one after the other: each row ends as the last saved
    object that carries its key. *)
Lemma fold_save_rowwise (f : CaptureJob -> CaptureJob) l t :
  (forall j, id (f j) = id j) ->
  fold_left (fun acc j => save (f j) acc) l t =
  map (fun r => match find (fun j => Nat.eqb (id j) (id r)) (rev l) with
                | Some j => f j
                | None => r
                end) t.
Proof.
  intros Hf. revert t. induction l as [|x l IH] using rev_ind; intros t.
  - simpl. symmetry. apply map_id.
  - rewrite fold_left_app. simpl. rewrite IH. unfold save at 1.
    rewrite map_map. apply map_ext. intros r.
    rewrite rev_app_distr. simpl.
    destruct (find (fun j => Nat.eqb (id j) (id r)) (rev l)) as [y|] eqn:E.
    + rewrite !Hf. apply find_some in E. destruct E as [_ E].
      apply Nat.eqb_eq in E. rewrite E.
      destruct (Nat.eqb (id x) (id r)) eqn:Ex.
      * apply Nat.eqb_eq in Ex. rewrite <- Ex, Nat.eqb_refl. reflexivity.
      * rewrite Nat.eqb_sym, Ex. reflexivity.
    + rewrite Hf. rewrite (Nat.eqb_sym (id r) (id x)).
      now destruct (Nat.eqb (id x) (id r)).
Qed.

Lemma find_stale_row now t r :
  wf_table t -> In r t ->
  find (fun j => Nat.eqb (id j) (id r)) (rev (filter (stale now) t)) =
  if stale now r then Some r else None.
Proof.
  intros Hwf Hr.
  destruct (find _ _) as [y|] eqn:E.
  - apply find_some in E. destruct E as [Hy Hid].
    apply in_rev, filter_In in Hy. destruct Hy as [Hy Hs].
    apply Nat.eqb_eq in Hid.
    assert (y = r) by (eapply wf_table_inj; eauto). subst y.
    now rewrite Hs.
  - destruct (stale now r) eqn:Hs; [|reflexivity].
    exfalso.
    assert (Hin : In r (rev (filter (stale now) t))).
    { apply in_rev. rewrite rev_involutive. apply filter_In. auto. }
    apply (find_none _ _ E) in Hin. now rewrite Nat.eqb_refl in Hin.
Qed.

(** On a table with unique keys the reaper acts row by row. *)
Lemma clean_up_rowwise now clock t :
  wf_table t ->
  clean_up_failed_captures now clock t = map (reap_row now clock) t.
Proof.
  intros Hwf. unfold clean_up_failed_captures.
  change (reap_one clock)
    with (fun acc j =>
            save ((fun j => mark_failed (clock j) "Timed out." j) j) acc).
  rewrite (fold_save_rowwise (fun j => mark_failed (clock j) "Timed out." j))
    by reflexivity.
  apply map_ext_in. intros r Hr.
  rewrite find_stale_row by assumption.
  unfold reap_row. now destruct (stale now r).
Qed.

Lemma wf_clean_up now clock t :
  wf_table t -> wf_table (clean_up_failed_captures now clock t).
Proof.
  intros Hwf. rewrite clean_up_rowwise by assumption.
  unfold wf_table. rewrite map_id_rowwise; [assumption|].
  apply id_reap_row.
Qed.

Lemma reap_row_idem now now' clock clock' j :
  stale now j = true ->
  reap_row now' clock' (reap_row now clock j) = reap_row now clock j.
Proof.
  intros Hs. unfold reap_row at 2 3. rewrite Hs.
  unfold reap_row. now rewrite stale_mark_failed.
Qed.

Lemma wf_sample_table : wf_table sample_table.
Proof.
  unfold wf_table, sample_table. simpl.
  repeat constructor; simpl; intuition discriminate.
Defined.

(** C5.  The reaper is exact and idempotent.  On a table with unique keys,
    reaping at database time [now], whatever the clock of [mark_failed]
    shows:
    - leaves an in-progress job whose start time is within the hard time
      limit as it is, and leaves the whole table as it is when no job is
      in progress past the limit;
    - turns an in-progress job started before [now - CELERY_TASK_TIME_LIMIT]
      into a Failed job whose message is exactly one "Timed out.";
    - never touches a job in another status;
    - changes nothing when applied a second time (reap o reap = reap), and
      a later reap at any time leaves a reaped job as the first reap left
      it. *)
Theorem reap_exact_idempotent (now : Z) (clock : CaptureJob -> Z) (t : Table)
    (Hwf : wf_table t) :
  (forall j s, In j t -> status j = IN_PROGRESS ->
     capture_start_time j = Some s ->
     now - Settings.CELERY_TASK_TIME_LIMIT <= s ->
     get (id j) (clean_up_failed_captures now clock t) = Some j) /\
  ((forall j, In j t -> stale now j = false) ->
     clean_up_failed_captures now clock t = t) /\
  (forall j s, In j t -> status j = IN_PROGRESS ->
     capture_start_time j = Some s ->
     s < now - Settings.CELERY_TASK_TIME_LIMIT ->
     exists j', get (id j) (clean_up_failed_captures now clock t) = Some j' /\
       j' = mark_failed (clock j) "Timed out." j /\
       status j' = FAILED /\
       message j' = [(Settings.NON_FIELD_ERRORS_KEY, ["Timed out."])]) /\
  (forall j, In j t -> status j <> IN_PROGRESS ->
     get (id j) (clean_up_failed_captures now clock t) = Some j) /\
  (forall clock',
     clean_up_failed_captures now clock'
       (clean_up_failed_captures now clock t) =
     clean_up_failed_captures now clock t) /\
  (forall now' clock' j, In j t -> stale now j = true ->
     get (id j) (clean_up_failed_captures now' clock'
                   (clean_up_failed_captures now clock t)) =
     get (id j) (clean_up_failed_captures now clock t)).
Proof.
  pose proof (wf_clean_up now clock t Hwf) as Hwf1.
  assert (Hrow : forall j, In j t ->
            get (id j) (clean_up_failed_captures now clock t) =
            Some (reap_row now clock j)).
  { intros j Hj. rewrite <- (id_reap_row now clock j).
    apply get_in; [assumption|].
    rewrite clean_up_rowwise by assumption. now apply in_map. }
  repeat split.
  - intros j s Hj Hst Hs Hle. rewrite Hrow by assumption.
    unfold reap_row, stale, timed_out. rewrite Hs.
    replace (s <? now - Settings.CELERY_TASK_TIME_LIMIT) with false
      by (symmetry; apply Z.ltb_ge; lia).
    now rewrite andb_false_r.
  - intros Hnone. rewrite clean_up_rowwise by assumption.
    rewrite <- (map_id t) at 2. apply map_ext_in.
    intros j Hj. unfold reap_row. now rewrite Hnone.
  - intros j s Hj Hst Hs Hlt. exists (mark_failed (clock j) "Timed out." j).
    rewrite Hrow by assumption. unfold reap_row, stale, timed_out.
    rewrite Hst, Hs. simpl.
    replace (s <? now - Settings.CELERY_TASK_TIME_LIMIT) with true
      by (symmetry; apply Z.ltb_lt; lia).
    repeat split.
  - intros j Hj Hst. rewrite Hrow by assumption.
    unfold reap_row, stale.
    destruct (status_eqb (status j) IN_PROGRESS) eqn:E; [|reflexivity].
    apply status_eqb_eq in E. contradiction.
  - intros clock'. rewrite (clean_up_rowwise now clock' _ Hwf1).
    rewrite (clean_up_rowwise now clock _ Hwf). rewrite map_map.
    apply map_ext. intros j. unfold reap_row at 2 3.
    destruct (stale now j) eqn:E.
    + unfold reap_row. now rewrite stale_mark_failed.
    + unfold reap_row. now rewrite E.
  - intros now' clock' j Hj Hs. rewrite Hrow by assumption.
    rewrite <- (reap_row_idem now now' clock clock' j Hs).
    rewrite <- (id_reap_row now clock j).
    rewrite <- (id_reap_row now' clock' (reap_row now clock j)).
    apply get_in; [now apply wf_clean_up|].
    rewrite (clean_up_rowwise now' clock' _ Hwf1). apply in_map.
    rewrite clean_up_rowwise by assumption. now apply in_map.
Qed.

(** The theorem at [sample_table], reaped at time 1000. *)
Lemma reap_exact_idempotent_witness :
  wf_table sample_table /\
  clean_up_failed_captures 1000 (fun _ => 1005)
    (clean_up_failed_captures 1000 (fun _ => 1001) sample_table) =
    clean_up_failed_captures 1000 (fun _ => 1001) sample_table.
Proof.
  split; [exact wf_sample_table|].
  exact (proj1 (proj2 (proj2 (proj2 (proj2
           (reap_exact_idempotent 1000 (fun _ => 1001) sample_table
              wf_sample_table))))) (fun _ => 1005)).
Defined.

(** test_hard_timeout, on the model: a job reserved at time 1000 survives a
    reap at time 1050 and is failed by a reap more than 420 seconds later. *)
Example test_hard_timeout :
  let job := sample_job 7 IN_PROGRESS (Some 1000) in
  let clock := fun _ : CaptureJob => 1500 in
  clean_up_failed_captures 1050 clock [job] = [job] /\
  option_map status (get 7 (clean_up_failed_captures 1500 clock [job])) =
    Some FAILED /\
  option_map message (get 7 (clean_up_failed_captures 1500 clock [job])) =
    Some [("error", ["Timed out."])].
Proof. repeat split. Qed.

End ReaperFacts.

(* ----------------------------------------------------------------- *)
(** ** The signing helpers *)

Module UtilsFacts.
Import Utils UrlSpec.
Local Open Scope string_scope.

Lemma compare_chars_refl a : forall acc, compare_chars a a acc = acc.
Proof.
  induction a as [|x a IH]; intros acc; simpl; [reflexivity|].
  rewrite IH, Ascii.eqb_refl. apply andb_true_r.
Qed.

Lemma compare_chars_false a : forall b, compare_chars a b false = false.
Proof.
  induction a as [|x a IH]; intros [|y b]; simpl; auto.
Qed.

(** [compare_digest] decides equality of the two strings. *)
Lemma compare_digest_eq a : forall b, compare_digest a b = true <-> a = b.
Proof.
  unfold compare_digest.
  induction a as [|x a IH]; intros [|y b]; simpl; split; try congruence.
  - destruct (Ascii.eqb_spec x y) as [->|Hne]; simpl.
    + intros H. f_equal. now apply IH.
    + now rewrite compare_chars_false.
  - intros [= -> ->]. rewrite Ascii.eqb_refl. apply compare_chars_refl.
Qed.

(** *** The URL validator *)

(** *** Strings *)

Lemma append_nil_r (s : string) : s ++ "" = s.
Proof. induction s as [|c s IH]; simpl; [reflexivity|now rewrite IH]. Qed.

Lemma append_assoc (a b c : string) : (a ++ b) ++ c = a ++ b ++ c.
Proof. induction a as [|x a IH]; simpl; [reflexivity|now rewrite IH]. Qed.

Lemma all_app p (a b : string) : all p (a ++ b) = all p a && all p b.
Proof.
  unfold all. induction a as [|x a IH]; simpl; [reflexivity|].
  now rewrite IH, andb_assoc.
Qed.

Lemma all_impl (p q : ascii -> bool) s :
  (forall c, p c = true -> q c = true) -> all p s = true -> all q s = true.
Proof.
  intros Hpq. unfold all. induction s as [|x s IH]; simpl; [reflexivity|].
  intros H. apply andb_true_iff in H. destruct H as [H1 H2].
  now rewrite (Hpq x H1), IH.
Qed.

(** A character class that leaves [d] out holds of no string with [d]. *)
Lemma all_without (p : ascii -> bool) d s :
  p d = false -> all p s = true ->
  all (fun c => negb (Ascii.eqb c d)) s = true.
Proof.
  intros Hd. apply all_impl. intros c Hc.
  destruct (Ascii.eqb_spec c d) as [->|_]; [congruence|reflexivity].
Qed.

Lemma drop_prefix_sound p : forall s r, drop_prefix p s = Some r -> s = p ++ r.
Proof.
  induction p as [|a p IH]; intros [|b s] r; simpl; try congruence.
  destruct (Ascii.eqb_spec a b) as [->|_]; [|discriminate].
  intros H. now rewrite (IH _ _ H).
Qed.

Lemma drop_prefix_app p r : drop_prefix p (p ++ r) = Some r.
Proof.
  induction p as [|a p IH]; simpl; [now destruct r|].
  now rewrite Ascii.eqb_refl.
Qed.

Lemma drop_any_sound ps s r :
  drop_any ps s = Some r -> exists p, In p ps /\ s = p ++ r.
Proof.
  induction ps as [|p ps IH]; simpl; [discriminate|].
  destruct (drop_prefix p s) as [r'|] eqn:E.
  - intros [= <-]. exists p. split; [now left|now apply drop_prefix_sound].
  - intros H. destruct (IH H) as (q & Hq & Hs). exists q. auto.
Qed.

Lemma drop_any_app ps p r :
  In p ps -> drop_any ps (p ++ r) <> None.
Proof.
  induction ps as [|q ps IH]; simpl; [contradiction|].
  intros [->|Hin].
  - now rewrite drop_prefix_app.
  - destruct (drop_prefix q (p ++ r)); [discriminate|now apply IH].
Qed.

(** *** White space and control characters *)

Lemma white_space_nonempty p : In p white_space -> p <> "".
Proof.
  intros H ->. revert H.
  assert (E : existsb (String.eqb "") white_space = false) by reflexivity.
  intros H. apply not_true_iff_false in E. apply E.
  apply existsb_exists. exists "". split; [exact H|reflexivity].
Qed.

Lemma has_space_cons c s :
  has_space (String c s) =
    match drop_any white_space (String c s) with
    | Some _ => true
    | None => has_space s
    end.
Proof. reflexivity. Qed.

Lemma has_space_iff s : has_space s = true <-> contains white_space s.
Proof.
  split.
  - induction s as [|c s IH]; [discriminate|].
    rewrite has_space_cons.
    destruct (drop_any white_space (String c s)) as [r|] eqn:E.
    + intros _. apply drop_any_sound in E. destruct E as (p & Hp & Hs).
      exists "", p, r. auto.
    + intros H. destruct (IH H) as (a & p & b & Hp & ->).
      exists (String c a), p, b. auto.
  - intros (a & p & b & Hp & ->).
    induction a as [|c a IH].
    + change ("" ++ p ++ b) with (p ++ b).
      pose proof (white_space_nonempty p Hp) as Hne.
      pose proof (drop_any_app white_space p b Hp) as Hd.
      destruct p as [|x p]; [congruence|].
      change (String x p ++ b) with (String x (p ++ b)) in *.
      rewrite has_space_cons.
      now destruct (drop_any white_space (String x (p ++ b))).
    + change (String c a ++ p ++ b) with (String c (a ++ p ++ b)).
      rewrite has_space_cons.
      now destruct (drop_any white_space (String c (a ++ p ++ b))).
Qed.

Lemma has_control_cons c s :
  has_control (String c s) = control_first (String c s) || has_control s.
Proof. reflexivity. Qed.

Lemma has_control_iff u : has_control u = true <-> Control u.
Proof.
  split.
  - induction u as [|c u IH]; [discriminate|].
    rewrite has_control_cons.
    destruct (control_first (String c u)) eqn:E.
    + intros _. exists "", (String c u). auto.
    + intros H. destruct (IH H) as (a & b & -> & Hb).
      exists (String c a), b. auto.
  - intros (a & b & -> & Hb).
    induction a as [|c a IH].
    + destruct b as [|x b]; [discriminate|].
      change ("" ++ String x b) with (String x b).
      rewrite has_control_cons, Hb. reflexivity.
    + change (String c a ++ b) with (String c (a ++ b)).
      rewrite has_control_cons, IH. apply orb_true_r.
Qed.

(** *** Splitting *)

Lemma split_on_sound d : forall s a b,
  split_on d s = Some (a, b) ->
  s = a ++ String d b /\ all (fun c => negb (Ascii.eqb c d)) a = true.
Proof.
  induction s as [|c s IH]; intros a b; simpl; [discriminate|].
  destruct (Ascii.eqb_spec c d) as [->|Hne].
  - intros [= <- <-]. auto.
  - destruct (split_on d s) as [[a' b']|]; [|discriminate].
    intros [= <- <-]. destruct (IH a' b' eq_refl) as [-> Ha].
    split; [reflexivity|]. unfold all in *. simpl.
    rewrite Ha. apply Ascii.eqb_neq in Hne. now rewrite Hne.
Qed.

Lemma split_on_app d a b :
  all (fun c => negb (Ascii.eqb c d)) a = true ->
  split_on d (a ++ String d b) = Some (a, b).
Proof.
  unfold all. induction a as [|c a IH]; simpl.
  - now rewrite Ascii.eqb_refl.
  - intros H. apply andb_true_iff in H. destruct H as [H1 H2].
    apply negb_true_iff in H1. now rewrite H1, IH.
Qed.

Lemma split_on_none d s :
  all (fun c => negb (Ascii.eqb c d)) s = true -> split_on d s = None.
Proof.
  unfold all. induction s as [|c s IH]; simpl; [reflexivity|].
  intros H. apply andb_true_iff in H. destruct H as [H1 H2].
  apply negb_true_iff in H1. now rewrite H1, IH.
Qed.

Lemma span_sound p : forall s a b,
  span p s = (a, b) ->
  s = a ++ b /\ all p a = true /\
  (b = "" \/ exists c b', b = String c b' /\ p c = false).
Proof.
  induction s as [|c s IH]; intros a b; simpl.
  - intros [= <- <-]. auto.
  - destruct (p c) eqn:E.
    + destruct (span p s) as [a' b']. intros [= <- <-].
      destruct (IH a' b' eq_refl) as (-> & Ha & Hb).
      split; [reflexivity|]. split; [|exact Hb].
      unfold all in *. simpl. now rewrite E, Ha.
    + intros [= <- <-]. split; [reflexivity|]. split; [reflexivity|].
      right. eauto.
Qed.

Lemma span_app p a b :
  all p a = true ->
  (b = "" \/ exists c b', b = String c b' /\ p c = false) ->
  span p (a ++ b) = (a, b).
Proof.
  unfold all. induction a as [|c a IH]; simpl; intros Ha Hb.
  - destruct Hb as [->|(c & b' & -> & Hc)]; simpl; [reflexivity|].
    now rewrite Hc.
  - apply andb_true_iff in Ha. destruct Ha as [H1 H2].
    now rewrite H1, (IH H2 Hb).
Qed.

Lemma split_all_nonempty d s : split_all d s <> [].
Proof.
  destruct s as [|c s]; simpl; [discriminate|].
  destruct (Ascii.eqb c d); [discriminate|].
  destruct (split_all d s); discriminate.
Qed.

Lemma concat_cons sep x y l :
  String.concat sep (x :: y :: l) = x ++ sep ++ String.concat sep (y :: l).
Proof. reflexivity. Qed.

Lemma concat_split_all d s :
  String.concat (String d "") (split_all d s) = s.
Proof.
  induction s as [|c s IH]; [reflexivity|].
  pose proof (split_all_nonempty d s) as Hne.
  simpl split_all. destruct (Ascii.eqb_spec c d) as [->|_].
  - destruct (split_all d s) as [|y l]; [congruence|].
    rewrite concat_cons, IH. reflexivity.
  - destruct (split_all d s) as [|y l]; [congruence|].
    destruct l as [|z l].
    + simpl in *. now rewrite IH.
    + rewrite concat_cons in IH. rewrite concat_cons.
      change (String c y ++ String d "" ++ String.concat (String d "") (z :: l))
        with (String c (y ++ String d "" ++ String.concat (String d "") (z :: l))).
      now rewrite IH.
Qed.

Lemma split_all_none d s :
  all (fun c => negb (Ascii.eqb c d)) s = true -> split_all d s = [s].
Proof.
  unfold all. induction s as [|c s IH]; simpl; [reflexivity|].
  intros H. apply andb_true_iff in H. destruct H as [H1 H2].
  apply negb_true_iff in H1. now rewrite H1, IH.
Qed.

Lemma split_all_app d a b :
  all (fun c => negb (Ascii.eqb c d)) a = true ->
  split_all d (a ++ String d b) = a :: split_all d b.
Proof.
  unfold all. induction a as [|c a IH]; simpl.
  - now rewrite Ascii.eqb_refl.
  - intros H. apply andb_true_iff in H. destruct H as [H1 H2].
    apply negb_true_iff in H1. now rewrite H1, IH.
Qed.

Lemma split_all_concat d labels :
  labels <> [] ->
  forallb (all (fun c => negb (Ascii.eqb c d))) labels = true ->
  split_all d (String.concat (String d "") labels) = labels.
Proof.
  induction labels as [|l ls IH]; [congruence|]. intros _ H.
  simpl in H. apply andb_true_iff in H. destruct H as [H1 H2].
  destruct ls as [|y ls].
  - simpl. now apply split_all_none.
  - rewrite concat_cons.
    change (String d "" ++ String.concat (String d "") (y :: ls))
      with (String d (String.concat (String d "") (y :: ls))).
    rewrite split_all_app by assumption.
    rewrite IH; [reflexivity|discriminate|assumption].
Qed.

(** *** Trimming *)

Lemma list_of_append (a b : string) :
  list_ascii_of_string (a ++ b) =
    (list_ascii_of_string a ++ list_ascii_of_string b)%list.
Proof. induction a as [|c a IH]; simpl; [reflexivity|now rewrite IH]. Qed.

Lemma string_of_app (l1 l2 : list ascii) :
  string_of_list_ascii (l1 ++ l2)%list =
    string_of_list_ascii l1 ++ string_of_list_ascii l2.
Proof. induction l1 as [|c l IH]; simpl; [reflexivity|now rewrite IH]. Qed.

Lemma reverse_app a b : reverse (a ++ b) = reverse b ++ reverse a.
Proof.
  unfold reverse. now rewrite list_of_append, rev_app_distr, string_of_app.
Qed.

Lemma reverse_involutive s : reverse (reverse s) = s.
Proof.
  unfold reverse.
  now rewrite list_ascii_of_string_of_list_ascii, rev_involutive,
    string_of_list_ascii_of_string.
Qed.

Lemma length_string_of l :
  String.length (string_of_list_ascii l) = List.length l.
Proof. induction l as [|c l IH]; simpl; [reflexivity|now rewrite IH]. Qed.

Lemma length_list_of s :
  List.length (list_ascii_of_string s) = String.length s.
Proof. induction s as [|c s IH]; simpl; [reflexivity|now rewrite IH]. Qed.

Lemma length_reverse s : String.length (reverse s) = String.length s.
Proof.
  unfold reverse. now rewrite length_string_of, length_rev, length_list_of.
Qed.

Lemma length_append (a b : string) :
  String.length (a ++ b) = (String.length a + String.length b)%nat.
Proof. induction a as [|c a IH]; simpl; [reflexivity|now rewrite IH]. Qed.

Lemma run_of_app ps a b : run_of ps a -> run_of ps b -> run_of ps (a ++ b).
Proof.
  induction 1 as [|p s Hp Hs IH]; intros Hb; [exact Hb|].
  rewrite append_assoc. constructor; auto.
Qed.

Lemma run_of_reverse a :
  run_of (map reverse white_space) a -> blank (reverse a).
Proof.
  intros H. unfold blank.
  induction H as [|p s Hp Hs IH]; [constructor|].
  rewrite reverse_app. apply run_of_app; [exact IH|].
  apply in_map_iff in Hp. destruct Hp as (q & <- & Hq).
  rewrite reverse_involutive. rewrite <- (append_nil_r q).
  constructor; [exact Hq|constructor].
Qed.

(** What [strip_front] takes off is a run of the characters. *)
Lemma strip_front_run ps n : forall s,
  exists a, s = a ++ strip_front n ps s /\ run_of ps a.
Proof.
  induction n as [|n IH]; intros s; simpl.
  - exists "". split; [reflexivity|constructor].
  - destruct (drop_any ps s) as [r|] eqn:E.
    + apply drop_any_sound in E. destruct E as (p & Hp & ->).
      destruct (IH r) as (a & Hr & Ha).
      exists (p ++ a). split; [|now constructor].
      rewrite append_assoc. now rewrite <- Hr.
    + exists "". split; [reflexivity|constructor].
Qed.

Lemma drop_any_none ps s :
  drop_any ps s = None <-> forall p r, In p ps -> s <> p ++ r.
Proof.
  split.
  - intros H p r Hp ->. now apply (drop_any_app ps p r Hp).
  - intros H. destruct (drop_any ps s) as [r|] eqn:E; [|reflexivity].
    apply drop_any_sound in E. destruct E as (p & Hp & Hs).
    now apply H in Hs.
Qed.

(** With the length of the string as fuel, [strip_front] stops only when
    no character is left to drop. *)
Lemma strip_front_done ps :
  (forall p, In p ps -> p <> "") ->
  forall n s, (String.length s <= n)%nat ->
  drop_any ps (strip_front n ps s) = None.
Proof.
  intros Hne. induction n as [|n IH]; intros s Hn; simpl.
  - destruct s; [|simpl in Hn; lia].
    apply drop_any_none. intros p r Hp H.
    apply (Hne p Hp). destruct p; [reflexivity|discriminate].
  - destruct (drop_any ps s) as [r|] eqn:E; [|exact E].
    apply IH. apply drop_any_sound in E. destruct E as (p & Hp & ->).
    rewrite length_append in Hn.
    pose proof (Hne p Hp) as Hp0. destruct p; [congruence|]. simpl in Hn. lia.
Qed.

Lemma reversed_nonempty p : In p (map reverse white_space) -> p <> "".
Proof.
  intros H. apply in_map_iff in H. destruct H as (q & <- & Hq).
  apply white_space_nonempty in Hq. intros E. apply Hq.
  rewrite <- (reverse_involutive q), E. reflexivity.
Qed.

(** [str.strip()] takes a run of white space off each end, and leaves a
    string that neither starts nor ends with white space. *)
Lemma strip_trims u :
  exists a b, u = a ++ strip u ++ b /\ blank a /\ blank b /\ trimmed (strip u).
Proof.
  unfold strip, rstrip, lstrip.
  destruct (strip_front_run white_space (String.length u) u) as (a & Hu & Ha).
  set (x := strip_front (String.length u) white_space u) in *.
  destruct (strip_front_run (map reverse white_space) (String.length x)
              (reverse x)) as (b & Hx & Hb).
  set (y := strip_front (String.length x) (map reverse white_space)
              (reverse x)) in *.
  assert (Ex : x = reverse y ++ reverse b).
  { rewrite <- reverse_app, <- Hx. symmetry. apply reverse_involutive. }
  exists a, (reverse b). split; [now rewrite <- Ex|].
  split; [exact Ha|]. split; [now apply run_of_reverse|].
  intros p r Hp. split.
  - intros E.
    assert (Hd : drop_any white_space x = None).
    { apply strip_front_done; [apply white_space_nonempty|]. unfold x. lia. }
    rewrite drop_any_none in Hd. apply (Hd p (r ++ reverse b) Hp).
    now rewrite Ex, E, append_assoc.
  - intros E.
    assert (Hd : drop_any (map reverse white_space) y = None).
    { apply strip_front_done; [apply reversed_nonempty|].
      rewrite length_reverse. lia. }
    rewrite drop_any_none in Hd.
    apply (Hd (reverse p) (reverse r)); [now apply in_map|].
    rewrite <- reverse_app, <- E. symmetry. apply reverse_involutive.
Qed.

(** *** The scheme *)

Ltac char_class H :=
  repeat match goal with
         | |- context [Ascii.eqb ?c ?d] =>
           destruct (Ascii.eqb_spec c d) as [->|_];
           [vm_compute in H; discriminate|]
         end.

Lemma scheme_name_chars name :
  scheme_name name = true -> all scheme_char name = true.
Proof.
  destruct name as [|c s]; [discriminate|]. unfold scheme_name.
  intros H. apply andb_true_iff in H. tauto.
Qed.

Lemma scheme_of_iff s name rest :
  scheme_of s = Some (name, rest) <-> Scheme s name rest.
Proof.
  unfold scheme_of, Scheme. split.
  - destruct (split_on ":" s) as [[n r]|] eqn:E; [|discriminate].
    destruct (scheme_name n && negb (port_first r)) eqn:B; [|discriminate].
    intros [= <- <-]. apply split_on_sound in E. destruct E as [-> _].
    apply andb_true_iff in B. destruct B as [B1 B2].
    apply negb_true_iff in B2. auto.
  - intros (-> & Hn & Hp).
    change (name ++ ":" ++ rest) with (name ++ String ":" rest).
    rewrite split_on_app.
    + now rewrite Hn, Hp.
    + apply all_without with (p := scheme_char); [reflexivity|].
      now apply scheme_name_chars.
Qed.

Lemma with_scheme_omitted s :
  (forall name rest, ~ Scheme s name rest) -> with_scheme s = "http://" ++ s.
Proof.
  intros H. unfold with_scheme.
  destruct (scheme_of s) as [[name rest]|] eqn:E; [|reflexivity].
  apply scheme_of_iff in E. now apply H in E.
Qed.

Lemma with_scheme_written s name rest :
  Scheme s name rest -> with_scheme s = s.
Proof.
  intros H. apply scheme_of_iff in H. unfold with_scheme. now rewrite H.
Qed.

Lemma lower_letter c :
  is_lower (if is_upper c then ascii_of_nat (nat_of_ascii c + 32) else c) = true ->
  is_alpha c = true.
Proof.
  unfold is_alpha. destruct (is_upper c); [reflexivity|]. now intros ->.
Qed.

Lemma lower_letters s : all is_lower (lower s) = true -> all is_alpha s = true.
Proof.
  unfold all. induction s as [|c s IH]; simpl; [reflexivity|].
  intros H. apply andb_true_iff in H. destruct H as [H1 H2].
  now rewrite (lower_letter c H1), IH.
Qed.

Lemma http_scheme_iff name :
  http_scheme name = true <-> lower name = "http" \/ lower name = "https".
Proof.
  unfold http_scheme. rewrite orb_true_iff, !String.eqb_eq. tauto.
Qed.

Lemma http_scheme_name name :
  lower name = "http" \/ lower name = "https" -> scheme_name name = true.
Proof.
  intros H.
  assert (Hl : all is_lower (lower name) = true)
    by (destruct H as [-> | ->]; reflexivity).
  apply lower_letters in Hl.
  destruct name as [|c s]; [destruct H; discriminate|].
  unfold scheme_name. apply andb_true_iff. split.
  - unfold all in Hl. simpl in Hl. apply andb_true_iff in Hl. tauto.
  - revert Hl. apply all_impl. intros x Hx. unfold scheme_char. now rewrite Hx.
Qed.

(** *** The authority *)

Lemma label_chars l : well_formed_label l = true -> all label_char l = true.
Proof.
  unfold well_formed_label. rewrite !andb_true_iff. tauto.
Qed.

Lemma labels_chars labels :
  forallb well_formed_label labels = true ->
  forallb (all label_char) labels = true.
Proof.
  induction labels as [|l ls IH]; simpl; [reflexivity|].
  intros H. apply andb_true_iff in H. destruct H as [H1 H2].
  now rewrite (label_chars l H1), IH.
Qed.

Lemma labels_of labels :
  well_formed_labels labels = true ->
  labels <> [] /\ forallb (all label_char) labels = true.
Proof.
  unfold well_formed_labels. rewrite !andb_true_iff.
  intros [[H1 H2] _]. split; [|now apply labels_chars].
  intros ->. discriminate.
Qed.

Lemma concat_chars labels :
  forallb (all label_char) labels = true ->
  all host_char (String.concat "." labels) = true.
Proof.
  assert (Hl : forall l, all label_char l = true -> all host_char l = true).
  { intros l. apply all_impl. intros c Hc. unfold host_char. now rewrite Hc. }
  induction labels as [|l ls IH]; [reflexivity|].
  simpl forallb. intros H. apply andb_true_iff in H. destruct H as [H1 H2].
  destruct ls as [|y ls]; [now apply Hl|].
  rewrite concat_cons, !all_app, (Hl l H1), (IH H2). reflexivity.
Qed.

Lemma host_chars h : Host h -> all host_char h = true.
Proof.
  intros (labels & -> & H). apply concat_chars. now apply labels_of.
Qed.

Lemma numeric_digits p : numeric p = true -> all is_digit p = true.
Proof. unfold numeric. rewrite andb_true_iff. tauto. Qed.

Lemma port_chars p : well_formed_port p = true -> all hostport_char p = true.
Proof.
  unfold well_formed_port. rewrite !andb_true_iff. intros [[H _] _].
  apply numeric_digits in H. revert H. apply all_impl.
  intros c Hc. unfold hostport_char, host_char, label_char.
  now rewrite Hc, !orb_true_r.
Qed.

Lemma hostport_chars hp : HostPort hp -> all hostport_char hp = true.
Proof.
  assert (Hh : forall h, Host h -> all hostport_char h = true).
  { intros h H. apply host_chars in H. revert H. apply all_impl.
    intros c Hc. unfold hostport_char. now rewrite Hc. }
  intros [H|(h & p & -> & H & Hp)]; [now apply Hh|].
  rewrite !all_app, (Hh h H), (port_chars p Hp). reflexivity.
Qed.

Lemma authority_chars a : Authority a -> all authority_char a = true.
Proof.
  assert (Hh : forall h, HostPort h -> all authority_char h = true).
  { intros h H. apply hostport_chars in H. revert H. apply all_impl.
    intros c Hc. unfold authority_char. now rewrite Hc. }
  intros [H|(u & hp & -> & Hu & H)]; [now apply Hh|].
  rewrite !all_app, (Hh hp H).
  unfold well_formed_userinfo in Hu. apply andb_true_iff in Hu.
  destruct Hu as [_ Hu].
  rewrite (all_impl userinfo_char authority_char u); [reflexivity| |exact Hu].
  intros c Hc. unfold authority_char. now rewrite Hc, orb_true_r.
Qed.

Lemma host_iff h : well_formed_host h = true <-> Host h.
Proof.
  unfold well_formed_host, Host. split.
  - intros H. exists (split_all "." h). split; [|exact H].
    symmetry. apply concat_split_all.
  - intros (labels & -> & H). destruct (labels_of labels H) as [Hne Hc].
    rewrite split_all_concat; [exact H|exact Hne|].
    clear H Hne. induction labels as [|l ls IH]; [reflexivity|].
    simpl in *. apply andb_true_iff in Hc. destruct Hc as [H1 H2].
    rewrite (IH H2), andb_true_r.
    now apply all_without with (p := label_char).
Qed.

Lemma hostport_iff hp : well_formed_hostport hp = true <-> HostPort hp.
Proof.
  unfold well_formed_hostport, HostPort. split.
  - destruct (split_on ":" hp) as [[h p]|] eqn:E.
    + apply split_on_sound in E. destruct E as [-> _].
      rewrite andb_true_iff, host_iff. intros [H1 H2].
      right. exists h, p. auto.
    + rewrite host_iff. auto.
  - intros [H|(h & p & -> & H & Hp)].
    + rewrite split_on_none; [now apply host_iff|].
      apply all_without with (p := host_char); [reflexivity|].
      now apply host_chars.
    + change (h ++ ":" ++ p) with (h ++ String ":" p).
      rewrite split_on_app.
      * apply host_iff in H. now rewrite H, Hp.
      * apply all_without with (p := host_char); [reflexivity|].
        now apply host_chars.
Qed.

Lemma authority_iff a : well_formed_authority a = true <-> Authority a.
Proof.
  unfold well_formed_authority, Authority. split.
  - destruct (split_on "@" a) as [[u hp]|] eqn:E.
    + apply split_on_sound in E. destruct E as [-> _].
      rewrite andb_true_iff, hostport_iff. intros [H1 H2].
      right. exists u, hp. auto.
    + rewrite hostport_iff. auto.
  - intros [H|(u & hp & -> & Hu & H)].
    + rewrite split_on_none; [now apply hostport_iff|].
      apply all_without with (p := hostport_char); [reflexivity|].
      now apply hostport_chars.
    + change (u ++ "@" ++ hp) with (u ++ String "@" hp).
      rewrite split_on_app.
      * apply hostport_iff in H. now rewrite H, Hu.
      * apply all_without with (p := userinfo_char); [reflexivity|].
        unfold well_formed_userinfo in Hu. apply andb_true_iff in Hu. tauto.
Qed.

Lemma authority_no_delimiter a :
  Authority a -> all (fun c => negb (is_delimiter c)) a = true.
Proof.
  intros H. apply authority_chars in H. revert H. apply all_impl.
  intros c Hc. unfold is_delimiter, one_of. simpl.
  char_class Hc. reflexivity.
Qed.

(** *** The URL *)

(** The recognizer accepts the http and https URLs of the grammar, and
    nothing else. *)
Lemma well_formed_url_iff v : well_formed_url v = true <-> HttpUrl v.
Proof.
  unfold well_formed_url, HttpUrl. split.
  - rewrite andb_true_iff. intros [Hs H]. split.
    { intros Hc. apply has_space_iff in Hc. rewrite Hc in Hs. discriminate. }
    destruct (scheme_of v) as [[name rest]|] eqn:E; [|discriminate].
    apply scheme_of_iff in E. destruct E as (-> & _ & _).
    apply andb_true_iff in H. destruct H as [Hn H].
    destruct (drop_prefix "//" rest) as [r|] eqn:Er; [|discriminate].
    apply drop_prefix_sound in Er. subst rest.
    destruct (span (fun c => negb (is_delimiter c)) r) as [a t] eqn:Es.
    apply span_sound in Es. destruct Es as (-> & _ & Ht).
    exists name, a, t. split; [reflexivity|].
    split; [now apply http_scheme_iff|].
    split; [now apply authority_iff|].
    destruct Ht as [->|(c & t' & -> & Hc)]; [now left|right].
    exists c, t'. split; [reflexivity|]. now apply negb_false_iff in Hc.
  - intros (Hs & name & a & t & -> & Hn & Ha & Ht).
    destruct (has_space (name ++ "://" ++ a ++ t)) eqn:E.
    { apply has_space_iff in E. contradiction. }
    assert (Hsch : scheme_of (name ++ "://" ++ a ++ t) =
                   Some (name, "//" ++ a ++ t)).
    { apply scheme_of_iff. split; [reflexivity|].
      split; [now apply http_scheme_name|reflexivity]. }
    rewrite Hsch. apply http_scheme_iff in Hn. rewrite Hn.
    change (drop_prefix "//" ("//" ++ a ++ t)) with (Some (a ++ t)).
    cbv beta iota delta [andb]. rewrite span_app.
    + now apply authority_iff.
    + now apply authority_no_delimiter.
    + destruct Ht as [->|(c & t' & -> & Hc)]; [now left|right].
      exists c, t'. now rewrite Hc.
Qed.

Lemma other_scheme_malformed u : OtherScheme u -> Malformed u.
Proof.
  intros (name & rest & Hs & H1 & H2) Hu.
  rewrite (with_scheme_written _ _ _ Hs) in Hu.
  apply well_formed_url_iff in Hu. unfold well_formed_url in Hu.
  apply scheme_of_iff in Hs. rewrite Hs in Hu.
  rewrite !andb_true_iff in Hu. destruct Hu as [_ [Hn _]].
  apply http_scheme_iff in Hn. tauto.
Qed.

(** *** The validator *)

Lemma validate_messages u m : validate_and_clean_url u = inl m -> m <> [].
Proof.
  unfold validate_and_clean_url.
  destruct (has_control u); [intros [= <-]; discriminate|].
  destruct (String.eqb (strip u) ""); [intros [= <-]; discriminate|].
  destruct (well_formed_url (with_scheme (strip u)));
    [discriminate|intros [= <-]; discriminate].
Qed.

(** The validator accepts a URL exactly when it has no control character,
    is not empty once trimmed, and is, trimmed and with its scheme written,
    an http or https URL; that is the URL it gives back. *)
Lemma validator_accepts u v :
  validate_and_clean_url u = inr v <->
  v = with_scheme (strip u) /\ ~ Control u /\ ~ Empty u /\ HttpUrl v.
Proof.
  unfold validate_and_clean_url, Empty.
  rewrite <- has_control_iff, <- well_formed_url_iff.
  destruct (has_control u).
  { split; [discriminate|]. intros (_ & H & _). now contradiction H. }
  destruct (String.eqb_spec (strip u) "") as [E|E].
  { split; [discriminate|]. intros (_ & _ & H & _). contradiction. }
  destruct (well_formed_url (with_scheme (strip u))) eqn:W.
  - split.
    + intros [= <-]. repeat split; auto.
    + intros (-> & _). reflexivity.
  - split; [discriminate|]. intros (-> & _ & _ & H). congruence.
Qed.

(** The validator rejects exactly the URLs that are empty, malformed, or
    have a control character. *)
Lemma validator_rejects u :
  (exists m, validate_and_clean_url u = inl m) <->
  Empty u \/ Malformed u \/ Control u.
Proof.
  unfold Malformed. split.
  - intros [m Hm].
    destruct (has_control u) eqn:Hc.
    { right. right. now apply has_control_iff. }
    destruct (String.eqb_spec (strip u) "") as [E|E]; [now left|].
    right. left. intros Hu.
    assert (H : validate_and_clean_url u = inr (with_scheme (strip u))).
    { apply validator_accepts. split; [reflexivity|].
      split; [|split; [exact E|exact Hu]].
      intros H. apply has_control_iff in H. congruence. }
    congruence.
  - intros H.
    destruct (validate_and_clean_url u) as [m|v] eqn:Hv; [eauto|].
    apply validator_accepts in Hv. destruct Hv as (-> & H1 & H2 & H3).
    tauto.
Qed.

(** The URLs the specification has rejected are the ones the validator
    rejects: a scheme other than http or https is one way of being
    malformed. *)
Lemma rejected_iff u :
  Rejected u <-> exists m, validate_and_clean_url u = inl m.
Proof.
  rewrite validator_rejects. unfold Rejected. split.
  - intros [H|[H|[H|H]]]; auto using other_scheme_malformed.
  - intros [H|[H|H]]; auto.
Qed.

End UtilsFacts.

(* ----------------------------------------------------------------- *)
(** ** The webhook dispatcher *)

Module WebhookFacts.
Import Models Webhook WebhookSpec.

Section Dispatcher.

Variable WEBHOOK_MAX_RETRIES : nat.
Variable serialize_payload : WebhookSubscription -> option CaptureJob -> string.
Variable hmac_hexdigest : string -> string -> string -> string.

Local Abbreviation dispatch flag :=
  (dispatch_webhook flag WEBHOOK_MAX_RETRIES serialize_payload hmac_hexdigest).
Local Abbreviation run_chain :=
  (deliver true WEBHOOK_MAX_RETRIES serialize_payload hmac_hexdigest).

Lemma accepted_iff r :
  accepted r = true <-> r = StatusCode 200 \/ r = StatusCode 204.
Proof.
  destruct r as [c|]; simpl.
  - rewrite orb_true_iff, !Z.eqb_eq. split.
    + intros [->| ->]; auto.
    + intros [H|H]; inversion H; auto.
  - split; [discriminate|]. intros [H|H]; discriminate.
Qed.

Lemma max_retries_exceeded_iff m k :
  max_retries_exceeded m k = true <-> (m <= k)%nat.
Proof. unfold max_retries_exceeded. rewrite Nat.ltb_lt. lia. Qed.

Lemma dispatch_frame flag k sid jid r w :
  subscriptions (snd (dispatch flag k sid jid r w)) = subscriptions w /\
  capture_jobs (snd (dispatch flag k sid jid r w)) = capture_jobs w.
Proof.
  unfold dispatch_webhook.
  destruct flag; simpl; [|auto].
  destruct (find _ _); simpl; [|auto].
  destruct (accepted r); simpl; [auto|].
  destruct (max_retries_exceeded _ _); simpl; auto.
Qed.

Lemma dispatch_success k sid jid r w s :
  lookup sid w = Some s -> accepted r = true ->
  exists w', dispatch true k sid jid r w = (Returned, w') /\
    retries_scheduled w' = retries_scheduled w /\
    mailoutbox w' = mailoutbox w /\
    log w' = log w ++ [Delivered sid jid].
Proof.
  unfold lookup, dispatch_webhook. intros -> ->. simpl.
  eexists. split; [reflexivity|]. simpl. auto.
Qed.

Lemma dispatch_retry k sid jid r w s :
  lookup sid w = Some s -> accepted r = false ->
  (k < WEBHOOK_MAX_RETRIES)%nat ->
  exists w', dispatch true k sid jid r w = (RaisedRetry, w') /\
    retries_scheduled w' = retries_scheduled w ++ [backoff sid jid k] /\
    mailoutbox w' = mailoutbox w /\
    List.length (requests_sent w') = S (List.length (requests_sent w)).
Proof.
  unfold lookup, dispatch_webhook. intros -> -> Hk. simpl.
  destruct (max_retries_exceeded WEBHOOK_MAX_RETRIES k) eqn:E.
  - apply max_retries_exceeded_iff in E. lia.
  - eexists. split; [reflexivity|]. simpl.
    rewrite List.length_app. simpl. repeat split. lia.
Qed.

Lemma dispatch_exhausted k sid jid r w s :
  lookup sid w = Some s -> accepted r = false ->
  (WEBHOOK_MAX_RETRIES <= k)%nat ->
  exists w', dispatch true k sid jid r w = (Returned, w') /\
    retries_scheduled w' = retries_scheduled w /\
    mailoutbox w' =
      mailoutbox w ++ [escalation s (get jid (capture_jobs w))] /\
    List.length (requests_sent w') = S (List.length (requests_sent w)).
Proof.
  unfold lookup, dispatch_webhook. intros -> -> Hk. simpl.
  destruct (max_retries_exceeded WEBHOOK_MAX_RETRIES k) eqn:E.
  - eexists. split; [reflexivity|]. simpl.
    rewrite List.length_app. simpl. repeat split. lia.
  - apply not_true_iff_false in E.
    rewrite max_retries_exceeded_iff in E. lia.
Qed.

(** A callback that never accepts: the chain started at retry counter [k]
    runs to the bound, backing off before each retry, then escalates. *)
Lemma chain_all_fail n : forall k sid jid responses w s,
  lookup sid w = Some s ->
  (forall i, accepted (responses i) = false) ->
  (k + n = WEBHOOK_MAX_RETRIES)%nat ->
  exists w', run_chain (S n) k sid jid responses w = Some (Returned, w') /\
    retries_scheduled w' =
      retries_scheduled w ++ map (backoff sid jid) (seq k n) /\
    mailoutbox w' =
      mailoutbox w ++ [escalation s (get jid (capture_jobs w))] /\
    List.length (requests_sent w') = (List.length (requests_sent w) + S n)%nat.
Proof.
  induction n as [|n IH]; intros k sid jid responses w s Hs Hfail Hk.
  - destruct (dispatch_exhausted k sid jid _ w s Hs (Hfail k)) as (w' & E & Hr & Hm & Hq);
      [lia|].
    exists w'. simpl. rewrite E. rewrite app_nil_r.
    repeat split; auto. lia.
  - destruct (dispatch_retry k sid jid _ w s Hs (Hfail k)) as (w1 & E & Hr & Hm & Hq);
      [lia|].
    assert (Hs1 : lookup sid w1 = Some s).
    { unfold lookup.
      replace w1 with (snd (dispatch true k sid jid (responses k) w))
        by now rewrite E.
      now rewrite (proj1 (dispatch_frame true k sid jid (responses k) w)). }
    assert (Hj1 : capture_jobs w1 = capture_jobs w).
    { replace w1 with (snd (dispatch true k sid jid (responses k) w))
        by now rewrite E.
      apply dispatch_frame. }
    destruct (IH (k + 1)%nat sid jid responses w1 s Hs1 Hfail)
      as (w' & E' & Hr' & Hm' & Hq'); [lia|].
    exists w'. cbn [deliver]. rewrite E. split; [exact E'|].
    rewrite Hr', Hr, Hm', Hm, Hq', Hq, Hj1. rewrite <- app_assoc.
    replace (k + 1)%nat with (S k) by lia. simpl.
    repeat split. lia.
Qed.

(** One run, whatever the callback answers: it raises [Retry] only below
    the bound, and then schedules exactly one retry and sends no e-mail;
    otherwise it schedules nothing and sends at most one e-mail. *)
Lemma dispatch_cases k sid jid r w :
  forall out w', dispatch true k sid jid r w = (out, w') ->
  (out = RaisedRetry ->
     (k < WEBHOOK_MAX_RETRIES)%nat /\ accepted r = false /\
     retries_scheduled w' = retries_scheduled w ++ [backoff sid jid k] /\
     mailoutbox w' = mailoutbox w) /\
  (out <> RaisedRetry ->
     retries_scheduled w' = retries_scheduled w /\
     (List.length (mailoutbox w') <= List.length (mailoutbox w) + 1)%nat).
Proof.
  intros out w'. unfold dispatch_webhook. simpl.
  destruct (find _ _) as [s|].
  - destruct (accepted r) eqn:Ha.
    + intros [= <- <-]. simpl. split; [discriminate|]. intros _. split; [reflexivity|lia].
    + destruct (max_retries_exceeded WEBHOOK_MAX_RETRIES k) eqn:Hm.
      * intros [= <- <-]. simpl. split; [discriminate|]. intros _.
        rewrite List.length_app. simpl. split; [reflexivity|lia].
      * intros [= <- <-]. simpl. split; [|congruence]. intros _.
        apply not_true_iff_false in Hm.
        rewrite max_retries_exceeded_iff in Hm.
        repeat split. lia.
  - intros [= <- <-]. split; [discriminate|]. intros _. split; [reflexivity|lia].
Qed.

(** Whatever the callback answers, the chain stops within
    [WEBHOOK_MAX_RETRIES + 1] runs without raising [Retry], having sent at
    most one e-mail and scheduled at most [WEBHOOK_MAX_RETRIES] retries. *)
Lemma chain_bounded n : forall k sid jid responses w,
  (k + n = WEBHOOK_MAX_RETRIES)%nat ->
  exists out w', run_chain (S n) k sid jid responses w = Some (out, w') /\
    out <> RaisedRetry /\
    (List.length (mailoutbox w') <= List.length (mailoutbox w) + 1)%nat /\
    (List.length (retries_scheduled w') <=
     List.length (retries_scheduled w) + n)%nat.
Proof.
  induction n as [|n IH]; intros k sid jid responses w Hk; cbn [deliver];
    destruct (dispatch true k sid jid (responses k) w) as [out w1] eqn:E;
    destruct (dispatch_cases k sid jid (responses k) w out w1 E) as [Hretry Hstop].
  - assert (Hout : out <> RaisedRetry).
    { intros ->. destruct (Hretry eq_refl) as [Hlt _]. lia. }
    destruct (Hstop Hout) as [Hr Hm].
    exists out, w1. rewrite Hr.
    destruct out; try congruence; repeat split; try discriminate; lia.
  - destruct out.
    + destruct Hstop as [Hr Hm]; [discriminate|].
      exists Returned, w1. rewrite Hr. repeat split; try discriminate; lia.
    + destruct (Hretry eq_refl) as (_ & _ & Hr & Hm).
      destruct (IH (k + 1)%nat sid jid responses w1)
        as (out & w' & E' & Hout & Hm' & Hr'); [lia|].
      exists out, w'. split; [exact E'|]. split; [exact Hout|].
      rewrite Hm in Hm'. rewrite Hr, List.length_app in Hr'. simpl in Hr'. lia.
    + destruct Hstop as [Hr Hm]; [discriminate|].
      exists RaisedDoesNotExist, w1. rewrite Hr.
      repeat split; try discriminate; lia.
Qed.

(** C7.  Delivery with [DISPATCH_WEBHOOKS] on, for a subscription that
    exists.  A response of 200 or 204 ends the run with no retry and no
    e-mail.  Any other status (301 and 302 among them: the POST does not
    follow redirects) or a transport failure, below the retry bound,
    schedules exactly one retry whose countdown is 2 to the number of prior
    attempts and raises [Retry].  At the bound, the run schedules nothing,
    sends one e-mail to the owner of the subscription, and returns.  The
    context of that e-mail carries the subscription and the capture job as
    the job table gives it: when the table has a row with the id, that row,
    whose id is the one the task was called with, so the e-mail names the
    capture job; when it has none, no job.  A callback that always fails
    therefore gets [WEBHOOK_MAX_RETRIES] retries with countdowns 1, 2, 4,
    ... and then exactly one e-mail; and whatever the callback answers, the
    chain of runs ends without raising, with at most one e-mail. *)
Theorem webhook_retry_backoff sid jid w s (Hs : lookup sid w = Some s) :
  (forall k r, r = StatusCode 200 \/ r = StatusCode 204 ->
     exists w', dispatch true k sid jid r w = (Returned, w') /\
       retries_scheduled w' = retries_scheduled w /\
       mailoutbox w' = mailoutbox w) /\
  (forall k r, r <> StatusCode 200 -> r <> StatusCode 204 ->
     (k < WEBHOOK_MAX_RETRIES)%nat ->
     exists w', dispatch true k sid jid r w = (RaisedRetry, w') /\
       retries_scheduled w' =
         retries_scheduled w ++
           [mkScheduled sid jid (k + 1) (2 ^ Z.of_nat k)] /\
       mailoutbox w' = mailoutbox w) /\
  (forall k r, r <> StatusCode 200 -> r <> StatusCode 204 ->
     (WEBHOOK_MAX_RETRIES <= k)%nat ->
     exists w' m, dispatch true k sid jid r w = (Returned, w') /\
       retries_scheduled w' = retries_scheduled w /\
       mailoutbox w' = mailoutbox w ++ [m] /\
       m = escalation s (get jid (capture_jobs w)) /\
       recipients m = [ws_user_email s] /\
       context_subscription m = s /\
       context_capture_job m = get jid (capture_jobs w) /\
       (forall job, get jid (capture_jobs w) = Some job ->
          context_capture_job m = Some job /\ id job = jid) /\
       (get jid (capture_jobs w) = None -> context_capture_job m = None)) /\
  (forall k r q,
     In q (requests_sent (snd (dispatch true k sid jid r w))) ->
     In q (requests_sent w) \/
     (url q = callback_url s /\ allow_redirects q = false /\ timeout q = 20)) /\
  (forall responses, (forall i, accepted (responses i) = false) ->
     exists w',
       run_chain (S WEBHOOK_MAX_RETRIES) 0 sid jid responses w =
         Some (Returned, w') /\
       retries_scheduled w' =
         retries_scheduled w ++
           map (backoff sid jid) (seq 0 WEBHOOK_MAX_RETRIES) /\
       mailoutbox w' =
         mailoutbox w ++ [escalation s (get jid (capture_jobs w))] /\
       List.length (requests_sent w') =
         (List.length (requests_sent w) + S WEBHOOK_MAX_RETRIES)%nat) /\
  (forall responses,
     exists out w',
       run_chain (S WEBHOOK_MAX_RETRIES) 0 sid jid responses w =
         Some (out, w') /\
       out <> RaisedRetry /\
       (List.length (mailoutbox w') <= List.length (mailoutbox w) + 1)%nat /\
       (List.length (retries_scheduled w') <=
        List.length (retries_scheduled w) + WEBHOOK_MAX_RETRIES)%nat).
Proof.
  assert (Hrej : forall r, r <> StatusCode 200 -> r <> StatusCode 204 ->
                   accepted r = false).
  { intros r H1 H2. apply not_true_iff_false. rewrite accepted_iff. tauto. }
  split; [|split; [|split; [|split; [|split]]]].
  - intros k r Hr. apply accepted_iff in Hr.
    destruct (dispatch_success k sid jid r w s Hs Hr) as (w' & E & H1 & H2 & _).
    eauto.
  - intros k r H1 H2 Hk.
    destruct (dispatch_retry k sid jid r w s Hs (Hrej r H1 H2) Hk)
      as (w' & E & Hr & Hm & _).
    exists w'. auto.
  - intros k r H1 H2 Hk.
    destruct (dispatch_exhausted k sid jid r w s Hs (Hrej r H1 H2) Hk)
      as (w' & E & Hr & Hm & _).
    exists w', (escalation s (get jid (capture_jobs w))).
    do 7 (split; [auto|]). split; [|auto].
    intros job Hjob. split; [exact Hjob|].
    unfold get in Hjob. apply find_some in Hjob. now apply Nat.eqb_eq.
  - intros k r q. unfold lookup in Hs. unfold dispatch_webhook.
    rewrite Hs. simpl.
    destruct (accepted r); [|destruct (max_retries_exceeded _ _)]; simpl;
      rewrite in_app_iff; simpl; (intros [H|[<-|[]]]; [left; exact H|right]);
      simpl; auto.
  - intros responses Hfail.
    apply (chain_all_fail WEBHOOK_MAX_RETRIES 0 sid jid responses w s Hs Hfail).
    reflexivity.
  - intros responses.
    apply (chain_bounded WEBHOOK_MAX_RETRIES 0 sid jid responses w).
    reflexivity.
Qed.

(** C9.  With [DISPATCH_WEBHOOKS] off the task logs that notifications are
    disabled and returns: no request is sent, no retry scheduled, no e-mail
    sent, and the tables are as they were; the chain of runs is that one
    run. *)
Theorem dispatch_disabled_noop k sid jid r w :
  exists w', dispatch false k sid jid r w = (Returned, w') /\
    log w' = log w ++ [NotificationsDisabled sid jid] /\
    requests_sent w' = requests_sent w /\
    retries_scheduled w' = retries_scheduled w /\
    mailoutbox w' = mailoutbox w /\
    subscriptions w' = subscriptions w /\
    capture_jobs w' = capture_jobs w /\
    deliver false WEBHOOK_MAX_RETRIES serialize_payload hmac_hexdigest
      1 k sid jid (fun _ => r) w = Some (Returned, w').
Proof.
  exists (add_log (NotificationsDisabled sid jid) w).
  unfold deliver, dispatch_webhook. simpl. repeat split; reflexivity.
Qed.

(** C10.  Signing and verifying round-trip: a signature made by [sign_data]
    is accepted by [is_valid_signature] for the same payload, key and
    algorithm; and every request a run of the task sends carries, in its
    [x-hook-signature] header, a signature that verifies against the body
    of that same request under the key and algorithm of the subscription. *)
Theorem posted_signature_verifies :
  (forall p key alg,
     Utils.is_valid_signature hmac_hexdigest
       (Utils.sign_data hmac_hexdigest p key alg) p key alg = true) /\
  (forall flag k sid jid r w q,
     In q (requests_sent (snd (dispatch flag k sid jid r w))) ->
     In q (requests_sent w) \/
     exists s, lookup sid w = Some s /\
       json q = serialize_payload s (get jid (capture_jobs w)) /\
       Utils.is_valid_signature hmac_hexdigest (x_hook_signature q) (json q)
         (signing_key s) (signing_key_algorithm s) = true).
Proof.
  assert (Hrt : forall p key alg,
     Utils.is_valid_signature hmac_hexdigest
       (Utils.sign_data hmac_hexdigest p key alg) p key alg = true).
  { intros p key alg. unfold Utils.is_valid_signature.
    now apply UtilsFacts.compare_digest_eq. }
  split; [exact Hrt|].
  intros flag k sid jid r w q. unfold dispatch_webhook, lookup.
  destruct flag; simpl; [|auto].
  destruct (find _ _) as [s|]; simpl; [|auto].
  destruct (accepted r); [|destruct (max_retries_exceeded _ _)]; simpl;
    rewrite in_app_iff; simpl; (intros [H|[<-|[]]]; [left; exact H|right]);
    exists s; simpl; auto.
Qed.

End Dispatcher.

(** The theorem of C7 at [sample_world], whose job table has the capture
    job 9, with a bound of 3 retries. *)
Lemma webhook_retry_backoff_witness :
  lookup 5 sample_world =
    Some (mkWebhookSubscription 5 "owner@example.com"
            "https://hook.example/cb" "secret" "sha256") /\
  get 9 (capture_jobs sample_world) = Some sample_capture_job /\
  exists w',
    deliver true 3 (fun _ _ => "{}") (fun _ _ _ => "sig") 4 0 5 9
      (fun _ => StatusCode 502) sample_world = Some (Returned, w') /\
    map countdown (retries_scheduled w') = [1; 2; 4] /\
    map context_capture_job (mailoutbox w') = [Some sample_capture_job] /\
    map recipients (mailoutbox w') = [["owner@example.com"]].
Proof.
  split; [reflexivity|]. split; [reflexivity|].
  destruct (proj1 (proj2 (proj2 (proj2 (proj2
              (webhook_retry_backoff 3 (fun _ _ => "{}") (fun _ _ _ => "sig")
                 5 9 sample_world _ eq_refl)))))
              (fun _ => StatusCode 502) (fun _ => eq_refl))
    as (w' & E & Hr & Hm & _).
  exists w'. split; [exact E|].
  rewrite Hr, Hm. repeat split.
Defined.

(** The statuses of the doctest: each of 301, 302, 400, 401, 413, 500 and
    502 raises [Retry] on the first run; 200 and 204 return. *)
Example doctest_statuses :
  map (fun c => fst (dispatch_webhook true 3 (fun _ _ => "{}")
                       (fun _ _ _ => "sig") 0 5 9 (StatusCode c) sample_world))
      [301; 302; 400; 401; 413; 500; 502; 200; 204] =
  [RaisedRetry; RaisedRetry; RaisedRetry; RaisedRetry; RaisedRetry;
   RaisedRetry; RaisedRetry; Returned; Returned].
Proof. reflexivity. Qed.

End WebhookFacts.

(* ----------------------------------------------------------------- *)
(** ** The queue: what a reservation returns *)

Module QueueBasics.
Import Models Queue ModelsFacts ModelsSpec.

Lemma first_min_in key l j : first_min key l = Some j -> In j l.
Proof.
  revert j. induction l as [|x l IH]; simpl; [discriminate|].
  intros j. destruct (first_min key l) as [m|].
  - destruct (key m <? key x); intros [= <-]; auto.
  - intros [= <-]. auto.
Qed.

Lemma first_min_none key l : first_min key l = None -> l = [].
Proof.
  destruct l as [|x l]; simpl; [reflexivity|].
  destruct (first_min key l) as [m|]; [destruct (key m <? key x)|]; discriminate.
Qed.

(** The job selected is a pending row of the table. *)
Lemma next_job_pending t j :
  next_job t = Some j -> In j t /\ is_pending j = true.
Proof.
  unfold next_job, next_human.
  destruct (first_min (job_key t) (pending_human t)) as [m|] eqn:E.
  - intros [= <-]. apply first_min_in in E.
    apply filter_In in E. destruct E as [Hin Hp].
    apply andb_true_iff in Hp. tauto.
  - destruct (pending_robot t) as [|r l] eqn:Er; simpl; [discriminate|].
    intros [= <-].
    assert (Hin : In r (pending_robot t)) by (rewrite Er; now left).
    apply filter_In in Hin. destruct Hin as [Hin Hp].
    apply andb_true_iff in Hp. tauto.
Qed.

Lemma get_save k j t r :
  id j = k -> get k t = Some r -> get k (save j t) = Some j.
Proof.
  intros <-. unfold get, save. induction t as [|x t IH]; simpl; [discriminate|].
  destruct (Nat.eqb (id x) (id j)) eqn:E.
  - intros _. simpl. now rewrite Nat.eqb_refl.
  - intros H. simpl. rewrite E. auto.
Qed.

Lemma id_reserve now j : id (reserve now j) = id j.
Proof. reflexivity. Qed.

Lemma claim_ids now k t : map id (snd (claim now k t)) = map id t.
Proof.
  unfold claim. simpl. rewrite map_map. apply map_ext.
  intros r. now destruct (Nat.eqb (id r) k && is_pending r).
Qed.

Lemma wf_claim now k t : wf_table t -> wf_table (snd (claim now k t)).
Proof. unfold wf_table. now rewrite claim_ids. Qed.

(** On a table with unique keys, a reservation returns the selected row as
    it is once reserved: in progress, with its start time set. *)
Lemma get_next_job_some now t job t' :
  wf_table t -> get_next_job now t = (Some job, t') ->
  exists j, next_job t = Some j /\ job = reserve now j /\
    t' = snd (claim now (id j) t) /\ get (id job) t' = Some job /\
    wf_table t'.
Proof.
  intros Hwf. unfold get_next_job.
  destruct (next_job t) as [j|] eqn:E; [|discriminate].
  intros [= Hget <-].
  destruct (next_job_pending t j E) as [Hin Hp].
  assert (Hin' : In (reserve now j) (snd (claim now (id j) t))).
  { unfold claim. simpl. apply in_map_iff. exists j.
    now rewrite Nat.eqb_refl, Hp. }
  pose proof (wf_claim now (id j) t Hwf) as Hwf'.
  pose proof (get_in _ _ Hwf' Hin') as Hg. rewrite id_reserve in Hg.
  assert (Hjob : job = reserve now j).
  { unfold claim in Hg. simpl in Hg, Hget. congruence. }
  subst job. exists j. repeat split; auto.
Qed.

Lemma get_next_job_none now t t' :
  get_next_job now t = (None, t') -> next_job t = None /\ t' = t.
Proof.
  unfold get_next_job. destruct (next_job t) as [j|] eqn:E.
  - intros [= Hget _]. exfalso.
    destruct (next_job_pending t j E) as [Hin Hp].
    unfold get, claim in Hget. simpl in Hget.
    assert (Hin' : In (reserve now j)
              (map (fun r => if Nat.eqb (id r) (id j) && is_pending r
                             then reserve now r else r) t)).
    { apply in_map_iff. exists j. now rewrite Nat.eqb_refl, Hp. }
    apply (find_none _ _ Hget) in Hin'. simpl in Hin'.
    now rewrite Nat.eqb_refl in Hin'.
  - intros [= <-]. auto.
Qed.

End QueueBasics.

(* ----------------------------------------------------------------- *)
(** ** The orchestrator *)

Module OrchestratorFacts.
Import Models Orchestrator ModelsFacts QueueBasics ModelsSpec OrchestratorSpec.

(** *** Invariants of monadic code *)

Section Preservation.

Variable I : St -> Prop.

Lemma preserves_ret A (a : A) : preserves I (ret a).
Proof. intros s H. exact H. Qed.

Lemma preserves_raise A x : preserves I (@raise A x).
Proof. intros s H. exact H. Qed.

Lemma preserves_get_state : preserves I get_state.
Proof. intros s H. exact H. Qed.

Lemma preserves_outcome A (o : Outcome A) : preserves I (fun s => (o, s)).
Proof. intros s H. exact H. Qed.

Lemma preserves_modify f :
  (forall s, I s -> I (f s)) -> preserves I (modify f).
Proof. intros Hf s H. simpl. auto. Qed.

Lemma preserves_bind A B (m : M A) (k : A -> M B) :
  preserves I m -> (forall a, preserves I (k a)) -> preserves I (bind m k).
Proof.
  intros Hm Hk s H. unfold bind. specialize (Hm s H).
  destruct (m s) as [[a|x] s']; simpl in *; [|exact Hm].
  now apply Hk.
Qed.

Lemma preserves_try_except A (m : M A) h :
  preserves I m -> (forall x, preserves I (h x)) ->
  preserves I (try_except m h).
Proof.
  intros Hm Hh s H. unfold try_except. specialize (Hm s H).
  destruct (m s) as [[a|x] s']; simpl in *; [exact Hm|].
  now apply Hh.
Qed.

Lemma preserves_when b m : preserves I m -> preserves I (when b m).
Proof. destruct b; simpl; [auto|]. intros _. apply preserves_ret. Qed.

Lemma preserves_for_each A (l : list A) body :
  (forall x, preserves I (body x)) -> preserves I (for_each l body).
Proof.
  intros Hb. induction l as [|x l IH]; simpl.
  - apply preserves_ret.
  - apply preserves_bind; auto.
Qed.

End Preservation.

Lemma preserves_emit k ev :
  (forall task, ev <> ApplyAsync task) -> preserves (Inv k) (emit ev).
Proof.
  intros Hev [t a tr j cl co ha] (Hid & Hrow & Hst & Htr).
  unfold emit, modify. simpl in *.
  repeat split; auto.
  intros task Hin. apply in_app_iff in Hin. destruct Hin as [Hin|[Heq|[]]].
  - now apply (Htr task).
  - now apply (Hev task).
Qed.

Lemma preserves_call k A ev (o : Outcome A) :
  (forall task, ev <> ApplyAsync task) -> preserves (Inv k) (call ev o).
Proof.
  intros Hev. unfold call. apply preserves_bind.
  - now apply preserves_emit.
  - intros _. apply preserves_outcome.
Qed.

Lemma preserves_update_and_save k f :
  quiet_update f -> preserves (Inv k) (update_and_save f).
Proof.
  intros Hf [t a tr j cl co ha] (Hid & (row & Hrow & Hsync) & Hst & Htr).
  destruct (Hf j) as [Hfid Hfst].
  unfold update_and_save, modify, Inv. simpl in *.
  split; [congruence|]. split; [|split; [|exact Htr]].
  - exists (f j). split; [|reflexivity].
    apply get_save with (r := row); congruence.
  - destruct Hfst as [E|[E|E]]; rewrite E; auto.
Qed.

Lemma preserves_locals k f :
  (forall s, db (f s) = db s /\ trace (f s) = trace s /\
     id (capture_job (f s)) = id (capture_job s) /\
     status (capture_job (f s)) = status (capture_job s)) ->
  preserves (Inv k) (modify f).
Proof.
  intros Hf. apply preserves_modify.
  intros s (Hid & Hrow & Hst & Htr).
  destruct (Hf s) as (E1 & E2 & E3 & E4).
  unfold Inv. rewrite E1, E2, E3, E4. auto.
Qed.

Lemma quiet_inc_progress n d : quiet_update (Models.inc_progress n d).
Proof. intros j. simpl. auto. Qed.

Lemma quiet_mark_invalid now m : quiet_update (mark_invalid now m).
Proof. intros j. simpl. auto. Qed.

Lemma quiet_mark_completed now : quiet_update (mark_completed now).
Proof. intros j. simpl. auto. Qed.

Lemma quiet_id : quiet_update (fun j => j).
Proof. intros j. auto. Qed.

Lemma preserves_inc_progress k n d : preserves (Inv k) (inc_progress n d).
Proof.
  unfold inc_progress. apply preserves_bind.
  - apply preserves_update_and_save, quiet_inc_progress.
  - intros _. apply preserves_bind; [apply preserves_get_state|].
    intros s. apply preserves_emit. discriminate.
Qed.

Create HintDb orch discriminated.

#[export] Hint Resolve preserves_ret preserves_raise preserves_get_state
  preserves_outcome preserves_when preserves_for_each preserves_inc_progress
  preserves_update_and_save quiet_mark_invalid quiet_mark_completed quiet_id
  : orch.

(** One step of a preservation proof: split a sequence, or close a
    primitive. *)
Ltac keep :=
  repeat first
    [ apply preserves_bind; [|intros ?]
    | apply preserves_when
    | apply preserves_emit; discriminate
    | apply preserves_call; discriminate
    | apply preserves_locals; intros []; simpl; tauto
    | solve [auto with orch] ].

Lemma preserves_capture e k : preserves (Inv k) (capture e).
Proof.
  unfold capture, validate, provision, stream_progress, evaluate_outcome.
  keep.
  - destruct (Utils.validate_and_clean_url _); keep.
  - destruct (exit_code (life_cycle_run e)) as [[| |]|]; keep.
Qed.

Lemma preserves_handle k x : preserves (Inv k) (handle x).
Proof. destruct x; unfold handle; keep. Qed.

Lemma preserves_finalize e k : preserves (Inv k) (finalize e).
Proof.
  unfold finalize, release, save_archive. keep.
  match goal with |- context [have_archive ?s] => destruct (have_archive s) end.
  - keep; try (destruct (isfile_outputfile e); keep);
      try (destruct (rest_of_file_empty e); keep).
  - keep.
Qed.

Lemma safety_net_settles e k s :
  Inv k s ->
  fst (safety_net e s) = Done tt /\ Settled k (snd (safety_net e s)).
Proof.
  destruct s as [t a tr j cl co ha].
  intros (Hid & (row & Hrow & Hsync) & Hst & Htr).
  unfold safety_net, bind, get_state, when. simpl in *.
  destruct (status_eqb (status j) IN_PROGRESS) eqn:E; simpl.
  - split; [reflexivity|]. repeat split; auto.
    exists (mark_failed (end_time e) "Failed during capture." j).
    split; [|reflexivity]. apply get_save with (r := row); auto.
  - split; [reflexivity|]. repeat split; auto.
    + exists row. auto.
    + destruct Hst as [H|[H|H]]; auto.
      rewrite H in E. discriminate.
Qed.

Lemma handle_returns x s : fst (handle x s) = Done tt.
Proof. now destruct x. Qed.

(** The [try ... except ... finally] statement never raises, and leaves
    the job settled. *)
Lemma run_capture_settles e k s :
  Inv k s ->
  fst (run_capture e s) = Done tt /\ Settled k (snd (run_capture e s)).
Proof.
  intros H. unfold run_capture, try_finally.
  destruct (try_except (capture e) handle s) as [r1 s1] eqn:E1.
  destruct (try_except (finalize e)
              (fun _ => emit (LogException "Exception while finishing job."))
              s1) as [r2 s2] eqn:E2.
  destruct (safety_net e s2) as [r3 s3] eqn:E3.
  assert (H1 : Inv k s1).
  { pose proof (preserves_try_except (Inv k) _ (capture e) handle
                  (preserves_capture e k) (preserves_handle k) s H) as H1.
    now rewrite E1 in H1. }
  assert (Hr1 : r1 = Done tt).
  { unfold try_except in E1.
    destruct (capture e s) as [[[]|x] s'].
    - now injection E1 as <- _.
    - pose proof (handle_returns x s') as Hh. rewrite E1 in Hh. exact Hh. }
  assert (H2 : Inv k s2).
  { pose proof (preserves_try_except (Inv k) _ (finalize e)
                  (fun _ => emit (LogException "Exception while finishing job."))
                  (preserves_finalize e k)
                  (fun _ => preserves_emit k
                              (LogException "Exception while finishing job.")
                              ltac:(discriminate)) s1 H1) as H2.
    now rewrite E2 in H2. }
  assert (Hr2 : r2 = Done tt).
  { unfold try_except in E2.
    destruct (finalize e s1) as [[[]|x] s'].
    - now injection E2 as <- _.
    - now injection E2 as <- _. }
  destruct (safety_net_settles e k s2 H2) as [Hd Hs].
  rewrite E3 in Hd, Hs. simpl in Hd, Hs. subst. simpl. auto.
Qed.

(** *** The phases of a capture, one by one *)

Lemma same_frame_refl s : same_frame s s.
Proof. repeat split. Qed.

Lemma same_frame_trans s1 s2 s3 :
  same_frame s1 s2 -> same_frame s2 s3 -> same_frame s1 s3.
Proof.
  unfold same_frame. intros (A1 & A2 & A3 & A4 & A5 & A6)
    (B1 & B2 & B3 & B4 & B5 & B6).
  repeat split; congruence.
Qed.

(** Symbolic execution of monadic code, leaving the tables, the validator
    and the loops folded. *)
Ltac run :=
  cbn -[save Utils.validate_and_clean_url Utils.strip for_each
        life_cycle_run String.append].

Lemma validate_accepts e url s :
  Utils.validate_and_clean_url (requested_url (capture_job s)) = inr url ->
  exists s', validate e s = (Done tt, s') /\ same_frame s s'.
Proof.
  destruct s as [t a tr j cl co ha]. intros Hval.
  unfold validate, bind, inc_progress. run. simpl in Hval.
  rewrite Hval. run. eexists. split; [reflexivity|]. repeat split.
Qed.

Lemma provision_succeeds e s :
  docker_from_env e = Done tt -> containers_create e = Done tt ->
  container_start e = Done tt ->
  exists s', provision e s = (Done tt, s') /\
    client s' = true /\ container s' = true /\
    have_archive s' = have_archive s /\ archives s' = archives s /\
    id (capture_job s') = id (capture_job s) /\
    status (capture_job s') = status (capture_job s).
Proof.
  destruct s as [t a tr j cl co ha]. intros Hd Hc Hs.
  unfold provision, bind, call, inc_progress. run.
  rewrite Hd. run. rewrite Hc. run. rewrite Hs. run.
  eexists. split; [reflexivity|]. repeat split.
Qed.

Lemma progress_lines (f : string -> string) l : forall s,
  exists s',
    for_each l (fun msg => inc_progress 1 (f msg)) s = (Done tt, s') /\
    same_frame s s'.
Proof.
  induction l as [|x l IH]; intros s.
  - exists s. split; [reflexivity|apply same_frame_refl].
  - cbn [for_each]. unfold bind at 1.
    destruct (inc_progress 1 (f x) s) as [r s1] eqn:E1.
    assert (Hr : r = Done tt /\ same_frame s s1).
    { destruct s as [t a tr j cl co ha].
      unfold inc_progress, bind in E1. revert E1. run.
      intros [= <- <-]. repeat split. }
    destruct Hr as [-> Hf1].
    destruct (IH s1) as (s' & E & Hf).
    exists s'. split; [exact E|]. eapply same_frame_trans; eauto.
Qed.

Lemma stream_to_end e s :
  stdout_stream_end e = Done tt ->
  exists s', stream_progress e s = (Done tt, s') /\ same_frame s s'.
Proof.
  intros Hend. unfold stream_progress. unfold bind at 1.
  destruct (emit ContainerLogs s) as [r s0] eqn:E0.
  assert (H0 : r = Done tt /\ same_frame s s0).
  { destruct s. revert E0. run. intros [= <- <-]. repeat split. }
  destruct H0 as [-> H0]. unfold bind at 1.
  destruct (progress_lines
              (fun msg => ("Browsertrix: " ++ Utils.strip msg ++ ".")%string)
              (stdout_stream e) s0) as (s' & E & Hf).
  rewrite E, Hend. exists s'. split; [reflexivity|].
  eapply same_frame_trans; eauto.
Qed.

(** A nonzero exit code (or none at all) halts the capture; the output
    file, if there is one, is kept for the finalize step. *)
Lemma evaluate_nonzero e s :
  exit_code (life_cycle_run e) <> Some 0 ->
  exists s', evaluate_outcome e s = (Raises HaltCaptureException, s') /\
    client s' = client s /\ container s' = container s /\
    have_archive s' = (isfile_outputfile e || have_archive s) /\
    archives s' = archives s /\
    id (capture_job s') = id (capture_job s) /\
    status (capture_job s') = status (capture_job s).
Proof.
  destruct s as [t a tr j cl co ha]. intros Hexit.
  unfold evaluate_outcome.
  destruct (exit_code (life_cycle_run e)) as [[| |]|]; [congruence| | |];
    destruct (isfile_outputfile e); run;
    (eexists; split; [reflexivity|]; repeat split).
Qed.

Lemma release_frame e s :
  exists r s', release e s = (r, s') /\ same_frame s s' /\
    (container_remove e = Done tt -> client_close e = Done tt ->
     r = Done tt).
Proof.
  destruct s as [t a tr j cl co ha]. unfold release, bind, when, call. run.
  destruct co, cl; run;
    destruct (container_remove e) as [[]|x]; run;
    try (destruct (client_close e) as [[]|y]; run);
    do 2 eexists; (split; [reflexivity|]); (split; [repeat split|]);
    congruence.
Qed.

Lemma save_archive_succeeds e s h alg name u exp :
  isfile_outputfile e = true ->
  get_file_hash e = Done (h, alg) -> rest_of_file_empty e = true ->
  storage_save e (filename e) = Done name -> storage_url e name = Done u ->
  download_expires e u = Done exp ->
  exists s', save_archive e s = (Done tt, s') /\
    status (capture_job s') = COMPLETED /\
    archives s' =
      archives s ++
        [mkArchive (id (capture_job s)) h alg (file_tell e) u exp].
Proof.
  destruct s as [t a tr j cl co ha]. intros Hfile Hh Hrest Hsave Hurl Hexp.
  unfold save_archive, bind, call, inc_progress. run.
  rewrite Hfile. run. rewrite Hh. run. rewrite Hrest. run.
  rewrite Hsave. run. rewrite Hurl. run. rewrite Hexp. run.
  eexists. split; [reflexivity|]. repeat split.
Qed.

Lemma start_inv now t job t2 a :
  wf_table t -> Queue.get_next_job now t = (Some job, t2) ->
  Inv (id job) (start t2 a job) /\ status job = IN_PROGRESS.
Proof.
  intros Hwf Hres.
  destruct (get_next_job_some now t job t2 Hwf Hres)
    as (j & _ & -> & _ & Hget & _).
  split; [|reflexivity]. repeat split; simpl; auto.
  exists (Queue.reserve now j). auto.
Qed.

(** A run on a reserved job: the task returns, the job is settled and the
    last thing the task did was to enqueue itself, once. *)
Lemma run_reserved e t a job t2 :
  wf_table t ->
  Queue.get_next_job (now e) (Reaper.clean_up_failed_captures (now e) (reap_time e) t) =
    (Some job, t2) ->
  exists s,
    run_next_capture e t a =
      (Done tt, db s, archives s,
       trace s ++ [ApplyAsync "run_next_capture"]) /\
    s = snd (run_capture e (start t2 a job)) /\
    Settled (id job) s.
Proof.
  intros Hwf Hres. unfold run_next_capture. rewrite Hres.
  destruct (start_inv (now e) _ job t2 a
              (ReaperFacts.wf_clean_up (now e) (reap_time e) t Hwf) Hres) as [Hinv _].
  destruct (run_capture_settles e (id job) _ Hinv) as [Hd Hs].
  fold (start t2 a job). unfold bind.
  destruct (run_capture e (start t2 a job)) as [r s]. simpl in Hd, Hs.
  subst r. exists s. destruct s as [t' a' tr' j' cl co ha]. simpl. auto.
Qed.

Lemma wf_one_pending url : wf_table (one_pending url).
Proof. repeat constructor. simpl. tauto. Defined.

(** C3.  Whenever [run_next_capture] reserves a job, it returns with that
    job in a terminal status (Completed, Failed or Invalid), never
    InProgress, in the table as in memory; and the safety net turns a job
    that is still InProgress when it is reached into a Failed one. *)
Theorem reserved_job_ends_terminal e t a job t2
    (Hwf : wf_table t)
    (Hres : Queue.get_next_job (now e)
              (Reaper.clean_up_failed_captures (now e) (reap_time e) t) = (Some job, t2)) :
  (exists t' a' tr job',
     run_next_capture e t a = (Done tt, t', a', tr) /\
     get (id job) t' = Some job' /\
     terminal (status job') = true /\
     status job' <> IN_PROGRESS /\
     (status job' = COMPLETED \/ status job' = FAILED \/
      status job' = INVALID)) /\
  (forall s, status (capture_job s) = IN_PROGRESS ->
     fst (safety_net e s) = Done tt /\
     status (capture_job (snd (safety_net e s))) = FAILED).
Proof.
  split.
  - destruct (run_reserved e t a job t2 Hwf Hres)
      as (s & Hrun & _ & (Hid & (row & Hrow & Hsync) & Hst & _)).
    exists (db s), (archives s), (trace s ++ [ApplyAsync "run_next_capture"]),
      row.
    split; [exact Hrun|]. split; [exact Hrow|]. rewrite Hsync.
    destruct Hst as [E|[E|[E _]]]; rewrite E; simpl;
      repeat split; auto; discriminate.
  - intros [t0 a0 tr j cl co ha] Hs. simpl in Hs.
    unfold safety_net, bind, get_state, when. simpl.
    rewrite Hs. simpl. auto.
Qed.

(** The theorem of C3 at a table with one pending job, in [calm]. *)
Lemma reserved_job_ends_terminal_witness :
  wf_table (one_pending "example.com") /\
  exists t' a' tr job',
    run_next_capture calm (one_pending "example.com") [] =
      (Done tt, t', a', tr) /\
    get 1 t' = Some job' /\ terminal (status job') = true.
Proof.
  split; [apply wf_one_pending|].
  destruct (proj1 (reserved_job_ends_terminal calm
                     (one_pending "example.com") [] _ _
                     (wf_one_pending "example.com") eq_refl))
    as (t' & a' & tr & job' & Hrun & Hget & Hterm & _).
  exists t', a', tr, job'. auto.
Defined.

(** C8, as the task has it.  When no job is pending the task logs
    "No jobs waiting!" and returns without enqueuing anything; when it
    reserves a job it returns only after enqueuing [run_next_capture],
    exactly once and as its last action, however the capture went. *)
Theorem reenqueue_after_reservation e t a (Hwf : wf_table t) :
  (forall t2,
     Queue.get_next_job (now e)
       (Reaper.clean_up_failed_captures (now e) (reap_time e) t) = (None, t2) ->
     run_next_capture e t a =
       (Done tt, t2, a, [LogInfo "No jobs waiting!"])) /\
  (forall job t2,
     Queue.get_next_job (now e)
       (Reaper.clean_up_failed_captures (now e) (reap_time e) t) = (Some job, t2) ->
     exists t' a' tr,
       run_next_capture e t a =
         (Done tt, t', a', tr ++ [ApplyAsync "run_next_capture"]) /\
       forall task, ~ In (ApplyAsync task) tr).
Proof.
  split.
  - intros t2 Hres. unfold run_next_capture. now rewrite Hres.
  - intros job t2 Hres.
    destruct (run_reserved e t a job t2 Hwf Hres)
      as (s & Hrun & _ & (_ & _ & _ & Htr)).
    exists (db s), (archives s), (trace s). auto.
Qed.

(** The theorem of C8 at a table with one pending job, in [calm]. *)
Lemma reenqueue_after_reservation_witness :
  wf_table (one_pending "example.com") /\
  exists t' a' tr,
    run_next_capture calm (one_pending "example.com") [] =
      (Done tt, t', a', tr ++ [ApplyAsync "run_next_capture"]).
Proof.
  split; [apply wf_one_pending|].
  destruct (proj2 (reenqueue_after_reservation calm
                     (one_pending "example.com") []
                     (wf_one_pending "example.com")) _ _ eq_refl)
    as (t' & a' & tr & Hrun & _).
  exists t', a', tr. exact Hrun.
Defined.

(** C8 as stated fails: on an empty table the task returns and nothing is
    enqueued. *)
Lemma no_jobs_no_reenqueue :
  let '(r, _, _, tr) := run_next_capture calm [] [] in
  r = Done tt /\ forall task, ~ In (ApplyAsync task) tr.
Proof.
  simpl. split; [reflexivity|].
  intros task [H|[]]. discriminate.
Qed.

(** *** Partial-capture salvage *)

(** The container ran and was joined with a nonzero exit code: the capture
    halts with the client and the container in hand, and with an archive
    to finalize exactly when the output file exists. *)
Lemma capture_halts_nonzero e url s :
  Utils.validate_and_clean_url (requested_url (capture_job s)) = inr url ->
  docker_from_env e = Done tt -> containers_create e = Done tt ->
  container_start e = Done tt -> stdout_stream_end e = Done tt ->
  exit_code (life_cycle_run e) <> Some 0 ->
  exists s', capture e s = (Raises HaltCaptureException, s') /\
    client s' = true /\ container s' = true /\
    have_archive s' = (isfile_outputfile e || have_archive s) /\
    archives s' = archives s /\
    id (capture_job s') = id (capture_job s) /\
    status (capture_job s') = status (capture_job s).
Proof.
  intros Hval Hd Hc Hs Hend Hexit. unfold capture.
  destruct (validate_accepts e url s Hval) as (s1 & E1 & F1).
  destruct (provision_succeeds e s1 Hd Hc Hs) as (s2 & E2 & F2).
  destruct (stream_to_end e s2 Hend) as (s3 & E3 & F3).
  destruct (evaluate_nonzero e s3 Hexit) as (s4 & E4 & F4).
  exists s4. unfold bind. rewrite E1, E2, E3, E4. split; [reflexivity|].
  unfold same_frame in *.
  destruct F1 as (? & ? & ? & ? & ? & ?), F2 as (? & ? & ? & ? & ? & ?),
    F3 as (? & ? & ? & ? & ? & ?), F4 as (? & ? & ? & ? & ? & ?).
  repeat split; congruence.
Qed.

(** The outer [try ... except] around such a capture: the halt is caught
    and logged. *)
Lemma capture_caught e url s :
  Utils.validate_and_clean_url (requested_url (capture_job s)) = inr url ->
  docker_from_env e = Done tt -> containers_create e = Done tt ->
  container_start e = Done tt -> stdout_stream_end e = Done tt ->
  exit_code (life_cycle_run e) <> Some 0 ->
  exists s', try_except (capture e) handle s = (Done tt, s') /\
    client s' = true /\ container s' = true /\
    have_archive s' = (isfile_outputfile e || have_archive s) /\
    archives s' = archives s /\
    id (capture_job s') = id (capture_job s) /\
    status (capture_job s') = status (capture_job s).
Proof.
  intros Hval Hd Hc Hs Hend Hexit.
  destruct (capture_halts_nonzero e url s Hval Hd Hc Hs Hend Hexit)
    as (s1 & E & F).
  unfold try_except. rewrite E. destruct s1 as [t a tr j cl co ha].
  eexists. split; [reflexivity|]. exact F.
Qed.

Lemma salvage_completes e url s h alg name u exp :
  Utils.validate_and_clean_url (requested_url (capture_job s)) = inr url ->
  docker_from_env e = Done tt -> containers_create e = Done tt ->
  container_start e = Done tt -> stdout_stream_end e = Done tt ->
  exit_code (life_cycle_run e) <> Some 0 ->
  isfile_outputfile e = true ->
  container_remove e = Done tt -> client_close e = Done tt ->
  get_file_hash e = Done (h, alg) -> rest_of_file_empty e = true ->
  storage_save e (filename e) = Done name -> storage_url e name = Done u ->
  download_expires e u = Done exp ->
  exists s', run_capture e s = (Done tt, s') /\
    status (capture_job s') = COMPLETED /\
    archives s' =
      archives s ++
        [mkArchive (id (capture_job s)) h alg (file_tell e) u exp].
Proof.
  intros Hval Hd Hc Hs Hend Hexit Hfile Hrm Hcl Hh Hrest Hsave Hurl Hexp.
  destruct (capture_caught e url s Hval Hd Hc Hs Hend Hexit)
    as (s1 & E1 & Hcl1 & Hco1 & Hha1 & Har1 & Hid1 & Hst1).
  rewrite Hfile in Hha1. simpl in Hha1.
  unfold run_capture, try_finally. rewrite E1.
  unfold try_except, finalize. unfold bind at 1.
  destruct (release_frame e s1) as (r & s2 & E2 & F2 & Hr).
  rewrite E2, (Hr Hrm Hcl). unfold bind at 1, get_state.
  destruct F2 as (Hcl2 & Hco2 & Hha2 & Har2 & Hid2 & Hst2).
  rewrite Hha2, Hha1.
  destruct (save_archive_succeeds e s2 h alg name u exp
              Hfile Hh Hrest Hsave Hurl Hexp) as (s3 & E3 & Hst3 & Har3).
  rewrite E3. destruct s3 as [t a tr j cl co ha]. simpl in Hst3, Har3.
  unfold safety_net, bind, get_state, when. simpl. rewrite Hst3. simpl.
  eexists. split; [reflexivity|]. simpl.
  split; [exact Hst3|]. rewrite Har3, Har2, Har1, Hid2, Hid1. reflexivity.
Qed.

Lemma no_artifact_fails e url s :
  Utils.validate_and_clean_url (requested_url (capture_job s)) = inr url ->
  docker_from_env e = Done tt -> containers_create e = Done tt ->
  container_start e = Done tt -> stdout_stream_end e = Done tt ->
  exit_code (life_cycle_run e) <> Some 0 ->
  isfile_outputfile e = false ->
  have_archive s = false -> status (capture_job s) = IN_PROGRESS ->
  exists s', run_capture e s = (Done tt, s') /\
    status (capture_job s') = FAILED /\
    archives s' = archives s.
Proof.
  intros Hval Hd Hc Hs Hend Hexit Hfile Hha Hst.
  destruct (capture_caught e url s Hval Hd Hc Hs Hend Hexit)
    as (s1 & E1 & Hcl1 & Hco1 & Hha1 & Har1 & Hid1 & Hst1).
  rewrite Hfile, Hha in Hha1. simpl in Hha1.
  unfold run_capture, try_finally. rewrite E1.
  unfold try_except, finalize. unfold bind at 1.
  destruct (release_frame e s1) as (r & s2 & E2 & F2 & _).
  rewrite E2. destruct F2 as (Hcl2 & Hco2 & Hha2 & Har2 & Hid2 & Hst2).
  destruct s2 as [t a tr j cl co ha]. simpl in *.
  destruct r as [[]|x]; unfold bind, get_state; simpl;
    rewrite ?Hha2, ?Hha1; simpl;
    unfold safety_net, bind, get_state, when; simpl;
    rewrite Hst2, Hst1, Hst; simpl;
    (eexists; split; [reflexivity|]; simpl; split; [reflexivity|congruence]).
Qed.

(** C4 as stated fails: the container exits with 1, the output file
    exists, and the upload raises; the job ends Failed and no archive row
    is created. *)
Lemma salvage_lost_when_upload_fails :
  let e := scenario (Exited (Some 1)) true (fun _ => Raises OtherException) in
  let '(r, t', a', tr) := run_next_capture e (one_pending "example.com") [] in
  exit_code (life_cycle_run e) = Some 1 /\ isfile_outputfile e = true /\
  r = Done tt /\ option_map status (get 1 t') = Some FAILED /\ a' = [].
Proof. vm_compute. repeat split. Qed.

(** C4, as the task has it.  The job is valid, the container is created,
    started and streamed to its end, and the life-cycle thread is joined
    with an exit code other than 0.  If the output file exists and no step
    of the clean-up (container removal, client close) or of the finalize
    (hash, size, upload, URL and its expiry) raises, the job ends Completed
    and one archive row is created for it, with the hash, the algorithm,
    the size and the download URL obtained.  If the output file does not
    exist, the job ends Failed and no archive row is created. *)
Theorem nonzero_exit_salvage e t a job t2 url
    (Hwf : wf_table t)
    (Hres : Queue.get_next_job (now e)
              (Reaper.clean_up_failed_captures (now e) (reap_time e) t) = (Some job, t2))
    (Hval : Utils.validate_and_clean_url (requested_url job) = inr url)
    (Hd : docker_from_env e = Done tt)
    (Hc : containers_create e = Done tt)
    (Hs : container_start e = Done tt)
    (Hend : stdout_stream_end e = Done tt)
    (Hexit : exit_code (life_cycle_run e) <> Some 0) :
  (isfile_outputfile e = true ->
   container_remove e = Done tt -> client_close e = Done tt ->
   forall h alg name u exp,
     get_file_hash e = Done (h, alg) -> rest_of_file_empty e = true ->
     storage_save e (filename e) = Done name ->
     storage_url e name = Done u -> download_expires e u = Done exp ->
     exists t' tr job',
       run_next_capture e t a =
         (Done tt, t',
          a ++ [mkArchive (id job) h alg (file_tell e) u exp], tr) /\
       get (id job) t' = Some job' /\ status job' = COMPLETED) /\
  (isfile_outputfile e = false ->
   exists t' tr job',
     run_next_capture e t a = (Done tt, t', a, tr) /\
     get (id job) t' = Some job' /\ status job' = FAILED).
Proof.
  destruct (run_reserved e t a job t2 Hwf Hres)
    as (s & Hrun & Hs' & (_ & (row & Hrow & Hsync) & _)).
  destruct (start_inv (now e) _ job t2 a
              (ReaperFacts.wf_clean_up (now e) (reap_time e) t Hwf) Hres) as [_ Hst0].
  split.
  - intros Hfile Hrm Hcl h alg name u exp Hh Hrest Hsave Hurl Hexp.
    destruct (salvage_completes e url (start t2 a job) h alg name u exp
                Hval Hd Hc Hs Hend Hexit Hfile Hrm Hcl Hh Hrest Hsave Hurl
                Hexp) as (s' & E & Hst & Har).
    rewrite E in Hs'. simpl in Hs'. subst s'.
    exists (db s), (trace s ++ [ApplyAsync "run_next_capture"]), row.
    rewrite Hrun, Har, Hsync, Hst. auto.
  - intros Hfile.
    destruct (no_artifact_fails e url (start t2 a job)
                Hval Hd Hc Hs Hend Hexit Hfile eq_refl Hst0)
      as (s' & E & Hst & Har).
    rewrite E in Hs'. simpl in Hs'. subst s'.
    exists (db s), (trace s ++ [ApplyAsync "run_next_capture"]), row.
    rewrite Hrun, Har, Hsync, Hst. auto.
Qed.

(** The theorem of C4 where the container exits with 1 and leaves its
    output file behind. *)
Lemma nonzero_exit_salvage_witness :
  let e := scenario (Exited (Some 1)) true (fun name => Done name) in
  wf_table (one_pending "example.com") /\
  exit_code (life_cycle_run e) <> Some 0 /\
  exists t' tr job',
    run_next_capture e (one_pending "example.com") [] =
      (Done tt, t',
       [mkArchive 1 "9a0b" "sha256" 2048
          "https://storage/6f1c.wacz?Expires=2000" 2000], tr) /\
    get 1 t' = Some job' /\ status job' = COMPLETED.
Proof.
  split; [apply wf_one_pending|]. split; [discriminate|].
  exact (proj1 (nonzero_exit_salvage
                  (scenario (Exited (Some 1)) true (fun name => Done name))
                  (one_pending "example.com") [] _ _ "http://example.com"
                  (wf_one_pending "example.com") eq_refl eq_refl eq_refl
                  eq_refl eq_refl eq_refl ltac:(discriminate))
           eq_refl eq_refl eq_refl "9a0b" "sha256" "6f1c.wacz"
           "https://storage/6f1c.wacz?Expires=2000" 2000
           eq_refl eq_refl eq_refl eq_refl eq_refl).
Defined.

(** *** Invalid URLs *)

(** The run on a job whose URL the validator rejects, in full. *)
Lemma invalid_run e t a job t2 msgs :
  Queue.get_next_job (now e) (Reaper.clean_up_failed_captures (now e) (reap_time e) t) =
    (Some job, t2) ->
  Utils.validate_and_clean_url (requested_url job) = inl msgs ->
  run_next_capture e t a =
    (Done tt,
     save (mark_invalid (end_time e) [("requested_url", msgs)]
             (Models.inc_progress 0 "Validating." job))
       (save (Models.inc_progress 0 "Validating." job) t2),
     a,
     [LogProgress (step_count job + 0) "Validating.";
      LogInfo "HaltCaptureException thrown.";
      LogInfo "Capture failed.";
      ApplyAsync "run_next_capture"]).
Proof.
  intros Hres Hval. unfold run_next_capture. rewrite Hres.
  unfold bind at 1. unfold run_capture, try_finally, try_except.
  unfold capture. unfold bind at 1. unfold validate, bind, inc_progress.
  run. rewrite Hval. run. reflexivity.
Qed.

(** C6.  A reserved job whose requested URL is empty, malformed, has a
    control character, or is written with a scheme other than http or
    https, ends Invalid, with the messages of the validator (there is at
    least one) under "requested_url", with its step count where it was (the
    validating step advances it by 0, so 0 for a job submitted at 0), and
    without any call to the container runtime.  These are exactly the URLs
    the validator rejects; every other URL it accepts, and gives back
    trimmed (a run of white space taken off each end, none left there),
    with "http://" in front when it is written without a scheme and as it
    is when it is written with one: an http or https URL, so
    "  example.com  " validates to "http://example.com". *)
Theorem invalid_url_never_launches e t a job t2
    (Hwf : wf_table t)
    (Hres : Queue.get_next_job (now e)
              (Reaper.clean_up_failed_captures (now e) (reap_time e) t) =
            (Some job, t2))
    (Hbad : UrlSpec.Rejected (requested_url job)) :
  (exists msgs t' tr job',
     Utils.validate_and_clean_url (requested_url job) = inl msgs /\
     msgs <> [] /\
     run_next_capture e t a = (Done tt, t', a, tr) /\
     get (id job) t' = Some job' /\
     status job' = INVALID /\
     message job' = [("requested_url", msgs)] /\
     step_count job' = step_count job /\
     (step_count job = 0%nat -> step_count job' = 0%nat) /\
     step_description job' = "Validating." /\
     validated_url job' = validated_url job /\
     forallb (fun ev => negb (launches ev)) tr = true) /\
  Utils.validate_and_clean_url "  example.com  " = inr "http://example.com" /\
  (forall u, exists a b,
     u = (a ++ Utils.strip u ++ b)%string /\
     UrlSpec.blank a /\ UrlSpec.blank b /\ UrlSpec.trimmed (Utils.strip u)) /\
  (forall u,
     UrlSpec.Rejected u <->
     exists m, Utils.validate_and_clean_url u = inl m /\ m <> []) /\
  (forall u, ~ UrlSpec.Rejected u ->
     Utils.validate_and_clean_url u =
       inr (Utils.with_scheme (Utils.strip u))) /\
  (forall u v, Utils.validate_and_clean_url u = inr v ->
     v = Utils.with_scheme (Utils.strip u) /\
     ((forall name rest, ~ UrlSpec.Scheme (Utils.strip u) name rest) ->
      v = ("http://" ++ Utils.strip u)%string) /\
     (forall name rest, UrlSpec.Scheme (Utils.strip u) name rest ->
      v = Utils.strip u) /\
     UrlSpec.HttpUrl v).
Proof.
  assert (Hrej : forall u,
            UrlSpec.Rejected u <->
            exists m, Utils.validate_and_clean_url u = inl m /\ m <> []).
  { intros u. rewrite UtilsFacts.rejected_iff. split.
    - intros [m Hm]. exists m. split; [exact Hm|].
      eapply UtilsFacts.validate_messages; eauto.
    - intros (m & Hm & _). eauto. }
  split; [|split; [reflexivity|split;
    [exact UtilsFacts.strip_trims|split; [exact Hrej|split]]]].
  - apply Hrej in Hbad. destruct Hbad as (msgs & Hval & Hne).
    destruct (get_next_job_some _ _ job t2
                (ReaperFacts.wf_clean_up (now e) (reap_time e) t Hwf) Hres)
      as (j & _ & _ & _ & Hget & _).
    exists msgs. do 2 eexists.
    exists (mark_invalid (end_time e) [("requested_url", msgs)]
              (Models.inc_progress 0 "Validating." job)).
    split; [exact Hval|]. split; [exact Hne|].
    split; [apply (invalid_run e t a job t2 msgs Hres Hval)|].
    split.
    { apply get_save with (r := Models.inc_progress 0 "Validating." job);
        [reflexivity|].
      apply get_save with (r := job); [reflexivity|exact Hget]. }
    simpl. repeat split; auto using Nat.add_0_r.
    intros H0. now rewrite H0.
  - intros u Hu.
    destruct (Utils.validate_and_clean_url u) as [m|v] eqn:Hv.
    + exfalso. apply Hu, UtilsFacts.rejected_iff. eauto.
    + apply UtilsFacts.validator_accepts in Hv. destruct Hv as [-> _].
      reflexivity.
  - intros u v Hv. apply UtilsFacts.validator_accepts in Hv.
    destruct Hv as (-> & _ & _ & Hu).
    split; [reflexivity|]. split; [apply UtilsFacts.with_scheme_omitted|].
    split; [apply UtilsFacts.with_scheme_written|exact Hu].
Qed.

(** The theorem of C6 at an invalid URL of the doctest of the task, which
    is written with the scheme "file". *)
Lemma invalid_url_never_launches_witness :
  wf_table (one_pending "file:///etc/passwd") /\
  UrlSpec.Rejected "file:///etc/passwd" /\
  exists msgs t' tr job',
    Utils.validate_and_clean_url "file:///etc/passwd" = inl msgs /\
    run_next_capture calm (one_pending "file:///etc/passwd") [] =
      (Done tt, t', [], tr) /\
    get 1 t' = Some job' /\ status job' = INVALID /\
    message job' = [("requested_url", msgs)] /\
    step_count job' = 0%nat.
Proof.
  assert (Hbad : UrlSpec.Rejected "file:///etc/passwd").
  { right. right. right. exists "file", "///etc/passwd".
    repeat split; discriminate. }
  split; [apply wf_one_pending|]. split; [exact Hbad|].
  destruct (proj1 (invalid_url_never_launches calm
                     (one_pending "file:///etc/passwd") [] _ _
                     (wf_one_pending "file:///etc/passwd") eq_refl Hbad))
    as (msgs & t' & tr & job' & Hval & _ & Hrun & Hget & Hst & Hmsg & Hsc & _).
  exists msgs, t', tr, job'. repeat split; assumption.
Defined.

(** The invalid URLs of the doctest of the task are all rejected, and its
    two valid ones are cleaned as it says. *)
Example doctest_invalid_urls :
  map (fun u => match Utils.validate_and_clean_url u with
                | inl _ => true
                | inr _ => false
                end)
    [""; "examplecom";
     ("https://www.ntanet.org/some-article.pdf" ++
      String (ascii_of_nat 1) "")%string;
     "file:///etc/passwd"] = [true; true; true; true] /\
  Utils.validate_and_clean_url "   http://example.com   " =
    inr "http://example.com" /\
  Utils.validate_and_clean_url "example.com" = inr "http://example.com".
Proof. repeat split. Qed.

(** More URLs of each kind: schemes written without "//", hosts that are
    no host names, a control character that is also white space, white
    space inside; and URLs written without a scheme that have a colon
    further on. *)
Example more_urls :
  map Utils.validate_and_clean_url
    ["mailto:a@b.c"; "javascript:alert(document.domain)"; "ftp://example.com";
     "http://..."; "http://exa<>mple.com"; "http://-a.com"; "http:example.com";
     ("example.com" ++ String (ascii_of_nat 31) "")%string;
     "http://example.com/a b"; "   "] =
  [inl ["Not a valid URL."]; inl ["Not a valid URL."]; inl ["Not a valid URL."];
   inl ["Not a valid URL."]; inl ["Not a valid URL."]; inl ["Not a valid URL."];
   inl ["Not a valid URL."]; inl ["Not a valid URL."]; inl ["Not a valid URL."];
   inl ["URL cannot be empty."]] /\
  map Utils.validate_and_clean_url
    ["example.com/path?next=http://a.b"; "example.com:8080/x";
     "HTTPS://Example.com"; "http://user:pw@example.com:80/"] =
  [inr "http://example.com/path?next=http://a.b";
   inr "http://example.com:8080/x";
   inr "HTTPS://Example.com"; inr "http://user:pw@example.com:80/"].
Proof. split; reflexivity. Qed.

End OrchestratorFacts.

(* ----------------------------------------------------------------- *)
(** ** The queue: fairness *)

Module QueueFacts.
Import Models Queue ModelsFacts QueueBasics ModelsSpec QueueSpec.

(** *** Times *)

Lemma latest_bound t j :
  In j t ->
  created_at j <= latest t /\
  forall s, capture_start_time j = Some s -> s <= latest t.
Proof.
  induction t as [|x t IH]; simpl; [tauto|].
  intros [->|Hin].
  - split; [lia|]. intros s Hs. rewrite Hs. lia.
  - destruct (IH Hin) as [H1 H2]. split; [lia|].
    intros s Hs. specialize (H2 s Hs). lia.
Qed.

Lemma ascending_ticks n : forall now, ascending now (ticks n now).
Proof.
  induction n as [|n IH]; intros now; simpl; [exact I|].
  split; [lia|apply IH].
Qed.

Lemma length_ticks n : forall now, List.length (ticks n now) = n.
Proof. induction n as [|n IH]; intros now; simpl; [reflexivity|]. now rewrite IH. Qed.

(** *** One reservation, seen on the rows *)

Lemma claim_rows now k t : snd (claim now k t) = map (claim_row now k) t.
Proof. reflexivity. Qed.

Lemma claim_other now k l :
  (forall r, In r l -> id r <> k) -> map (claim_row now k) l = l.
Proof.
  intros H. rewrite <- (map_id l) at 2. apply map_ext_in.
  intros r Hr. unfold claim_row.
  destruct (Nat.eqb_spec (id r) k) as [E|E]; [|reflexivity].
  now apply H in Hr.
Qed.

(** The table splits around the reserved row, and only that row changes. *)
Lemma claim_split now t j :
  wf_table t -> In j t -> is_pending j = true ->
  exists l1 l2, t = l1 ++ j :: l2 /\
    snd (claim now (id j) t) = l1 ++ reserve now j :: l2 /\
    (forall r, In r (l1 ++ l2) -> id r <> id j).
Proof.
  intros Hwf Hin Hp. destruct (in_split j t Hin) as (l1 & l2 & ->).
  assert (Hother : forall r, In r (l1 ++ l2) -> id r <> id j).
  { intros r Hr E. unfold wf_table in Hwf. rewrite map_app in Hwf.
    simpl in Hwf. apply NoDup_remove_2 in Hwf. apply Hwf.
    rewrite <- map_app, <- E. now apply in_map. }
  exists l1, l2. split; [reflexivity|]. split; [|exact Hother].
  rewrite claim_rows, map_app. simpl.
  rewrite !claim_other by (intros r Hr; apply Hother, in_app_iff; auto).
  unfold claim_row at 1. now rewrite Nat.eqb_refl, Hp.
Qed.

(** *** The selection *)

(** [first_min] returns the first element among those of least key. *)
Lemma first_min_spec key l m :
  first_min key l = Some m ->
  exists l1 l2, l = l1 ++ m :: l2 /\
    (forall x, In x l1 -> key m < key x) /\
    (forall x, In x l2 -> key m <= key x).
Proof.
  revert m. induction l as [|x l IH]; simpl; [discriminate|].
  intros m. destruct (first_min key l) as [m'|] eqn:E.
  - destruct (IH m' eq_refl) as (l1 & l2 & -> & H1 & H2).
    destruct (Z.ltb_spec (key m') (key x)) as [Hlt|Hge]; intros [= <-].
    + exists (x :: l1), l2. split; [reflexivity|].
      split; [|exact H2]. intros y [<-|Hy]; auto.
    + exists [], (l1 ++ m' :: l2). split; [reflexivity|].
      split; [intros y []|]. intros y Hy. apply in_app_iff in Hy.
      destruct Hy as [Hy|[<-|Hy]].
      * specialize (H1 y Hy). lia.
      * exact Hge.
      * specialize (H2 y Hy). lia.
  - intros [= <-]. apply first_min_none in E. subst l.
    exists [], []. split; [reflexivity|]. split; intros y [].
Qed.

(** The selection only looks at how the keys compare. *)
Lemma first_min_ext key1 key2 l :
  (forall a b, In a l -> In b l ->
     (key1 a <? key1 b) = (key2 a <? key2 b)) ->
  first_min key1 l = first_min key2 l.
Proof.
  induction l as [|x l IH]; intros H; simpl; [reflexivity|].
  rewrite <- IH by (intros a b Ha Hb; apply H; now right).
  destruct (first_min key1 l) as [m|] eqn:E; [|reflexivity].
  apply first_min_in in E.
  rewrite <- (H m x) by (simpl; auto). reflexivity.
Qed.

(** *** Keys *)

Lemma fold_max_bound c l now :
  c < now -> (forall x, In x l -> x < now) -> fold_right Z.max c l < now.
Proof.
  intros Hc. induction l as [|x l IH]; simpl; intros H; [exact Hc|].
  assert (x < now) by (apply H; now left).
  assert (fold_right Z.max c l < now) by (apply IH; intros y Hy; apply H; now right).
  lia.
Qed.

Lemma fold_max_top c l now :
  c <= now -> In now l -> (forall x, In x l -> x <= now) ->
  fold_right Z.max c l = now.
Proof.
  intros Hc. induction l as [|x l IH]; simpl; intros Hin H; [contradiction|].
  assert (Hx : x <= now) by (apply H; now left).
  assert (Hle : fold_right Z.max c l <= now).
  { clear IH Hin. induction l as [|y l IHl]; simpl; [exact Hc|].
    assert (y <= now) by (apply H; right; now left).
    assert (fold_right Z.max c l <= now).
    { apply IHl. intros z [<-|Hz]; apply H; [now left|right; now right]. }
    lia. }
  destruct Hin as [->|Hin]; [lia|].
  rewrite IH; [lia|exact Hin|intros y Hy; apply H; now right].
Qed.

Lemma served_times_app u l1 l2 :
  served_times u (l1 ++ l2) = served_times u l1 ++ served_times u l2.
Proof. unfold served_times. apply flat_map_app. Qed.

Lemma pending_human_app l1 l2 :
  pending_human (l1 ++ l2) = pending_human l1 ++ pending_human l2.
Proof. unfold pending_human. apply filter_app. Qed.

Lemma pending_robot_app l1 l2 :
  pending_robot (l1 ++ l2) = pending_robot l1 ++ pending_robot l2.
Proof. unfold pending_robot. apply filter_app. Qed.

Lemma served_times_before now u t x :
  before now t -> In x (served_times u t) -> x < now.
Proof.
  intros Hb Hx. unfold served_times in Hx. apply in_flat_map in Hx.
  destruct Hx as (j & Hj & Hx). destruct (Hb j Hj) as [_ H].
  destruct (Nat.eqb (user_id j) u && human j); [|contradiction].
  destruct (capture_start_time j) as [s|]; [|contradiction].
  destruct Hx as [<-|[]]. now apply H.
Qed.

Lemma pending_human_in t j :
  In j (pending_human t) <->
  In j t /\ is_pending j = true /\ human j = true.
Proof.
  unfold pending_human. rewrite filter_In, andb_true_iff. tauto.
Qed.

Lemma pending_robot_in t j :
  In j (pending_robot t) <->
  In j t /\ is_pending j = true /\ human j = false.
Proof.
  unfold pending_robot. rewrite filter_In, andb_true_iff, negb_true_iff. tauto.
Qed.

(** The key of a user with a pending human job is a timestamp of the
    table. *)
Lemma job_key_before now t a :
  before now t -> In a (pending_human t) -> job_key t a < now.
Proof.
  intros Hb Ha. unfold job_key, rotation_key, oldest_pending.
  destruct (find _ (pending_human t)) as [o|] eqn:E.
  - apply find_some in E. destruct E as [Ho _].
    apply pending_human_in in Ho. destruct Ho as [Ho _].
    apply fold_max_bound.
    + now apply Hb.
    + intros x. now apply served_times_before.
  - exfalso. apply (find_none _ _ E) in Ha. now rewrite Nat.eqb_refl in Ha.
Qed.

Lemma wf_nodup t : wf_table t -> NoDup t.
Proof. unfold wf_table. apply NoDup_map_inv. Qed.

(** In a list without repetition an element splits the list in one way. *)
Lemma split_unique (j : CaptureJob) A : forall B L1 L2,
  NoDup (A ++ j :: B) -> A ++ j :: B = L1 ++ j :: L2 -> A = L1 /\ B = L2.
Proof.
  induction A as [|x A IH]; intros B L1 L2 Hnd E.
  - destruct L1 as [|y L1]; simpl in E.
    + injection E as <-. auto.
    + injection E as <- ->. exfalso. simpl in Hnd.
      inversion Hnd as [|? ? Hnotin _]; subst. apply Hnotin.
      apply in_app_iff. right. now left.
  - destruct L1 as [|y L1]; simpl in E.
    + injection E as -> <-. exfalso. simpl in Hnd.
      inversion Hnd as [|? ? Hnotin _]; subst. apply Hnotin.
      apply in_app_iff. right. now left.
    + injection E as <- E. simpl in Hnd. inversion Hnd; subst.
      destruct (IH B L1 L2) as [-> ->]; auto.
Qed.

(** *** One turn of the rotation *)

Lemma find_skip (f : CaptureJob -> bool) j A B :
  f j = false -> find f (A ++ j :: B) = find f (A ++ B).
Proof.
  intros Hj. induction A as [|x A IH]; simpl.
  - now rewrite Hj.
  - now rewrite IH.
Qed.

Lemma next_job_human t j :
  next_job t = Some j -> human j = true -> next_human t = Some j.
Proof.
  unfold next_job. destruct (next_human t) as [m|]; [auto|].
  intros Hhd Hh. exfalso.
  destruct (pending_robot t) as [|r l] eqn:E; simpl in Hhd; [discriminate|].
  injection Hhd as ->.
  assert (Hin : In j (pending_robot t)) by (rewrite E; now left).
  apply pending_robot_in in Hin. destruct Hin as (_ & _ & Hr). congruence.
Qed.

Lemma next_job_robot t j :
  next_job t = Some j -> human j = false ->
  pending_human t = [] /\ exists B, pending_robot t = j :: B.
Proof.
  unfold next_job, next_human.
  destruct (first_min (job_key t) (pending_human t)) as [m|] eqn:E.
  - intros [= <-] Hh. apply first_min_in, pending_human_in in E.
    destruct E as (_ & _ & E). congruence.
  - apply first_min_none in E. intros Hhd _. split; [exact E|].
    destruct (pending_robot t) as [|r l]; simpl in Hhd; [discriminate|].
    injection Hhd as ->. eauto.
Qed.

(** A turn that serves a human job [j]: [j] is the oldest pending job of
    its user and no pending human job has a smaller key; afterwards [j] has
    left the queue, its user has the key [now], and the keys of the other
    users are what they were. *)
Lemma human_turn now t j :
  wf_table t -> before now t -> next_job t = Some j -> human j = true ->
  exists A B,
    pending_human t = A ++ j :: B /\
    pending_human (snd (claim now (id j) t)) = A ++ B /\
    pending_robot (snd (claim now (id j) t)) = pending_robot t /\
    (forall x, In x A -> user_id x <> user_id j) /\
    (forall x, In x (pending_human t) -> job_key t j <= job_key t x) /\
    (forall a, In a (A ++ B) -> user_id a <> user_id j ->
       job_key (snd (claim now (id j) t)) a = job_key t a) /\
    (forall a, In a (A ++ B) -> user_id a = user_id j ->
       job_key (snd (claim now (id j) t)) a = now).
Proof.
  intros Hwf Hb Hnext Hh.
  destruct (next_job_pending t j Hnext) as [Hin Hp].
  pose proof (next_job_human t j Hnext Hh) as Hmin.
  destruct (first_min_spec _ _ _ Hmin) as (L1 & L2 & HL & Hlt & Hle).
  destruct (claim_split now t j Hwf Hin Hp) as (l1 & l2 & Ht & Ht' & Hids).
  assert (Hph : pending_human t = pending_human l1 ++ j :: pending_human l2).
  { rewrite Ht, pending_human_app. f_equal.
    unfold pending_human. simpl. now rewrite Hp, Hh. }
  assert (Hnd : NoDup (pending_human t)).
  { unfold pending_human. apply NoDup_filter, wf_nodup, Hwf. }
  rewrite Hph in HL, Hnd.
  destruct (split_unique _ _ _ _ _ Hnd HL) as [HA HB].
  exists (pending_human l1), (pending_human l2).
  assert (Hph' : pending_human (snd (claim now (id j) t)) =
                 pending_human l1 ++ pending_human l2).
  { rewrite Ht', pending_human_app. reflexivity. }
  assert (Hsub : forall a, In a (pending_human l1 ++ pending_human l2) ->
                   In a (pending_human t)).
  { intros a Ha. rewrite Hph. apply in_app_iff in Ha. apply in_app_iff.
    destruct Ha; [left|right; right]; assumption. }
  split; [exact Hph|]. split; [exact Hph'|]. split; [|split; [|split; [|split]]].
  - rewrite Ht', Ht, !pending_robot_app. f_equal.
    unfold pending_robot. simpl. rewrite Hh. simpl.
    rewrite andb_false_r. reflexivity.
  - intros x Hx Hu. rewrite HA in Hx. specialize (Hlt x Hx).
    unfold job_key in Hlt. rewrite Hu in Hlt. lia.
  - intros x Hx. rewrite Hph, HA, HB in Hx. apply in_app_iff in Hx.
    destruct Hx as [Hx|[<-|Hx]].
    + specialize (Hlt x Hx). lia.
    + lia.
    + now apply Hle.
  - intros a Ha Hu. unfold job_key, rotation_key, oldest_pending.
    rewrite Hph', Hph.
    rewrite (find_skip (fun x => Nat.eqb (user_id x) (user_id a)) j)
      by (apply Nat.eqb_neq; congruence).
    destruct (find _ _) as [o|]; [|reflexivity].
    f_equal. rewrite Ht', Ht, !served_times_app. f_equal.
    unfold served_times. simpl.
    replace (Nat.eqb (user_id j) (user_id a)) with false
      by (symmetry; apply Nat.eqb_neq; congruence).
    reflexivity.
  - intros a Ha Hu. unfold job_key, rotation_key, oldest_pending.
    rewrite Hph', Hu.
    destruct (find _ _) as [o|] eqn:E.
    + apply find_some in E. destruct E as [Ho _].
      apply Hsub, pending_human_in in Ho. destruct Ho as [Ho _].
      apply fold_max_top.
      * destruct (Hb o Ho) as [H1 _]. lia.
      * rewrite Ht', served_times_app. apply in_app_iff. right.
        unfold served_times. simpl. rewrite Nat.eqb_refl, Hh. now left.
      * intros x Hx. rewrite Ht', served_times_app in Hx.
        apply in_app_iff in Hx.
        assert (Hb1 : forall y, In y (served_times (user_id j) l1) -> y < now).
        { intros y Hy. apply (served_times_before now (user_id j) t); auto.
          rewrite Ht, served_times_app. apply in_app_iff. now left. }
        assert (Hb2 : forall y, In y (served_times (user_id j) l2) -> y < now).
        { intros y Hy. apply (served_times_before now (user_id j) t); auto.
          rewrite Ht, served_times_app. apply in_app_iff. right.
          change (j :: l2) with ([j] ++ l2). rewrite served_times_app.
          apply in_app_iff. now right. }
        destruct Hx as [Hx|Hx]; [specialize (Hb1 x Hx); lia|].
        change (reserve now j :: l2) with ([reserve now j] ++ l2) in Hx.
        rewrite served_times_app in Hx. apply in_app_iff in Hx.
        destruct Hx as [Hx|Hx]; [|specialize (Hb2 x Hx); lia].
        unfold served_times in Hx. simpl in Hx.
        rewrite Nat.eqb_refl, Hh in Hx. simpl in Hx.
        destruct Hx as [<-|[]]. lia.
    + exfalso. apply (find_none _ _ E) in Ha.
      rewrite Hu, Nat.eqb_refl in Ha. discriminate.
Qed.

(** A turn that serves a robot job: no human job is pending, and the job
    is the head of the robot queue. *)
Lemma robot_turn now t j :
  wf_table t -> next_job t = Some j -> human j = false ->
  pending_human t = [] /\
  pending_human (snd (claim now (id j) t)) = [] /\
  exists B, pending_robot t = j :: B /\
    pending_robot (snd (claim now (id j) t)) = B.
Proof.
  intros Hwf Hnext Hh.
  destruct (next_job_pending t j Hnext) as [Hin Hp].
  destruct (next_job_robot t j Hnext Hh) as (Hnone & B & HB).
  destruct (claim_split now t j Hwf Hin Hp) as (l1 & l2 & Ht & Ht' & Hids).
  assert (Hpr : pending_robot t = pending_robot l1 ++ j :: pending_robot l2).
  { rewrite Ht, pending_robot_app. f_equal.
    unfold pending_robot. simpl. now rewrite Hp, Hh. }
  assert (Hnd : NoDup (pending_robot t)).
  { unfold pending_robot. apply NoDup_filter, wf_nodup, Hwf. }
  rewrite Hpr in HB, Hnd.
  destruct (split_unique _ _ _ [] B Hnd HB) as [HA HB'].
  split; [exact Hnone|]. split.
  - rewrite Ht', pending_human_app. rewrite Ht, pending_human_app in Hnone.
    apply app_eq_nil in Hnone. destruct Hnone as [-> H2].
    unfold pending_human in *. simpl in *. unfold is_pending in *. simpl.
    rewrite Hh, andb_false_r in H2. exact H2.
  - exists B. split; [now rewrite Hpr|].
    rewrite Ht', pending_robot_app, HA. simpl.
    unfold pending_robot. simpl. unfold is_pending. simpl. exact HB'.
Qed.

(** *** Successive reservations *)

Lemma upto_latest t : upto (latest t) t.
Proof. intros j Hj. now apply latest_bound. Qed.

Lemma upto_before lo now t : upto lo t -> lo < now -> before now t.
Proof.
  intros Hu Hlt j Hj. destruct (Hu j Hj) as [H1 H2]. split; [lia|].
  intros s Hs. specialize (H2 s Hs). lia.
Qed.

Lemma upto_claim lo now k t :
  upto lo t -> lo < now -> upto now (snd (claim now k t)).
Proof.
  intros Hu Hlt r Hr. rewrite claim_rows in Hr.
  apply in_map_iff in Hr. destruct Hr as (x & <- & Hx).
  destruct (Hu x Hx) as [H1 H2]. unfold claim_row.
  destruct (Nat.eqb (id x) k && is_pending x); simpl.
  - split; [lia|]. intros s [= <-]. lia.
  - split; [lia|]. intros s Hs. specialize (H2 s Hs). lia.
Qed.

Lemma get_next_job_eq now t j :
  wf_table t -> next_job t = Some j ->
  get_next_job now t = (Some (reserve now j), snd (claim now (id j) t)).
Proof.
  intros Hwf Hnext.
  destruct (get_next_job now t) as [[job|] t'] eqn:E.
  - destruct (get_next_job_some now t job t' Hwf E)
      as (j' & Hj' & -> & -> & _).
    rewrite Hnext in Hj'. now injection Hj' as <-.
  - apply get_next_job_none in E. destruct E as [E _]. congruence.
Qed.

Lemma next_job_none t : next_job t = None <-> waiting t = [].
Proof.
  unfold next_job, next_human, waiting. split.
  - destruct (first_min _ _) as [m|] eqn:E; [discriminate|].
    apply first_min_none in E. rewrite E. simpl.
    destruct (pending_robot t); [reflexivity|discriminate].
  - intros H. apply app_eq_nil in H. destruct H as [-> ->]. reflexivity.
Qed.

(** When every call finds a job, the calls return the selected rows,
    reserved. *)
Lemma drain_picks nows : forall t,
  wf_table t -> List.length (picks nows t) = List.length nows ->
  fst (drain nows t) = reserved_at nows (picks nows t).
Proof.
  induction nows as [|now nows IH]; intros t Hwf Hlen; [reflexivity|].
  simpl in Hlen |- *. destruct (next_job t) as [j|] eqn:E; [|discriminate].
  rewrite (get_next_job_eq now t j Hwf E).
  specialize (IH (snd (claim now (id j) t)) (wf_claim now (id j) t Hwf)).
  destruct (drain nows (snd (claim now (id j) t))) as [js t''].
  simpl in *. unfold reserved_at. simpl. f_equal. apply IH. lia.
Qed.

Lemma filter_none (f : CaptureJob -> bool) l :
  (forall x, In x l -> f x = false) -> filter f l = [].
Proof.
  induction l as [|x l IH]; intros H; simpl; [reflexivity|].
  rewrite (H x) by now left. apply IH. intros y Hy. apply H. now right.
Qed.

(** Running the queue to its end serves every waiting job once: the human
    jobs first, each user's jobs in the order of their submission, then
    the robot jobs in the order of theirs. *)
Lemma picks_waiting nows : forall t lo,
  wf_table t -> upto lo t -> ascending lo nows ->
  List.length nows = List.length (waiting t) ->
  exists hs,
    picks nows t = hs ++ pending_robot t /\
    Permutation hs (pending_human t) /\
    forall u, filter (by_user u) hs = filter (by_user u) (pending_human t).
Proof.
  induction nows as [|now nows IH]; intros t lo Hwf Hup Hasc Hlen.
  - symmetry in Hlen. apply length_zero_iff_nil, app_eq_nil in Hlen.
    destruct Hlen as [Hh Hr]. exists []. rewrite Hh, Hr. simpl. auto.
  - destruct Hasc as [Hlt Hasc]. cbn [picks].
    destruct (next_job t) as [j|] eqn:E;
      [|apply next_job_none in E; rewrite E in Hlen; discriminate].
    pose proof (wf_claim now (id j) t Hwf) as Hwf'.
    pose proof (upto_claim lo now (id j) t Hup Hlt) as Hup'.
    destruct (human j) eqn:Hh.
    + destruct (human_turn now t j Hwf (upto_before lo now t Hup Hlt) E Hh)
        as (A & B & HAB & HAB' & Hrob & Hold & _).
      destruct (IH _ now Hwf' Hup' Hasc) as (hs & Hp & Hperm & Hfifo).
      { unfold waiting in *. rewrite HAB', Hrob.
        rewrite HAB in Hlen. rewrite !length_app in *. simpl in Hlen. lia. }
      exists (j :: hs). rewrite Hp, Hrob. split; [reflexivity|]. split.
      * rewrite HAB. apply Permutation_cons_app. now rewrite <- HAB'.
      * intros u. simpl. rewrite Hfifo, HAB', HAB, !filter_app. simpl.
        destruct (by_user u j) eqn:Eu; [|reflexivity].
        apply Nat.eqb_eq in Eu.
        rewrite (filter_none (by_user u) A); [reflexivity|].
        intros x Hx. apply Nat.eqb_neq. rewrite <- Eu. now apply Hold.
    + destruct (robot_turn now t j Hwf E Hh) as (Hnone & Hnone' & B & HB & HB').
      destruct (IH _ now Hwf' Hup' Hasc) as (hs & Hp & Hperm & Hfifo).
      { unfold waiting in *. rewrite Hnone', HB'.
        rewrite Hnone, HB in Hlen. simpl in *. lia. }
      rewrite Hnone' in Hperm. apply Permutation_sym, Permutation_nil in Hperm.
      subst hs.
      exists []. rewrite Hp, HB', HB, Hnone. simpl. auto.
Qed.

(** *** The order does not depend on the times of the calls *)

Lemma same_rotation_next t1 t2 :
  same_rotation t1 t2 -> next_job t1 = next_job t2.
Proof.
  intros (Hh & Hr & Hk). unfold next_job, next_human.
  rewrite <- Hh, <- Hr.
  now rewrite (first_min_ext (job_key t1) (job_key t2) _ Hk).
Qed.

Lemma same_rotation_turn now1 now2 t1 t2 j :
  wf_table t1 -> wf_table t2 -> before now1 t1 -> before now2 t2 ->
  same_rotation t1 t2 -> next_job t1 = Some j ->
  same_rotation (snd (claim now1 (id j) t1)) (snd (claim now2 (id j) t2)).
Proof.
  intros Hwf1 Hwf2 Hb1 Hb2 Hsame Hn1.
  pose proof Hn1 as Hn2. rewrite (same_rotation_next _ _ Hsame) in Hn2.
  destruct Hsame as (Hh & Hr & Hk).
  destruct (human j) eqn:Hhj.
  - destruct (human_turn now1 t1 j Hwf1 Hb1 Hn1 Hhj)
      as (A & B & HAB & HAB' & Hrob & _ & _ & Hkeep & Htop).
    destruct (human_turn now2 t2 j Hwf2 Hb2 Hn2 Hhj)
      as (A2 & B2 & HAB2 & HAB2' & Hrob2 & _ & _ & Hkeep2 & Htop2).
    assert (Hnd : NoDup (A ++ j :: B)).
    { rewrite <- HAB. unfold pending_human. apply NoDup_filter, wf_nodup, Hwf1. }
    rewrite <- Hh, HAB in HAB2.
    destruct (split_unique _ _ _ _ _ Hnd HAB2) as [<- <-].
    assert (Hsub : forall a, In a (A ++ B) -> In a (pending_human t1)).
    { intros a Ha. rewrite HAB. apply in_app_iff in Ha. apply in_app_iff.
      destruct Ha; [left|right; right]; assumption. }
    split; [congruence|]. split; [congruence|].
    rewrite HAB'. intros a b Ha Hb.
    pose proof (job_key_before now1 t1 a Hb1 (Hsub a Ha)) as Ba1.
    pose proof (job_key_before now1 t1 b Hb1 (Hsub b Hb)) as Bb1.
    assert (Ba2 : job_key t2 a < now2).
    { apply job_key_before; [assumption|]. rewrite <- Hh. auto. }
    assert (Bb2 : job_key t2 b < now2).
    { apply job_key_before; [assumption|]. rewrite <- Hh. auto. }
    destruct (Nat.eq_dec (user_id a) (user_id j)) as [Ea|Ea];
      destruct (Nat.eq_dec (user_id b) (user_id j)) as [Eb|Eb].
    + rewrite (Htop a Ha Ea), (Htop b Hb Eb), (Htop2 a Ha Ea), (Htop2 b Hb Eb).
      now rewrite !Z.ltb_irrefl.
    + rewrite (Htop a Ha Ea), (Hkeep b Hb Eb), (Htop2 a Ha Ea), (Hkeep2 b Hb Eb).
      transitivity false; [|symmetry]; apply Z.ltb_ge; lia.
    + rewrite (Hkeep a Ha Ea), (Htop b Hb Eb), (Hkeep2 a Ha Ea), (Htop2 b Hb Eb).
      transitivity true; [|symmetry]; apply Z.ltb_lt; lia.
    + rewrite (Hkeep a Ha Ea), (Hkeep b Hb Eb), (Hkeep2 a Ha Ea), (Hkeep2 b Hb Eb).
      apply Hk; auto.
  - destruct (robot_turn now1 t1 j Hwf1 Hn1 Hhj) as (_ & Hn' & B & HB & HB').
    destruct (robot_turn now2 t2 j Hwf2 Hn2 Hhj) as (_ & Hn2' & B2 & HB2 & HB2').
    split; [congruence|]. split.
    + rewrite HB', HB2'. rewrite Hr, HB2 in HB. congruence.
    + rewrite Hn'. intros a b [].
Qed.

Lemma picks_independent nows1 : forall nows2 t1 t2 lo1 lo2,
  List.length nows1 = List.length nows2 ->
  wf_table t1 -> wf_table t2 -> upto lo1 t1 -> upto lo2 t2 ->
  ascending lo1 nows1 -> ascending lo2 nows2 ->
  same_rotation t1 t2 ->
  picks nows1 t1 = picks nows2 t2.
Proof.
  induction nows1 as [|now1 nows1 IH];
    intros [|now2 nows2] t1 t2 lo1 lo2 Hlen Hwf1 Hwf2 Hup1 Hup2 Ha1 Ha2 Hsame;
    try discriminate; [reflexivity|].
  cbn [picks]. rewrite <- (same_rotation_next _ _ Hsame).
  destruct (next_job t1) as [j|] eqn:E; [|reflexivity].
  destruct Ha1 as [Hlt1 Ha1], Ha2 as [Hlt2 Ha2].
  simpl in Hlen. f_equal.
  apply (IH nows2 _ _ now1 now2);
    [lia| now apply wf_claim | now apply wf_claim
    | now apply (upto_claim lo1) | now apply (upto_claim lo2)
    | assumption | assumption |].
  apply same_rotation_turn; eauto using upto_before.
Qed.

Lemma same_rotation_refl t : same_rotation t t.
Proof. repeat split. Qed.

(** *** Round robin *)

Lemma pending_human_claim now k t c :
  In c (pending_human (snd (claim now k t))) -> In c (pending_human t).
Proof.
  intros Hc. apply pending_human_in in Hc. destruct Hc as (Hin & Hp & Hh).
  rewrite claim_rows in Hin. apply in_map_iff in Hin.
  destruct Hin as (x & Hx & Hin). unfold claim_row in Hx.
  destruct (Nat.eqb (id x) k && is_pending x).
  - subst c. discriminate.
  - subst c. apply pending_human_in. auto.
Qed.

(** The human jobs among those selected were pending human jobs. *)
Lemma picks_pending nows : forall t c,
  In c (picks nows t) -> human c = true -> In c (pending_human t).
Proof.
  induction nows as [|now nows IH]; intros t c; simpl; [tauto|].
  destruct (next_job t) as [j|] eqn:E; [|intros []].
  intros [<-|Hc] Hh.
  - destruct (next_job_pending t j E) as [Hin Hp].
    apply pending_human_in. auto.
  - apply (pending_human_claim now (id j)). now apply IH.
Qed.

(** While user [v] waits with a smaller key than user [u], no job of [u]
    is served before a job of [v]. *)
Lemma wait_turn nows : forall t lo u v,
  wf_table t -> upto lo t -> ascending lo nows -> u <> v ->
  (exists c, In c (pending_human t) /\ user_id c = v) ->
  (forall a c, In a (pending_human t) -> In c (pending_human t) ->
     user_id a = u -> user_id c = v -> job_key t c < job_key t a) ->
  forall l2 b l3,
    picks nows t = l2 ++ b :: l3 -> user_id b = u -> human b = true ->
    exists c', In c' l2 /\ user_id c' = v.
Proof.
  induction nows as [|now nows IH];
    intros t lo u v Hwf Hup Hasc Huv (c & Hc & Hcv) Hkeys l2 b l3 Hpicks Hbu Hbh.
  - simpl in Hpicks. destruct l2; discriminate.
  - cbn [picks] in Hpicks. destruct Hasc as [Hlt Hasc].
    destruct (next_job t) as [j|] eqn:E; [|destruct l2; discriminate].
    assert (Hhj : human j = true).
    { destruct (human j) eqn:Hhj; [reflexivity|].
      destruct (robot_turn now t j Hwf E Hhj) as (Hnone & _).
      rewrite Hnone in Hc. contradiction. }
    destruct (human_turn now t j Hwf (upto_before lo now t Hup Hlt) E Hhj)
      as (A & B & HAB & HAB' & _ & _ & Hmin & Hkeep & _).
    assert (Hj : In j (pending_human t)).
    { rewrite HAB. apply in_app_iff. right. now left. }
    assert (Hju : user_id j <> u).
    { intros Hju. specialize (Hkeys j c Hj Hc Hju Hcv).
      specialize (Hmin c Hc). lia. }
    destruct l2 as [|x l2]; cbn [app] in Hpicks; injection Hpicks as Hjx Hpicks.
    + subst b. contradiction.
    + subst x. destruct (Nat.eq_dec (user_id j) v) as [Hjv|Hjv].
      * exists j. split; [now left|exact Hjv].
      * assert (Hsub : forall a, In a (A ++ B) -> In a (pending_human t)).
        { intros a Ha. rewrite HAB. apply in_app_iff in Ha. apply in_app_iff.
          destruct Ha; [left|right; right]; assumption. }
        destruct (IH (snd (claim now (id j) t)) now u v
                    (wf_claim now (id j) t Hwf)
                    (upto_claim lo now (id j) t Hup Hlt) Hasc Huv)
          with (l2 := l2) (b := b) (l3 := l3) as (c' & Hc' & Hc'v); auto.
        -- exists c. split; [|exact Hcv]. rewrite HAB'.
           rewrite HAB in Hc. apply in_app_iff in Hc. apply in_app_iff.
           destruct Hc as [Hc|[Hc|Hc]]; auto. congruence.
        -- rewrite HAB'. intros a0 c0 Ha0 Hc0 Ea Ec.
           rewrite (Hkeep a0 Ha0) by congruence.
           rewrite (Hkeep c0 Hc0) by congruence.
           apply Hkeys; auto.
        -- exists c'. split; [now right|exact Hc'v].
Qed.

Lemma picks_round_robin nows : forall t lo,
  wf_table t -> upto lo t -> ascending lo nows -> round_robin (picks nows t).
Proof.
  induction nows as [|now nows IH]; intros t lo Hwf Hup Hasc
    l1 a l2 b l3 Hpicks Hha Hhb Hab c Hc Hhc Hca.
  - simpl in Hpicks. destruct l1; discriminate.
  - cbn [picks] in Hpicks. destruct Hasc as [Hlt Hasc].
    destruct (next_job t) as [j|] eqn:E; [|destruct l1; discriminate].
    pose proof (wf_claim now (id j) t Hwf) as Hwf'.
    pose proof (upto_claim lo now (id j) t Hup Hlt) as Hup'.
    destruct l1 as [|x l1]; cbn [app] in Hpicks; injection Hpicks as Hjx Hpicks.
    + subst j. pose proof (upto_before lo now t Hup Hlt) as Hb.
      destruct (human_turn now t a Hwf Hb E Hha)
        as (A & B & HAB & HAB' & _ & _ & _ & Hkeep & Htop).
      apply (wait_turn nows _ now (user_id a) (user_id c) Hwf' Hup' Hasc)
        with (b := b) (l3 := l3); auto.
      * exists c. split; [|reflexivity].
        apply picks_pending with (nows := nows); [|exact Hhc].
        unfold claim. cbn [snd]. rewrite Hpicks. exact Hc.
      * rewrite HAB'. intros a0 c0 Ha0 Hc0 Ea Ec.
        rewrite (Htop a0 Ha0 Ea). rewrite (Hkeep c0 Hc0) by congruence.
        apply job_key_before; [exact Hb|].
        rewrite HAB. apply in_app_iff in Hc0. apply in_app_iff.
        destruct Hc0; [left|right; right]; assumption.
    + subst x. apply (IH _ now Hwf' Hup' Hasc l1 a l2 b l3); auto.
Qed.

(** *** Positions *)

Lemma nodup_ids t l :
  wf_table t -> NoDup l -> (forall x, In x l -> In x t) -> NoDup (map id l).
Proof.
  intros Hwf Hnd. induction Hnd as [|x l Hx Hnd IH]; intros Hsub; simpl.
  - constructor.
  - constructor.
    + intros Hin. apply in_map_iff in Hin. destruct Hin as (y & Hid & Hy).
      assert (y = x).
      { apply (wf_table_inj t); auto. - apply Hsub. now right.
        - apply Hsub. now left. }
      subst y. contradiction.
    + apply IH. intros y Hy. apply Hsub. now right.
Qed.

Lemma index_of_reserved order : forall nows i j,
  List.length nows = List.length order -> NoDup (map id order) ->
  nth_error order i = Some j ->
  index_of (id j) (reserved_at nows order) = Some i.
Proof.
  induction order as [|x order IH]; intros nows i j Hlen Hnd Hnth.
  - destruct i; discriminate.
  - destruct nows as [|now nows]; [discriminate|].
    unfold reserved_at. simpl. inversion Hnd as [|? ? Hx Hnd']; subst.
    destruct i as [|i]; simpl in Hnth.
    + injection Hnth as ->. now rewrite Nat.eqb_refl.
    + destruct (Nat.eqb_spec (id x) (id j)) as [E|E].
      * exfalso. apply Hx. rewrite E. apply in_map.
        eapply nth_error_In; eauto.
      * fold (reserved_at nows order).
        rewrite (IH nows i j); auto.
Qed.

Lemma wf_test_jobs : wf_table test_jobs.
Proof.
  unfold wf_table, test_jobs. simpl.
  repeat constructor; simpl; intuition discriminate.
Defined.

(** test_job_queue_order, on the model: the positions reported for the nine
    jobs and the order in which nine calls return them. *)
Example test_job_queue_order :
  map (queue_position test_jobs) test_jobs =
    [1; 3; 5; 2; 9; 6; 7; 8; 4]%nat /\
  map (option_map id)
    (fst (drain [10; 20; 30; 40; 50; 60; 70; 80; 90] test_jobs)) =
    map Some [0; 3; 1; 8; 2; 5; 6; 7; 4]%nat /\
  map (option_map (fun j => (user_id j, human j)))
    (fst (drain [10; 20; 30; 40; 50; 60; 70; 80; 90] test_jobs)) =
    map Some
      [(1, true); (2, true); (1, true); (2, true); (1, true); (1, true);
       (1, true); (1, true); (2, false)]%nat.
Proof. vm_compute. repeat split. Qed.

(** C1.  On a table with unique keys, let as many calls of
    [get_next_job(reserve=True)] as there are waiting jobs be made, at
    increasing times.  The calls return the waiting jobs, each once, in an
    order [hs ++ robots] such that: the position [queue_position] reports
    for a job is its rank in that order; [hs] holds the pending human jobs,
    each user's jobs in the order of their submission, served round robin
    across users; and the pending robot jobs come last, in the order of
    their submission.  In particular the nine jobs of
    test_job_queue_order, submitted as u1, u1, u1, u2, u2 (robot), u1, u1,
    u1, u2, are returned as jobs 0, 3, 1, 8, 2, 5, 6, 7 and then the robot
    job 4, and those are the positions reported for them. *)
Theorem queue_round_robin t nows
    (Hwf : wf_table t)
    (Hasc : ascending (latest t) nows)
    (Hlen : List.length nows = List.length (waiting t)) :
  exists hs,
    fst (drain nows t) = reserved_at nows (hs ++ pending_robot t) /\
    (forall i j, nth_error (hs ++ pending_robot t) i = Some j ->
       queue_position t j = S i) /\
    (forall j, In j t -> is_pending j = true ->
       exists i, nth_error (hs ++ pending_robot t) i = Some j) /\
    Permutation hs (pending_human t) /\
    (forall u, filter (by_user u) hs = filter (by_user u) (pending_human t)) /\
    round_robin hs /\
    map (queue_position test_jobs) test_jobs =
      [1; 3; 5; 2; 9; 6; 7; 8; 4]%nat /\
    map (option_map id)
      (fst (drain [10; 20; 30; 40; 50; 60; 70; 80; 90] test_jobs)) =
      map Some [0; 3; 1; 8; 2; 5; 6; 7; 4]%nat.
Proof.
  destruct (picks_waiting nows t (latest t) Hwf (upto_latest t) Hasc Hlen)
    as (hs & Hpicks & Hperm & Hfifo).
  exists hs.
  assert (Hlo : List.length (hs ++ pending_robot t) = List.length nows).
  { rewrite Hlen. unfold waiting. rewrite !length_app.
    now rewrite (Permutation_length Hperm). }
  assert (Hnd : NoDup (map id (hs ++ pending_robot t))).
  { apply (nodup_ids t); [exact Hwf| |].
    - apply NoDup_app.
      + apply (Permutation_NoDup (Permutation_sym Hperm)).
        unfold pending_human. apply NoDup_filter, wf_nodup, Hwf.
      + unfold pending_robot. apply NoDup_filter, wf_nodup, Hwf.
      + intros x Hx Hr. apply (Permutation_in _ Hperm) in Hx.
        apply pending_human_in in Hx. apply pending_robot_in in Hr.
        destruct Hx as (_ & _ & Hx), Hr as (_ & _ & Hr). congruence.
    - intros x Hx. apply in_app_iff in Hx. destruct Hx as [Hx|Hx].
      + apply (Permutation_in _ Hperm), pending_human_in in Hx. tauto.
      + apply pending_robot_in in Hx. tauto. }
  split; [|split; [|split; [|split; [exact Hperm|split; [exact Hfifo|split;
    [|split; apply test_job_queue_order]]]]]].
  - rewrite <- Hpicks. apply drain_picks; [exact Hwf|]. now rewrite Hpicks.
  - intros i j Hnth. unfold queue_position, service_order.
    set (clock := ticks (List.length (pending_human t ++ pending_robot t))
                    (latest t)).
    assert (Hclock : List.length clock = List.length nows).
    { unfold clock. rewrite length_ticks. symmetry. exact Hlen. }
    assert (Hsame : picks clock t = hs ++ pending_robot t).
    { rewrite <- Hpicks.
      apply (picks_independent clock nows t t (latest t) (latest t));
        auto using upto_latest, same_rotation_refl.
      apply ascending_ticks. }
    rewrite (drain_picks clock t Hwf) by (rewrite Hsame; congruence).
    rewrite Hsame.
    rewrite (index_of_reserved _ clock i j); auto. congruence.
  - intros j Hj Hp. apply In_nth_error. apply in_app_iff.
    destruct (human j) eqn:Hh.
    + left. apply (Permutation_in _ (Permutation_sym Hperm)).
      apply pending_human_in. auto.
    + right. apply pending_robot_in. auto.
  - intros l1 a l2 b l3 Hhs Hha Hhb Hab c Hc Hhc Hca.
    apply (picks_round_robin nows t (latest t) Hwf (upto_latest t) Hasc
             l1 a l2 b (l3 ++ pending_robot t)); auto.
    + rewrite Hpicks, Hhs. rewrite <- !app_assoc. simpl.
      rewrite <- !app_assoc. reflexivity.
    + apply in_app_iff in Hc. apply in_app_iff.
      destruct Hc as [Hc|[Hc|Hc]].
      * now left.
      * right. now left.
      * right. right. apply in_app_iff. now left.
Qed.

(** The theorem of C1 at the jobs of test_job_queue_order, with the nine
    calls made at times 10, 20, ..., 90. *)
Lemma queue_round_robin_witness :
  wf_table test_jobs /\
  exists hs,
    fst (drain [10; 20; 30; 40; 50; 60; 70; 80; 90] test_jobs) =
      reserved_at [10; 20; 30; 40; 50; 60; 70; 80; 90]
        (hs ++ pending_robot test_jobs) /\
    round_robin hs.
Proof.
  split; [exact wf_test_jobs|].
  destruct (queue_round_robin test_jobs [10; 20; 30; 40; 50; 60; 70; 80; 90]
              wf_test_jobs
              ltac:(simpl; repeat split; lia) eq_refl)
    as (hs & Hdrain & _ & _ & _ & _ & Hrr & _).
  exists hs. split; assumption.
Defined.

End QueueFacts.

(* ----------------------------------------------------------------- *)
(** ** Workers racing for jobs *)

Module WorkersFacts.
Import Models Queue Workers ModelsFacts QueueBasics QueueFacts ModelsSpec QueueSpec WorkersSpec.

(** *** The claim, as a compare-and-swap *)

Lemma claim_found now k t :
  fst (claim now k t) <> 0%nat ->
  exists r, In r t /\ id r = k /\ is_pending r = true.
Proof.
  unfold claim. simpl.
  destruct (filter (fun r => Nat.eqb (id r) k && is_pending r) t)
    as [|r l] eqn:E; [intros H; now elim H|].
  intros _. assert (Hin : In r (r :: l)) by now left.
  rewrite <- E in Hin. apply filter_In in Hin. destruct Hin as [Hin Hc].
  apply andb_true_iff in Hc. destruct Hc as [Hid Hp].
  apply Nat.eqb_eq in Hid. eauto.
Qed.

Lemma claim_lost now k t :
  fst (claim now k t) = 0%nat -> snd (claim now k t) = t.
Proof.
  unfold claim. simpl. intros H. apply length_zero_iff_nil in H.
  rewrite <- (map_id t) at 2. apply map_ext_in. intros r Hr.
  destruct (Nat.eqb (id r) k && is_pending r) eqn:E; [|reflexivity].
  exfalso. assert (Hin : In r (filter (fun r => Nat.eqb (id r) k && is_pending r) t))
    by (apply filter_In; auto).
  rewrite H in Hin. contradiction.
Qed.

(** A successful claim takes exactly the claimed row out of the waiting
    jobs. *)
Lemma waiting_claim now t r :
  wf_table t -> In r t -> is_pending r = true ->
  Permutation (waiting t) (r :: waiting (snd (claim now (id r) t))).
Proof.
  intros Hwf Hin Hp.
  destruct (claim_split now t r Hwf Hin Hp) as (l1 & l2 & Ht & Ht' & _).
  assert (Hh' : pending_human (snd (claim now (id r) t)) =
                pending_human l1 ++ pending_human l2).
  { rewrite Ht', pending_human_app. reflexivity. }
  assert (Hr' : pending_robot (snd (claim now (id r) t)) =
                pending_robot l1 ++ pending_robot l2).
  { rewrite Ht', pending_robot_app. reflexivity. }
  assert (Hh : pending_human t =
               pending_human l1 ++ (if human r then [r] else []) ++ pending_human l2).
  { rewrite Ht, pending_human_app. f_equal. unfold pending_human. simpl.
    rewrite Hp. now destruct (human r). }
  assert (Hr : pending_robot t =
               pending_robot l1 ++ (if human r then [] else [r]) ++ pending_robot l2).
  { rewrite Ht, pending_robot_app. f_equal. unfold pending_robot. simpl.
    rewrite Hp. now destruct (human r). }
  unfold waiting. rewrite Hh', Hr', Hh, Hr.
  destruct (human r); simpl.
  - rewrite <- !app_assoc. simpl. symmetry. apply Permutation_middle.
  - symmetry. rewrite !app_assoc. apply Permutation_middle.
Qed.

Lemma claim_rows_kept now k t r :
  In r t -> is_pending r = false -> In r (snd (claim now k t)).
Proof.
  intros Hin Hp. rewrite claim_rows. apply in_map_iff. exists r.
  split; [|exact Hin]. unfold claim_row. rewrite Hp.
  now rewrite andb_false_r.
Qed.

Lemma claim_pending_old now k t r :
  In r (snd (claim now k t)) -> is_pending r = true -> In r t.
Proof.
  intros Hin Hp. rewrite claim_rows in Hin. apply in_map_iff in Hin.
  destruct Hin as (x & Hx & Hin). unfold claim_row in Hx.
  destruct (Nat.eqb (id x) k && is_pending x); subst r; [discriminate|exact Hin].
Qed.

(** *** The workers *)

Lemma length_update i w ws : List.length (update i w ws) = List.length ws.
Proof.
  revert i. induction ws as [|x ws IH]; intros [|i]; simpl; auto.
Qed.

Lemma results_update i w ws x :
  nth_error ws i = Some x -> result_of x = [] ->
  Permutation (results (update i w ws)) (result_of w ++ results ws).
Proof.
  revert i. induction ws as [|y ws IH]; intros [|i]; simpl; try discriminate.
  - intros [= ->] Hx. unfold results. simpl. fold (result_of x).
    rewrite Hx. reflexivity.
  - intros Hn Hx. specialize (IH i Hn Hx). unfold results in *. simpl.
    fold (result_of y). rewrite IH.
    rewrite !app_assoc. apply Permutation_app_tail, Permutation_app_comm.
Qed.

Lemma empty_update i w ws x :
  nth_error ws i = Some x -> came_back_empty x = false ->
  existsb came_back_empty (update i w ws) =
  came_back_empty w || existsb came_back_empty ws.
Proof.
  revert i. induction ws as [|y ws IH]; intros [|i]; simpl; try discriminate.
  - intros [= ->] ->. reflexivity.
  - intros Hn Hx. rewrite (IH i Hn Hx).
    destruct (came_back_empty y), (came_back_empty w); reflexivity.
Qed.

Lemma inv_start n t now : wf_table t -> Inv t (start n t now).
Proof.
  intros Hwf.
  assert (Hres : results (repeat Idle n) = []).
  { induction n; simpl; auto. }
  constructor; simpl.
  - exact Hwf.
  - auto.
  - rewrite Hres. simpl. now rewrite app_nil_r.
  - rewrite Hres. intros j [].
  - intros H. exfalso. induction n; simpl in H; [discriminate|auto].
Qed.

Lemma step_action i s s' :
  wf_table (table s) -> step i s = Some s' -> Action i s s'.
Proof.
  intros Hwf. unfold step.
  destruct (nth_error (workers s) i) as [[|j|res]|] eqn:Hw; try discriminate.
  - destruct (next_job (table s)) as [j|] eqn:Hn; intros [= <-].
    + now apply (Read_candidate i s _ j).
    + now apply Read_nothing.
  - destruct (claim (clock s) (id j) (table s)) as [count t'] eqn:Hc.
    destruct (Nat.eqb_spec count 0) as [H0|H0]; intros [= <-].
    + apply (Claim_lost i s _ j); auto; cbn [table clock workers].
      * now rewrite Hc.
      * rewrite <- (claim_lost (clock s) (id j) (table s)); now rewrite Hc.
    + destruct (claim_found (clock s) (id j) (table s)) as (r & Hin & Hid & Hp).
      { now rewrite Hc. }
      destruct (claim_split (clock s) (table s) r Hwf Hin Hp)
        as (l1 & l2 & Ht & Ht' & _).
      rewrite Hid in Ht'.
      assert (Hget : get (id j) t' = Some (reserve (clock s) r)).
      { replace t' with (snd (claim (clock s) (id j) (table s)))
          by now rewrite Hc.
        rewrite <- Hid. rewrite <- (id_reserve (clock s) r).
        apply get_in.
        - rewrite id_reserve, Hid. now apply wf_claim.
        - rewrite id_reserve, Hid, Ht'. apply in_app_iff. right. now left. }
      apply (Claim_won i s _ j r l1 l2); auto; cbn [table clock workers].
      * rewrite <- Ht'. now rewrite Hc.
      * rewrite Hid. now rewrite Hc.
      * now rewrite Hget.
Qed.

Lemma inv_step t0 i s s' : Inv t0 s -> step i s = Some s' -> Inv t0 s'.
Proof.
  intros [Hwf Hpend Hperm Hres Hempty] Hstep.
  destruct (step_action i s s' Hwf Hstep)
    as [j Hw Hn Ht Hws|Hw Hn Ht Hws|j Hw Hc Ht Hws
       |j r l1 l2 Hw Hid Hp Ht Ht' Hcl Hws].
  - (* a candidate is read *)
    assert (HR : Permutation (results (workers s')) (results (workers s))).
    { rewrite Hws. apply (results_update i (Reading j) _ Idle Hw eq_refl). }
    constructor; rewrite ?Ht; auto.
    + now rewrite HR.
    + intros x Hx. apply Hres. now apply (Permutation_in _ HR).
    + rewrite Hws, (empty_update i _ _ Idle Hw eq_refl). exact Hempty.
  - (* nothing to read *)
    assert (HR : Permutation (results (workers s')) (results (workers s))).
    { rewrite Hws. apply (results_update i (Returned None) _ Idle Hw eq_refl). }
    constructor; rewrite ?Ht; auto.
    + now rewrite HR.
    + intros x Hx. apply Hres. now apply (Permutation_in _ HR).
    + intros _. now apply next_job_none.
  - (* the claim is lost *)
    assert (HR : Permutation (results (workers s')) (results (workers s))).
    { rewrite Hws. apply (results_update i Idle _ (Reading j) Hw eq_refl). }
    constructor; rewrite ?Ht; auto.
    + now rewrite HR.
    + intros x Hx. apply Hres. now apply (Permutation_in _ HR).
    + rewrite Hws, (empty_update i _ _ (Reading j) Hw eq_refl). exact Hempty.
  - (* the claim is won *)
    assert (Hin : In r (table s)).
    { rewrite Ht. apply in_app_iff. right. now left. }
    assert (HR : Permutation (results (workers s'))
                   (reserve (clock s) r :: results (workers s))).
    { rewrite Hws.
      apply (results_update i (Returned (Some (reserve (clock s) r))) _
               (Reading j) Hw eq_refl). }
    pose proof (waiting_claim (clock s) (table s) r Hwf Hin Hp) as HW.
    rewrite <- Hcl in HW.
    constructor.
    + rewrite Hcl. now apply wf_claim.
    + intros x Hx Hxp. apply Hpend; [|exact Hxp].
      rewrite Hcl in Hx. now apply (claim_pending_old (clock s) (id r)).
    + rewrite Hperm. rewrite (Permutation_map id HW).
      rewrite (Permutation_map id HR). simpl.
      apply Permutation_cons_app. reflexivity.
    + intros x Hx. apply (Permutation_in _ HR) in Hx. destruct Hx as [<-|Hx].
      * split; [rewrite Ht'; apply in_app_iff; right; now left|].
        exists (clock s), r. auto.
      * destruct (Hres x Hx) as [Hxin Hrest]. split; [|exact Hrest].
        rewrite Hcl. apply claim_rows_kept; [exact Hxin|].
        destruct Hrest as (now & j0 & -> & _). reflexivity.
    + rewrite Hws, (empty_update i _ _ (Reading j) Hw eq_refl). simpl.
      intros He. specialize (Hempty He). rewrite Hempty in HW.
      apply Permutation_nil in HW. discriminate.
Qed.

Lemma inv_run t0 schedule : forall s, Inv t0 s -> Inv t0 (run schedule s).
Proof.
  induction schedule as [|i rest IH]; intros s H; simpl; [exact H|].
  destruct (step i s) as [s'|] eqn:E; [|now apply IH].
  apply IH. eapply inv_step; eauto.
Qed.

(** *** Nothing twice, nothing skipped *)

Lemma nodup_waiting t : wf_table t -> NoDup (map id (waiting t)).
Proof.
  intros Hwf. apply (nodup_ids t); [exact Hwf| |].
  - apply NoDup_app.
    + unfold pending_human. apply NoDup_filter, wf_nodup, Hwf.
    + unfold pending_robot. apply NoDup_filter, wf_nodup, Hwf.
    + intros x Hx Hr. apply pending_human_in in Hx.
      apply pending_robot_in in Hr.
      destruct Hx as (_ & _ & Hx), Hr as (_ & _ & Hr). congruence.
  - intros x Hx. apply in_app_iff in Hx. destruct Hx as [Hx|Hx].
    + apply pending_human_in in Hx. tauto.
    + apply pending_robot_in in Hx. tauto.
Qed.

Lemma length_workers_step i s s' :
  step i s = Some s' -> List.length (workers s') = List.length (workers s).
Proof.
  unfold step. destruct (nth_error (workers s) i) as [[|j|res]|]; try discriminate.
  - destruct (next_job (table s)); intros [= <-]; simpl; apply length_update.
  - destruct (claim (clock s) (id j) (table s)) as [count t'].
    destruct (Nat.eqb count 0); intros [= <-]; simpl; apply length_update.
Qed.

Lemma length_workers_run schedule : forall s,
  List.length (workers (run schedule s)) = List.length (workers s).
Proof.
  induction schedule as [|i rest IH]; intros s; simpl; [reflexivity|].
  destruct (step i s) as [s'|] eqn:E; [|apply IH].
  rewrite IH. now apply (length_workers_step i).
Qed.

Lemma results_all ws :
  forallb has_returned ws = true -> existsb came_back_empty ws = false ->
  List.length (results ws) = List.length ws.
Proof.
  induction ws as [|w ws IH]; simpl; [reflexivity|].
  intros Hall Hnone. apply andb_true_iff in Hall. destruct Hall as [Hw Hall].
  apply orb_false_iff in Hnone. destruct Hnone as [Hn Hnone].
  unfold results in *. simpl. rewrite length_app, IH by assumption.
  destruct w as [|j|[j|]]; simpl in *; try discriminate. reflexivity.
Qed.

(** Once every worker is back, and there were at least as many workers as
    waiting jobs, nothing is left waiting and the jobs returned are the
    jobs that waited. *)
Lemma race_complete t0 s :
  Inv t0 s -> forallb has_returned (workers s) = true ->
  (List.length (waiting t0) <= List.length (workers s))%nat ->
  waiting (table s) = [] /\
  Permutation (map id (waiting t0)) (map id (results (workers s))).
Proof.
  intros [Hwf Hpend Hperm Hres Hempty] Hall Hlen.
  assert (Hnil : waiting (table s) = []).
  { destruct (existsb came_back_empty (workers s)) eqn:E; [now apply Hempty|].
    pose proof (Permutation_length Hperm) as HL.
    rewrite length_app, !length_map in HL.
    rewrite (results_all _ Hall E) in HL.
    apply length_zero_iff_nil. lia. }
  split; [exact Hnil|]. now rewrite Hnil in Hperm.
Qed.

(** *** Every call returns *)

Lemma sum_update (f : Worker -> nat) i w ws x :
  nth_error ws i = Some x ->
  (list_sum (map f (update i w ws)) + f x = list_sum (map f ws) + f w)%nat.
Proof.
  revert i. induction ws as [|y ws IH]; intros [|i]; simpl; try discriminate.
  - intros [= ->]. lia.
  - intros Hn. specialize (IH i Hn). lia.
Qed.

Lemma sum_shift (f f' : Worker -> nat) ws :
  (forall w, (f' w <= f w + 2)%nat) ->
  (list_sum (map f' ws) <= list_sum (map f ws) + 2 * List.length ws)%nat.
Proof.
  intros H. induction ws as [|w ws IH]; simpl; [lia|].
  specialize (H w). lia.
Qed.

Lemma cost_shift t t' w : (cost t' w <= cost t w + 2)%nat.
Proof.
  destruct w as [|j|res]; simpl; try lia.
  destruct (claimable t' (id j)), (claimable t (id j)); lia.
Qed.

Lemma claimable_in t r :
  In r t -> is_pending r = true -> claimable t (id r) = true.
Proof.
  intros Hin Hp. unfold claimable. apply existsb_exists. exists r.
  split; [exact Hin|]. now rewrite Nat.eqb_refl, Hp.
Qed.

Lemma claimable_lost now t k :
  fst (claim now k t) = 0%nat -> claimable t k = false.
Proof.
  intros H. destruct (claimable t k) eqn:E; [|reflexivity].
  unfold claimable in E. apply existsb_exists in E. destruct E as (r & Hin & Hr).
  unfold claim in H. simpl in H. apply length_zero_iff_nil in H.
  assert (Hf : In r (filter (fun r => Nat.eqb (id r) k && is_pending r) t))
    by (apply filter_In; auto).
  rewrite H in Hf. contradiction.
Qed.

(** Every action uses up some of the potential. *)
Lemma step_potential i s s' :
  wf_table (table s) -> step i s = Some s' ->
  (potential s' < potential s)%nat.
Proof.
  intros Hwf Hstep.
  pose proof (length_workers_step i s s' Hstep) as Hlen.
  destruct (step_action i s s' Hwf Hstep)
    as [j Hw Hn Ht Hws|Hw Hn Ht Hws|j Hw Hc Ht Hws
       |j r l1 l2 Hw Hid Hp Ht Ht' Hcl Hws];
    unfold potential; rewrite Hlen.
  - rewrite Ht, Hws.
    pose proof (sum_update (cost (table s)) i (Reading j) _ _ Hw) as Hs.
    destruct (next_job_pending _ _ Hn) as [Hin Hp].
    simpl in Hs. rewrite (claimable_in _ _ Hin Hp) in Hs. lia.
  - rewrite Ht, Hws.
    pose proof (sum_update (cost (table s)) i (Returned None) _ _ Hw) as Hs.
    simpl in Hs. lia.
  - rewrite Ht, Hws.
    pose proof (sum_update (cost (table s)) i Idle _ _ Hw) as Hs.
    simpl in Hs. rewrite (claimable_lost _ _ _ Hc) in Hs. lia.
  - assert (Hin : In r (table s)).
    { rewrite Ht. apply in_app_iff. right. now left. }
    pose proof (Permutation_length
                  (waiting_claim (clock s) (table s) r Hwf Hin Hp)) as HW.
    rewrite <- Hcl in HW. simpl in HW. rewrite HW.
    pose proof (sum_shift (cost (table s)) (cost (table s')) (workers s')
                  (cost_shift (table s) (table s'))) as Hsh.
    rewrite Hws in Hsh |- *.
    pose proof (sum_update (cost (table s)) i
                  (Returned (Some (reserve (clock s) r))) _ _ Hw) as Hs.
    simpl in Hs. rewrite <- Hid, (claimable_in _ _ Hin Hp) in Hs.
    rewrite length_update in Hsh.
    rewrite Nat.mul_succ_r. lia.
Qed.

Lemma actions_bounded t0 schedule : forall s,
  Inv t0 s -> (actions schedule s <= potential s)%nat.
Proof.
  induction schedule as [|i rest IH]; intros s H; simpl; [lia|].
  destruct (step i s) as [s'|] eqn:E; [|now apply IH].
  pose proof (step_potential i s s' (inv_wf _ _ H) E).
  specialize (IH s' (inv_step t0 i s s' H E)). lia.
Qed.

Lemma potential_start n t now :
  potential (start n t now) = (2 * n * (1 + List.length (waiting t)))%nat.
Proof.
  unfold potential, start. simpl.
  assert (Hsum : list_sum (map (cost t) (repeat Idle n)) = (2 * n)%nat).
  { induction n as [|n IH]; simpl; [reflexivity|]. simpl in IH. lia. }
  rewrite Hsum, repeat_length. lia.
Qed.

(** A worker that is not back yet can always act. *)
Lemma step_progress i s w :
  nth_error (workers s) i = Some w -> has_returned w = false ->
  exists s', step i s = Some s'.
Proof.
  intros Hw Hr. unfold step. rewrite Hw.
  destruct w as [|j|res]; [| |discriminate].
  - destruct (next_job (table s)); eauto.
  - destruct (claim (clock s) (id j) (table s)) as [count t'].
    destruct (Nat.eqb count 0); eauto.
Qed.

(** A worker on its own does what [get_next_job] does: its read and its
    claim, one after the other, are the sequential call. *)
Lemma alone_is_sequential t now :
  let s := run [0%nat; 0%nat] (start 1 t now) in
  workers s = [Returned (fst (get_next_job (now + 1) t))] /\
  table s = snd (get_next_job (now + 1) t).
Proof.
  unfold run, step, start, get_next_job. simpl.
  destruct (next_job t) as [j|] eqn:E; simpl.
  - destruct (next_job_pending t j E) as [Hin Hp].
    destruct (Nat.eqb_spec
                (List.length
                   (filter (fun r => Nat.eqb (id r) (id j) && is_pending r) t))
                0) as [H0|H0]; simpl.
    + exfalso. apply length_zero_iff_nil in H0.
      assert (Hf : In j (filter (fun r => Nat.eqb (id r) (id j) && is_pending r) t)).
      { apply filter_In. now rewrite Nat.eqb_refl, Hp. }
      rewrite H0 in Hf. contradiction.
    + auto.
  - auto.
Qed.

Lemma wf_two_jobs : wf_table two_jobs.
Proof.
  unfold wf_table, two_jobs. simpl.
  repeat constructor; simpl; intuition discriminate.
Defined.

Example test_race_condition_prevented :
  let s := run paused_race (start 2 two_jobs 100) in
  map (fun w => match w with
                | Returned (Some j) =>
                  Some (id j, status j, capture_start_time j)
                | _ => None
                end) (workers s) =
    [Some (1%nat, IN_PROGRESS, Some 102); Some (2%nat, IN_PROGRESS, Some 105)] /\
  map status (table s) = [IN_PROGRESS; IN_PROGRESS] /\
  workers (run [0; 1; 0; 1]%nat (start 2 two_jobs 100)) =
    [Returned (Some (reserve 102 (submitted 1 1 false))); Idle].
Proof. vm_compute. repeat split. Qed.

(** C2.  Any number of workers call [get_next_job(reserve=True)] on a
    table with unique keys, their reads and claims interleaved in any
    order (a pause between a read and its claim is an interleaving).  At
    every point of the race: no job has been returned to two workers; a
    returned job is a job that waited, now InProgress with its start time,
    in the table as in the worker's hands; the jobs still waiting and the
    jobs returned are together the jobs that waited at the start.  Once
    all workers are back, if there were at least as many workers as
    waiting jobs, nothing waits and the jobs returned are exactly those
    that waited.  Each action leaves the table as it is or flips exactly
    one Pending row to InProgress, start time included, and returns it.
    And every call returns: a worker that is not back can act, and the
    race has at most 2 n (1 + waiting jobs) actions. *)
Theorem race_free t n now schedule (Hwf : wf_table t) :
  let s := run schedule (start n t now) in
  NoDup (map id (results (workers s))) /\
  (forall j, In j (results (workers s)) ->
     In j (table s) /\ status j = IN_PROGRESS /\
     exists at_ j0, j = reserve at_ j0 /\ capture_start_time j = Some at_ /\
       In j0 t /\ is_pending j0 = true) /\
  Permutation (map id (waiting t))
    (map id (waiting (table s)) ++ map id (results (workers s))) /\
  (forallb has_returned (workers s) = true ->
   (List.length (waiting t) <= n)%nat ->
   waiting (table s) = [] /\
   Permutation (map id (waiting t)) (map id (results (workers s)))) /\
  (forall i s', step i s = Some s' -> Action i s s') /\
  (forall i w, nth_error (workers s) i = Some w -> has_returned w = false ->
     exists s', step i s = Some s') /\
  (actions schedule (start n t now) <=
   2 * n * (1 + List.length (waiting t)))%nat.
Proof.
  intros s.
  pose proof (inv_run t schedule _ (inv_start n t now Hwf)) as HI.
  fold s in HI.
  split; [|split; [|split; [|split; [|split; [|split]]]]].
  - pose proof (nodup_waiting t Hwf) as Hnd.
    apply (Permutation_NoDup (inv_perm _ _ HI)) in Hnd.
    now apply NoDup_app_remove_l in Hnd.
  - intros j Hj. destruct (inv_results _ _ HI j Hj) as (Hin & at_ & j0 & -> & H0 & Hp).
    split; [exact Hin|]. split; [reflexivity|].
    exists at_, j0. auto.
  - exact (inv_perm _ _ HI).
  - intros Hall Hlen. apply (race_complete t s HI Hall).
    unfold s. rewrite length_workers_run. simpl. now rewrite repeat_length.
  - intros i s' Hstep. apply step_action; [exact (inv_wf _ _ HI)|exact Hstep].
  - intros i w. apply step_progress.
  - rewrite <- (potential_start n t now).
    apply (actions_bounded t). now apply inv_start.
Qed.

(** The theorem of C2 at the race of the test. *)
Lemma race_free_witness :
  wf_table two_jobs /\
  let s := run paused_race (start 2 two_jobs 100) in
  NoDup (map id (results (workers s))) /\
  waiting (table s) = [] /\
  Permutation (map id (waiting two_jobs)) (map id (results (workers s))).
Proof.
  split; [exact wf_two_jobs|].
  pose proof (race_free two_jobs 2 100 paused_race wf_two_jobs) as H.
  cbv zeta in H |- *.
  destruct H as (Hnd & _ & _ & Hall & _).
  split; [exact Hnd|]. apply Hall.
  - vm_compute. reflexivity.
  - vm_compute. lia.
Defined.

End WorkersFacts.

(* ----------------------------------------------------------------- *)
(** ** The orchestrator: what a run leaves *)

Module CaptureFacts.
Import Models Orchestrator ModelsFacts QueueBasics ModelsSpec OrchestratorSpec
  OrchestratorFacts CaptureSpec.

Lemma inc_progress_eq n d s : inc_progress n d s = (Done tt, progressed n d s).
Proof. destruct s. reflexivity. Qed.

Lemma preserves_progress (I : St -> Prop) n d :
  (forall s, I s -> I (progressed n d s)) -> preserves I (inc_progress n d).
Proof. intros H s Hs. rewrite inc_progress_eq. simpl. auto. Qed.

Lemma preserves_at (I : St -> Prop) A (m : M A) s r s' :
  preserves I m -> I s -> m s = (r, s') -> I s'.
Proof. intros Hm Hs E. specialize (Hm s Hs). now rewrite E in Hm. Qed.

Lemma save_save j j' t : id j' = id j -> save j' (save j t) = save j' t.
Proof.
  intros Hid. unfold save. rewrite map_map. apply map_ext. intros r.
  rewrite Hid. destruct (Nat.eqb (id r) (id j)) eqn:E.
  - now rewrite Nat.eqb_refl.
  - now rewrite E.
Qed.

Lemma steps_app tr1 tr2 : steps (tr1 ++ tr2) = steps tr1 ++ steps tr2.
Proof. unfold steps. apply flat_map_app. Qed.

Lemma count_app p tr1 tr2 :
  count p (tr1 ++ tr2) = (count p tr1 + count p tr2)%nat.
Proof. unfold count. now rewrite filter_app, List.length_app. Qed.

(** The count of the job is that of the last progress line. *)
Lemma base_count job t2 s :
  Base job t2 s ->
  S (step_count (capture_job s)) =
    (step_count job + List.length (steps (trace s)))%nat.
Proof.
  intros (_ & _ & Hseq & l & Hl). rewrite Hl in Hseq |- *.
  rewrite map_app, List.length_app in Hseq. simpl in Hseq.
  rewrite Nat.add_1_r, seq_S in Hseq.
  apply app_inj_tail in Hseq. destruct Hseq as [Hl' Hc].
  rewrite List.length_app. simpl. lia.
Qed.

(** *** The books are kept step by step *)

(** A traversal of monadic code for an invariant of the state: sequences,
    branches and loops are split, and [prim] closes the updates. *)
Ltac stable prim :=
  repeat first
    [ apply preserves_progress; solve [prim]
    | apply preserves_ret
    | apply preserves_raise
    | apply preserves_get_state
    | apply preserves_outcome
    | apply preserves_when
    | apply preserves_for_each; intros ?
    | apply preserves_modify; solve [prim]
    | apply preserves_bind; [|intros ?]
    | match goal with
      | |- preserves _ (match ?x with _ => _ end) => destruct x
      end ].

Section Books.

Variable e : Env.
Variable job : CaptureJob.
Variable t2 : Table.

Lemma base_event ev s :
  steps [ev] = [] -> Base job t2 s -> Base job t2 (add_event ev s).
Proof.
  intros Hev. destruct s as [t a tr j cl co ha]. unfold Base.
  cbn [add_event db trace capture_job].
  intros (Hj & Hdb & Hseq & l & Hl).
  rewrite steps_app, Hev, app_nil_r. eauto.
Qed.

Lemma base_progress d s : Base job t2 s -> Base job t2 (progressed 1 d s).
Proof.
  intros H. pose proof (base_count job t2 s H) as Hc.
  destruct s as [t a tr j cl co ha]. unfold Base in *. simpl in *.
  destruct H as (Hj & Hdb & Hseq & l & Hl).
  split; [exact Hj|]. split.
  { rewrite Hdb. apply save_save. reflexivity. }
  rewrite steps_app. simpl. split.
  - rewrite map_app, List.length_app, Hseq. simpl.
    rewrite (Nat.add_1_r (List.length (steps tr))), seq_S.
    f_equal. f_equal. lia.
  - eexists. reflexivity.
Qed.

Lemma base_update f s :
  settles f -> Base job t2 s ->
  Base job t2 (save_capture_job (map_capture_job f s)).
Proof.
  destruct s as [t a tr j cl co ha]. unfold Base, same_job. simpl.
  intros Hf (Hj & Hdb & Hseq & l & Hl).
  destruct (Hf j) as ((F1 & F2 & F3 & F4 & F5 & F6) & Hc & Hd).
  split; [intuition congruence|]. split.
  { rewrite Hdb. apply save_save. exact F1. }
  split; [exact Hseq|]. exists l. now rewrite Hc, Hd.
Qed.

Lemma base_locals f s :
  (forall s, db (f s) = db s /\ trace (f s) = trace s /\
     capture_job (f s) = capture_job s) ->
  Base job t2 s -> Base job t2 (f s).
Proof.
  intros Hf. destruct (Hf s) as (E1 & E2 & E3).
  unfold Base. now rewrite E1, E2, E3.
Qed.

Lemma settles_mark_completed now : settles (mark_completed now).
Proof. intros j. repeat split. Qed.

Lemma settles_mark_failed now msg : settles (mark_failed now msg).
Proof. intros j. repeat split. Qed.

Ltac base_prim :=
  first
    [ intros ?; apply base_progress
    | intros ?; apply base_event; reflexivity
    | intros ?; apply base_update;
      first [apply settles_mark_completed | apply settles_mark_failed]
    | intros ?; apply base_locals; intros []; simpl; auto ].

Lemma base_capture_rest :
  preserves (Base job t2)
    (provision e ;; stream_progress e ;; evaluate_outcome e).
Proof.
  unfold provision, stream_progress, evaluate_outcome, call, emit.
  stable base_prim.
Qed.

Lemma base_handle x : preserves (Base job t2) (handle x).
Proof. unfold handle, emit. stable base_prim. Qed.

Lemma base_finalize : preserves (Base job t2) (finalize e).
Proof.
  unfold finalize, release, save_archive, call, emit, update_and_save.
  stable base_prim.
Qed.

Lemma base_safety_net : preserves (Base job t2) (safety_net e).
Proof. unfold safety_net, update_and_save. stable base_prim. Qed.


(** *** Composition of phases *)

Lemma runs_bind A B (m : M A) (k : A -> M B) P b1 Q1 b2 Q2 :
  runs P m b1 Q1 -> (forall a, runs Q1 (k a) b2 Q2) ->
  runs P (bind m k) (b1 && b2) (fun s => if b1 then Q2 s else Q1 s).
Proof.
  intros Hm Hk s Hs. unfold bind. destruct (Hm s Hs) as [Hb HQ].
  destruct (m s) as [[a|x] s1]; simpl in *; subst b1; simpl.
  - exact (Hk a s1 HQ).
  - auto.
Qed.

Lemma runs_try_except A (m : M A) h P b Q bh Qh :
  runs P m b Q -> (forall x, runs Q (h x) bh Qh) ->
  runs P (try_except m h) (b || bh) (fun s => if b then Q s else Qh s).
Proof.
  intros Hm Hh s Hs. unfold try_except. destruct (Hm s Hs) as [Hb HQ].
  destruct (m s) as [[a|x] s1]; simpl in *; subst b; simpl.
  - auto.
  - exact (Hh x s1 HQ).
Qed.

Lemma runs_try_finally A (m : M A) c P b Q bc Qc :
  runs P m b Q -> runs Q c bc Qc ->
  runs P (try_finally m c) (b && bc) Qc.
Proof.
  intros Hm Hc s Hs. unfold try_finally. destruct (Hm s Hs) as [Hb HQ].
  destruct (m s) as [r s1]. simpl in *.
  destruct (Hc s1 HQ) as [Hbc HQc].
  destruct (c s1) as [[[]|x] s2]; simpl in *; subst b bc.
  - rewrite andb_true_r. auto.
  - rewrite andb_false_r. auto.
Qed.

Lemma runs_conseq A (m : M A) P b b' (Q Q' : St -> Prop) :
  runs P m b Q -> b = b' -> (forall s, Q s -> Q' s) -> runs P m b' Q'.
Proof.
  intros Hm <- HQ s Hs. destruct (Hm s Hs) as [Hb H]. auto.
Qed.

(** *** The phases, one by one *)

Ltac at_goal :=
  unfold At; cbn -[count save]; rewrite ?count_app; cbn -[save];
  repeat split; try assumption; try reflexivity; try lia.

Ltac at_start :=
  intros [t a' tr j' cl' co' ha'] (H1 & H2 & H3 & H4 & H5 & H6 & H7);
  cbn -[count] in H1, H2, H3, H4, H5, H6, H7; subst.

Lemma validate_runs j a cl co ha n m :
  runs (At j a cl co ha n m) (validate e) (valid_url j)
    (At (validate_job e j) a cl co ha n m).
Proof.
  at_start. unfold validate, bind, inc_progress, validate_job, valid_url. run.
  destruct (Utils.validate_and_clean_url (requested_url j)); run;
    (split; [reflexivity|at_goal]).
Qed.

Lemma provision_runs j a ha n m :
  runs (At j a false false ha n m) (provision e)
    (returned (docker_from_env e) && returned (containers_create e) &&
     returned (container_start e))
    (At (provision_job e j) a
       (returned (docker_from_env e))
       (returned (docker_from_env e) && returned (containers_create e))
       ha n m).
Proof.
  at_start. unfold provision, bind, call, inc_progress, provision_job. run.
  destruct (docker_from_env e) as [[]|x]; run;
    [destruct (containers_create e) as [[]|y]; run;
       [destruct (container_start e) as [[]|z]; run|]|];
    (split; [reflexivity|at_goal]).
Qed.

Lemma lines_run l : forall j a cl co ha n m,
  runs (At j a cl co ha n m)
    (for_each l (fun msg => inc_progress 1 (label msg))) true
    (At (fold_left (fun j msg => Models.inc_progress 1 (label msg) j) l j)
       a cl co ha n m).
Proof.
  induction l as [|x l IH]; intros j a cl co ha n m.
  - intros s Hs. split; [reflexivity|exact Hs].
  - intros s Hs. cbn [for_each fold_left]. unfold bind.
    rewrite inc_progress_eq. cbv iota beta.
    apply IH. revert s Hs. at_start. at_goal.
Qed.

Lemma stream_runs j a cl co ha n m :
  runs (At j a cl co ha n m) (stream_progress e)
    (returned (stdout_stream_end e))
    (At (stream_job e j) a cl co ha n m).
Proof.
  intros s Hs.
  assert (H0 : At j a cl co ha n m (add_event ContainerLogs s)).
  { revert s Hs. at_start. at_goal. }
  destruct (lines_run (stdout_stream e) j a cl co ha n m _ H0) as [Hr HQ].
  destruct (for_each (stdout_stream e) (fun msg => inc_progress 1 (label msg))
              (add_event ContainerLogs s)) as [[[]|x] s1] eqn:E;
    simpl in Hr, HQ; [|discriminate].
  assert (Hsp : stream_progress e s = (stdout_stream_end e, s1)).
  { unfold stream_progress, bind, emit, modify. cbv beta iota.
    unfold label in E. rewrite E. reflexivity. }
  rewrite Hsp. split; [reflexivity|exact HQ].
Qed.

Lemma evaluate_runs j a cl co n m :
  runs (At j a cl co false n m) (evaluate_outcome e) (exit_zero e)
    (At j a cl co (exit_zero e || isfile_outputfile e) n m).
Proof.
  at_start. unfold evaluate_outcome, exit_zero.
  destruct (exit_code (life_cycle_run e)) as [[| |]|];
    destruct (isfile_outputfile e); run; (split; [reflexivity|at_goal]).
Qed.

Lemma handle_runs x j a cl co ha n m :
  runs (At j a cl co ha n m) (handle x) true (At j a cl co ha n m).
Proof. at_start. destruct x; run; (split; [reflexivity|at_goal]). Qed.

Lemma release_runs j a cl co ha :
  runs (At j a cl co ha 0 0) (release e)
    ((negb co || returned (container_remove e)) &&
     (negb cl || returned (client_close e)))
    (At j a cl co ha (if co then 1 else 0)
       (if cl && (negb co || returned (container_remove e)) then 1 else 0)).
Proof.
  at_start. unfold release, bind, when, call. run.
  destruct co, cl; run;
    try (destruct (container_remove e) as [[]|x]; run);
    try (destruct (client_close e) as [[]|y]; run);
    (split; [reflexivity|at_goal]).
Qed.


Lemma save_archive_runs j a cl co ha n m :
  runs (At j a cl co ha n m) (save_archive e)
    (isfile_outputfile e && hashed e && is_some (archive_row e (id j)))
    (At (if isfile_outputfile e then archive_job e j else j)
       (a ++ if isfile_outputfile e && hashed e
             then row_list (archive_row e (id j)) else [])
       cl co ha n m).
Proof.
  at_start. unfold save_archive, bind, call, inc_progress, archive_job,
    archive_row, hashed. run.
  destruct (isfile_outputfile e); run;
    [|split; [reflexivity|rewrite app_nil_r; at_goal]].
  destruct (get_file_hash e) as [h|x]; run;
    [|split; [reflexivity|rewrite app_nil_r; at_goal]].
  destruct (rest_of_file_empty e); run;
    [|split; [reflexivity|rewrite app_nil_r; at_goal]].
  destruct (storage_save e (filename e)) as [name|x]; run;
    [|split; [reflexivity|rewrite app_nil_r; at_goal]].
  destruct (storage_url e name) as [u|x]; run;
    [|split; [reflexivity|rewrite app_nil_r; at_goal]].
  destruct (download_expires e u) as [exp|x]; run;
    [|split; [reflexivity|rewrite app_nil_r; at_goal]].
  split; [reflexivity|at_goal].
Qed.

Lemma emit_runs ev j a cl co ha n m :
  is_remove ev = false -> is_close ev = false ->
  runs (At j a cl co ha n m) (emit ev) true (At j a cl co ha n m).
Proof.
  intros Hr Hc. at_start. split; [reflexivity|].
  unfold At. cbn -[count]. rewrite !count_app. unfold count. simpl.
  rewrite Hr, Hc. simpl. repeat split; lia.
Qed.

(** The rest of step 6, once the resources are released. *)
Lemma file_runs j a cl co ha n m :
  runs (At j a cl co ha n m)
    (s <- get_state ;;
     if have_archive s then save_archive e
     else emit (LogInfo "Capture failed."))
    (negb ha ||
     isfile_outputfile e && hashed e && is_some (archive_row e (id j)))
    (At (if ha && isfile_outputfile e then archive_job e j else j)
       (a ++ if ha && isfile_outputfile e && hashed e
             then row_list (archive_row e (id j)) else [])
       cl co ha n m).
Proof.
  intros s Hs. unfold bind, get_state.
  assert (Hha : have_archive s = ha) by apply Hs. rewrite Hha.
  destruct ha; simpl.
  - apply save_archive_runs. exact Hs.
  - rewrite app_nil_r. apply emit_runs; auto.
Qed.

Lemma finalize_body_runs j a cl co ha :
  runs (At j a cl co ha 0 0) (finalize e)
    ((negb co || returned (container_remove e)) &&
     (negb cl || returned (client_close e)) &&
     (negb ha ||
      isfile_outputfile e && hashed e && is_some (archive_row e (id j))))
    (At (if (negb co || returned (container_remove e)) &&
            (negb cl || returned (client_close e)) &&
            ha && isfile_outputfile e
         then archive_job e j else j)
       (a ++ if (negb co || returned (container_remove e)) &&
                (negb cl || returned (client_close e)) &&
                ha && isfile_outputfile e && hashed e
             then row_list (archive_row e (id j)) else [])
       cl co ha (if co then 1 else 0)
       (if cl && (negb co || returned (container_remove e)) then 1 else 0)).
Proof.
  eapply runs_conseq.
  - unfold finalize. eapply runs_bind.
    + apply release_runs.
    + intros _. apply file_runs.
  - reflexivity.
  - intros s.
    destruct ((negb co || returned (container_remove e)) &&
              (negb cl || returned (client_close e)));
      simpl; [|rewrite app_nil_r]; auto.
Qed.

Lemma finalize_runs j a cl co ha :
  runs (At j a cl co ha 0 0)
    (try_except (finalize e)
       (fun _ => emit (LogException "Exception while finishing job.")))
    true
    (At (if (negb co || returned (container_remove e)) &&
            (negb cl || returned (client_close e)) &&
            ha && isfile_outputfile e
         then archive_job e j else j)
       (a ++ if (negb co || returned (container_remove e)) &&
                (negb cl || returned (client_close e)) &&
                ha && isfile_outputfile e && hashed e
             then row_list (archive_row e (id j)) else [])
       cl co ha (if co then 1 else 0)
       (if cl && (negb co || returned (container_remove e)) then 1 else 0)).
Proof.
  eapply runs_conseq.
  - eapply runs_try_except.
    + apply finalize_body_runs.
    + intros _. apply emit_runs; reflexivity.
  - apply orb_true_r.
  - intros s H. simpl in H.
    match type of H with (if ?b then _ else _) => destruct b end; exact H.
Qed.

Lemma safety_net_runs j a cl co ha n m :
  runs (At j a cl co ha n m) (safety_net e) true
    (At (safety_job e j) a cl co ha n m).
Proof.
  at_start. unfold safety_net, bind, get_state, when, safety_job. run.
  destruct (status_eqb (status j) IN_PROGRESS); run;
    (split; [reflexivity|at_goal]).
Qed.


(** *** The statement, phase after phase *)

Lemma join_runs j a cl co n m :
  runs (At j a cl co false n m)
    (stream_progress e ;; evaluate_outcome e)
    (returned (stdout_stream_end e) && exit_zero e)
    (At (stream_job e j) a cl co
       (returned (stdout_stream_end e) &&
        (exit_zero e || isfile_outputfile e)) n m).
Proof.
  eapply runs_conseq.
  - eapply runs_bind; [apply stream_runs|intros _; apply evaluate_runs].
  - reflexivity.
  - intros s. destruct (returned (stdout_stream_end e)); auto.
Qed.

Lemma launch_runs j a n m :
  runs (At j a false false false n m)
    (provision e ;; stream_progress e ;; evaluate_outcome e)
    (returned (docker_from_env e) && returned (containers_create e) &&
     returned (container_start e) &&
     (returned (stdout_stream_end e) && exit_zero e))
    (At (if returned (docker_from_env e) && returned (containers_create e) &&
           returned (container_start e)
         then stream_job e (provision_job e j) else provision_job e j)
       a (returned (docker_from_env e))
       (returned (docker_from_env e) && returned (containers_create e))
       (returned (docker_from_env e) && returned (containers_create e) &&
        returned (container_start e) &&
        (returned (stdout_stream_end e) &&
         (exit_zero e || isfile_outputfile e))) n m).
Proof.
  eapply runs_conseq.
  - eapply runs_bind; [apply provision_runs|intros _; apply join_runs].
  - reflexivity.
  - intros s.
    destruct (returned (docker_from_env e) && returned (containers_create e) &&
              returned (container_start e)); auto.
Qed.

Lemma capture_runs a :
  runs (At job a false false false 0 0) (try_except (capture e) handle) true
    (At (captured_job e job) a (opened e job) (created e job)
       (salvaged e job) 0 0).
Proof.
  eapply runs_conseq.
  - eapply runs_try_except.
    + eapply runs_conseq.
      * unfold capture. eapply runs_bind;
          [apply validate_runs|intros _; apply launch_runs].
      * reflexivity.
      * intros s H.
        assert (H' : At (captured_job e job) a (opened e job) (created e job)
                       (salvaged e job) 0 0 s).
        { unfold captured_job, salvaged, joined, started, created, opened.
          destruct (valid_url job); simpl; [|exact H].
          rewrite <- !andb_assoc in H |- *.
          destruct (returned (docker_from_env e)); simpl in *; [|exact H].
          destruct (returned (containers_create e)); simpl in *; [|exact H].
          destruct (returned (container_start e)); simpl in *; exact H. }
        exact H'.
    + intros x. apply handle_runs.
  - apply orb_true_r.
  - intros s H. simpl in H.
    match type of H with (if ?b then _ else _) => destruct b end; exact H.
Qed.


(** *** The jobs of the phases *)

Lemma last_cons A (l : list A) : forall x d, last (x :: l) d = last l x.
Proof.
  induction l as [|y l IH]; intros x d; [reflexivity|].
  change (last (x :: y :: l) d) with (last (y :: l) d).
  rewrite (IH y d). symmetry. apply (IH y x).
Qed.

Lemma lines_fields l : forall j,
  let j' := fold_left (fun j msg => Models.inc_progress 1 (label msg) j) l j in
  same_job j j' /\ status j' = status j /\
  validated_url j' = validated_url j /\ message j' = message j /\
  capture_end_time j' = capture_end_time j /\
  step_count j' = (step_count j + List.length l)%nat /\
  step_description j' = last (map label l) (step_description j).
Proof.
  induction l as [|x l IH]; intros j.
  - simpl. rewrite Nat.add_0_r. repeat split.
  - cbn [fold_left map]. rewrite last_cons.
    destruct (IH (Models.inc_progress 1 (label x) j))
      as ((I1 & I2 & I3 & I4 & I5 & I6) & Hst & Hv & Hm & He & Hc & Hd).
    cbn zeta. cbn [List.length].
    unfold same_job. rewrite I1, I2, I3, I4, I5, I6, Hst, Hv, Hm, He, Hc, Hd.
    simpl. repeat split. lia.
Qed.

Lemma id_captured_job : id (captured_job e job) = id job.
Proof.
  unfold captured_job, validate_job, provision_job, stream_job.
  destruct (valid_url job).
  - destruct (started e job).
    + match goal with
      | |- id (fold_left _ ?l ?j) = _ =>
        destruct (lines_fields l j) as ((H & _) & _)
      end.
      rewrite H.
      destruct (Utils.validate_and_clean_url (requested_url job));
        destruct (returned (docker_from_env e)),
          (returned (containers_create e)); reflexivity.
    + destruct (Utils.validate_and_clean_url (requested_url job));
        destruct (returned (docker_from_env e)),
          (returned (containers_create e)); reflexivity.
  - destruct (Utils.validate_and_clean_url (requested_url job)); reflexivity.
Qed.

Lemma filed_eq :
  (negb (created e job) || returned (container_remove e)) &&
  (negb (opened e job) || returned (client_close e)) &&
  salvaged e job && isfile_outputfile e = filed e job.
Proof.
  unfold filed, released, salvaged.
  destruct (joined e job), (exit_zero e), (isfile_outputfile e),
    (negb (created e job) || returned (container_remove e)),
    (negb (opened e job) || returned (client_close e)); reflexivity.
Qed.

Lemma run_capture_runs a :
  runs (At job a false false false 0 0) (run_capture e) true
    (At (final_job e job) (a ++ row_list (archived e job))
       (opened e job) (created e job) (salvaged e job)
       (if created e job then 1 else 0)
       (if opened e job &&
           (negb (created e job) || returned (container_remove e))
        then 1 else 0)).
Proof.
  eapply runs_conseq.
  - unfold run_capture. eapply runs_try_finally; [apply capture_runs|].
    eapply runs_try_finally; [apply finalize_runs|apply safety_net_runs].
  - reflexivity.
  - intros s H. rewrite id_captured_job, filed_eq in H.
    unfold final_job, finalized_job, archived.
    destruct (filed e job && hashed e); exact H.
Qed.

(** The books at the end of the validation, however it ends. *)
Lemma base_validate a :
  Base job t2 (snd (validate e (start t2 a job))).
Proof.
  unfold validate, bind, inc_progress. run.
  destruct (Utils.validate_and_clean_url (requested_url job)); run;
    unfold Base, same_job; cbn -[save]; rewrite Nat.add_0_r;
    (repeat split; [apply save_save; reflexivity|exists []; reflexivity]).
Qed.

Lemma base_run a : Base job t2 (snd (run_capture e (start t2 a job))).
Proof.
  unfold run_capture, try_finally.
  destruct (try_except (capture e) handle (start t2 a job)) as [r3 s3] eqn:E3.
  assert (H3 : Base job t2 s3).
  { revert E3. unfold try_except, capture. unfold bind at 1.
    pose proof (base_validate a) as H1.
    destruct (validate e (start t2 a job)) as [[[]|x] s1]; simpl in H1.
    - destruct ((provision e;; stream_progress e;; evaluate_outcome e) s1)
        as [r2 s2] eqn:E2.
      pose proof (preserves_at _ _ _ _ _ _ base_capture_rest H1 E2) as H2.
      destruct r2 as [[]|x].
      + intros [= _ <-]. exact H2.
      + intros E3. exact (preserves_at _ _ _ _ _ _ (base_handle x) H2 E3).
    - intros E3. exact (preserves_at _ _ _ _ _ _ (base_handle x) H1 E3). }
  destruct (try_except (finalize e)
              (fun _ => emit (LogException "Exception while finishing job."))
              s3) as [r5 s5] eqn:E5.
  assert (H5 : Base job t2 s5).
  { revert E5. unfold try_except.
    destruct (finalize e s3) as [r4 s4] eqn:E4.
    pose proof (preserves_at _ _ _ _ _ _ base_finalize H3 E4) as H4.
    destruct r4 as [[]|x].
    - intros [= _ <-]. exact H4.
    - unfold emit, modify. intros [= _ <-]. now apply base_event. }
  destruct (safety_net e s5) as [r6 s6] eqn:E6.
  pose proof (preserves_at _ _ _ _ _ _ base_safety_net H5 E6) as H6.
  destruct r5 as [[]|?], r6 as [[]|?]; exact H6.
Qed.

(** The [try ... except ... finally] statement on a reserved job, whatever
    the services around it do: it returns, and leaves the run finished. *)
Lemma run_capture_finished a :
  exists s',
    run_capture e (start t2 a job) = (Done tt, s') /\
    Finished e job t2 a s'.
Proof.
  assert (H0 : At job a false false false 0 0 (start t2 a job)).
  { repeat split. }
  destruct (run_capture_runs a _ H0) as [Hr HQ].
  pose proof (base_run a) as Hb.
  destruct (run_capture e (start t2 a job)) as [[[]|x] s']; [|discriminate].
  exists s'. split; [reflexivity|]. split; assumption.
Qed.


(** *** The job a run leaves, field by field *)

(** The job when the [finally] block is entered. *)
Lemma captured_fields :
  let j := captured_job e job in
  same_job job j /\
  status j = (if valid_url job then status job else INVALID) /\
  validated_url j = cleaned_url job /\
  capture_end_time j =
    (if valid_url job then capture_end_time job else Some (end_time e)) /\
  step_count j =
    (step_count job + Nat.b2n (valid_url job) + Nat.b2n (opened e job) +
     Nat.b2n (created e job) +
     (if started e job then List.length (stdout_stream e) else 0))%nat /\
  step_description j =
    (if started e job
     then last (map label (stdout_stream e)) "Starting browsertrix."
     else if created e job then "Starting browsertrix."
     else if opened e job then "Creating browsertrix container."
     else if valid_url job then "Connecting to Docker."
     else "Validating.").
Proof.
  unfold captured_job, started, created, opened, cleaned_url, valid_url,
    validate_job.
  destruct (Utils.validate_and_clean_url (requested_url job)) as [m|u];
    cbn [andb Nat.b2n]; [simpl; rewrite !Nat.add_0_r; repeat split|].
  unfold stream_job.
  match goal with
  | |- context [fold_left ?f ?l ?j] =>
    destruct (lines_fields l j)
      as ((I1 & I2 & I3 & I4 & I5 & I6) & Hst & Hv & Hm & He & Hc & Hd);
    cbn zeta in *
  end.
  unfold provision_job in *.
  destruct (returned (docker_from_env e)); cbn [andb Nat.b2n];
    [|simpl; repeat split; lia].
  destruct (returned (containers_create e)); cbn [andb Nat.b2n];
    [|simpl; repeat split; lia].
  destruct (returned (container_start e)); cbn [andb Nat.b2n];
    [|simpl; repeat split; lia].
  unfold same_job. rewrite I1, I2, I3, I4, I5, I6, Hst, Hv, He, Hc, Hd.
  simpl. repeat split. lia.
Qed.


Hypothesis Hstatus : status job = IN_PROGRESS.

(** The job a run leaves. *)
Lemma final_fields :
  let j := final_job e job in
  same_job job j /\
  status j =
    (if is_some (archived e job) then COMPLETED
     else if valid_url job then FAILED else INVALID) /\
  validated_url j = cleaned_url job /\
  capture_end_time j = Some (end_time e) /\
  step_count j =
    (step_count (captured_job e job) + Nat.b2n (filed e job) +
     Nat.b2n (filed e job && hashed e))%nat /\
  step_description j =
    (if filed e job && hashed e then "Saving archive."
     else if filed e job then "Processing archive."
     else step_description (captured_job e job)) /\
  (status j = FAILED ->
   message j = [(Settings.NON_FIELD_ERRORS_KEY, ["Failed during capture."])]).
Proof.
  destruct captured_fields
    as ((I1 & I2 & I3 & I4 & I5 & I6) & Hst & Hv & He & _ & _).
  rewrite Hstatus in Hst.
  unfold final_job, finalized_job, safety_job, archive_job, archived.
  set (j0 := captured_job e job) in *.
  rewrite <- I1.
  destruct (filed e job), (hashed e), (archive_row e (id j0)),
    (valid_url job); cbn [andb is_some Nat.b2n];
    unfold same_job; simpl; rewrite ?Hst; simpl;
    rewrite ?I1, ?I2, ?I3, ?I4, ?I5, ?I6, ?Hv, ?He, ?Nat.add_0_r;
    repeat split; try discriminate; try lia; try assumption;
    intros H; congruence.
Qed.

End Books.

(** *** Runs of the task *)

Lemma get_save_other k j t : k <> id j -> get k (save j t) = get k t.
Proof.
  intros Hk. unfold get, save. induction t as [|r t IH]; [reflexivity|].
  simpl. destruct (Nat.eqb (id r) (id j)) eqn:E.
  - apply Nat.eqb_eq in E.
    destruct (Nat.eqb (id j) k) eqn:E1;
      [apply Nat.eqb_eq in E1; congruence|].
    destruct (Nat.eqb (id r) k) eqn:E2;
      [apply Nat.eqb_eq in E2; congruence|].
    exact IH.
  - destruct (Nat.eqb (id r) k); [reflexivity|exact IH].
Qed.

Lemma get_claim_other now k k' t :
  k <> k' -> get k (snd (Queue.claim now k' t)) = get k t.
Proof.
  intros Hk. unfold get, Queue.claim. simpl.
  induction t as [|r t IH]; [reflexivity|]. simpl.
  destruct (Nat.eqb (id r) k' && Queue.is_pending r) eqn:E.
  - apply andb_true_iff in E. destruct E as [E _]. apply Nat.eqb_eq in E.
    rewrite id_reserve.
    destruct (Nat.eqb (id r) k) eqn:E2;
      [apply Nat.eqb_eq in E2; congruence|].
    exact IH.
  - destruct (Nat.eqb (id r) k); [reflexivity|exact IH].
Qed.

(** A run that reserves a job, in full: the task returns, the books are
    kept, the job, the archive table and the resources are where the
    services put them, and the task is enqueued again. *)
Lemma run_finished e t a job t2 :
  wf_table t ->
  Queue.get_next_job (now e) (Reaper.clean_up_failed_captures (now e) (reap_time e) t) =
    (Some job, t2) ->
  exists s,
    run_next_capture e t a =
      (Done tt, db s, archives s,
       trace s ++ [ApplyAsync "run_next_capture"]) /\
    Finished e job t2 a s /\
    status job = IN_PROGRESS /\ get (id job) t2 = Some job /\
    t2 = snd (Queue.claim (now e) (id job)
                (Reaper.clean_up_failed_captures (now e) (reap_time e) t)).
Proof.
  intros Hwf Hres.
  destruct (get_next_job_some _ _ job t2
              (ReaperFacts.wf_clean_up (now e) (reap_time e) t Hwf) Hres)
    as (j & _ & Hjob & Ht2 & Hget & _).
  destruct (run_capture_finished e job t2 a) as (s & Hrun & Hfin).
  exists s. unfold run_next_capture. rewrite Hres.
  fold (start t2 a job). unfold bind. rewrite Hrun.
  destruct s as [t' a' tr' j' cl co ha]. simpl.
  split; [reflexivity|]. split; [exact Hfin|]. split; [now subst job|].
  split; [exact Hget|]. now subst job.
Qed.

(** The row of the job in the table a finished run leaves. *)
Lemma finished_row e job t2 a s :
  Finished e job t2 a s -> get (id job) t2 = Some job ->
  get (id job) (db s) = Some (final_job e job) /\
  capture_job s = final_job e job.
Proof.
  intros ((Hj & Hdb & _) & (Hcj & _)) Hget.
  split; [|exact Hcj]. rewrite Hdb, Hcj.
  apply get_save with (r := job); [|exact Hget].
  destruct Hj as [Hid _]. now rewrite Hcj in Hid.
Qed.

(** X1.  The services decide the outcome of a run; the exit code of the
    container does not.  A run that reserves a job returns.  The job ends
    Completed, with one archive row appended for it that holds the hash,
    the algorithm, the size, the download URL and the expiry obtained,
    exactly when the URL is accepted, [docker.from_env],
    [containers.create], [container.start] and the output stream return,
    the container removal and the client close return, the output file
    exists, the hash is computed and reads the file to its end, and the
    upload, its URL and its expiry return.  Otherwise no archive row is
    added, and the job ends Failed with the message "Failed during
    capture.", or Invalid when the validator rejected its URL.  (One
    oracle of the environment says whether the output file exists, for
    [os.path.isfile] and for [open] alike.) *)
Theorem outcome_decided_by_services e t a job t2
    (Hwf : wf_table t)
    (Hres : Queue.get_next_job (now e)
              (Reaper.clean_up_failed_captures (now e) (reap_time e) t) = (Some job, t2)) :
  exists t' tr job',
    run_next_capture e t a =
      (Done tt, t', a ++ row_list (archived e job), tr) /\
    get (id job) t' = Some job' /\
    status job' =
      (if is_some (archived e job) then COMPLETED
       else if valid_url job then FAILED else INVALID) /\
    (status job' = FAILED ->
     message job' =
       [(Settings.NON_FIELD_ERRORS_KEY, ["Failed during capture."])]).
Proof.
  destruct (run_finished e t a job t2 Hwf Hres)
    as (s & Hrun & Hfin & Hst & Hget & _).
  destruct (finished_row e job t2 a s Hfin Hget) as [Hrow _].
  destruct (final_fields e job Hst) as (_ & Hstatus & _ & _ & _ & _ & Hmsg).
  exists (db s), (trace s ++ [ApplyAsync "run_next_capture"]),
    (final_job e job).
  destruct Hfin as (_ & (_ & Ha & _)). rewrite Hrun, Ha. auto.
Qed.

Lemma outcome_decided_by_services_witness :
  wf_table (one_pending "example.com") /\
  exists t' tr job',
    run_next_capture calm (one_pending "example.com") [] =
      (Done tt, t',
       [mkArchive 1 "9a0b" "sha256" 2048
          "https://storage/6f1c.wacz?Expires=2000" 2000], tr) /\
    get 1 t' = Some job' /\ status job' = COMPLETED.
Proof.
  split; [apply wf_one_pending|].
  destruct (outcome_decided_by_services calm (one_pending "example.com") []
              _ _ (wf_one_pending "example.com") eq_refl)
    as (t' & tr & job' & Hrun & Hget & Hst & _).
  exists t', tr, job'. auto.
Defined.

(** X2.  What the life-cycle thread records never changes what a run
    leaves behind.  Take any run and replace the outcomes of the two
    [container.wait] calls and of [container.stop], the logs and the
    container status by any others, so that the thread records another
    exit code, another [timedout] flag, another stderr: the task ends the
    same way and leaves the same job table and the same archive table.
    Only the log differs.  (Whether the output file exists is an oracle of
    its own, which the replacement leaves as it is.) *)
Theorem life_cycle_never_decides e t a first stop second logs st
    (Hwf : wf_table t) :
  leaves (run_next_capture (with_life_cycle first stop second logs st e) t a) =
  leaves (run_next_capture e t a).
Proof.
  set (e' := with_life_cycle first stop second logs st e).
  destruct (Queue.get_next_job (now e)
              (Reaper.clean_up_failed_captures (now e) (reap_time e) t))
    as [[job|] t2] eqn:Hres.
  - destruct (run_finished e t a job t2 Hwf Hres)
      as (s & Hrun & ((_ & Hdb & _) & (Hj & Ha & _)) & _).
    destruct (run_finished e' t a job t2 Hwf Hres)
      as (s' & Hrun' & ((_ & Hdb' & _) & (Hj' & Ha' & _)) & _).
    rewrite Hrun, Hrun'. unfold leaves.
    rewrite Hdb, Hdb', Hj, Hj', Ha, Ha'. reflexivity.
  - unfold run_next_capture.
    change (now e') with (now e). change (reap_time e') with (reap_time e).
    rewrite Hres. reflexivity.
Qed.

Lemma life_cycle_never_decides_witness :
  wf_table (one_pending "example.com") /\
  leaves (run_next_capture
            (with_life_cycle ConnectionError (Done tt) (Exited (Some 137))
               (Raises OtherException) "exited" calm)
            (one_pending "example.com") []) =
  leaves (run_next_capture calm (one_pending "example.com") []).
Proof.
  split; [apply wf_one_pending|].
  apply (life_cycle_never_decides calm (one_pending "example.com") []
           ConnectionError (Done tt) (Exited (Some 137))
           (Raises OtherException) "exited" (wf_one_pending "example.com")).
Defined.

Lemma save_ids j t : map id (save j t) = map id t.
Proof.
  unfold save. rewrite map_map. apply map_ext. intros r.
  destruct (Nat.eqb (id r) (id j)) eqn:E; [|reflexivity].
  apply Nat.eqb_eq in E. now rewrite E.
Qed.

Lemma clean_up_ids now clock t :
  wf_table t ->
  map id (Reaper.clean_up_failed_captures now clock t) = map id t.
Proof.
  intros Hwf. rewrite ReaperFacts.clean_up_rowwise by assumption.
  apply map_id_rowwise. apply ReaperFacts.id_reap_row.
Qed.

(** X3.  A run writes one row.  The table a run leaves has the keys of the
    table it found, in the same order; every row but that of the reserved
    job is as the reaper left it; and the row of the reserved job still
    has its key, its user, its [human] flag, its submission time, its
    requested URL and its start time, and has its end time set. *)
Theorem run_writes_one_row e t a job t2
    (Hwf : wf_table t)
    (Hres : Queue.get_next_job (now e)
              (Reaper.clean_up_failed_captures (now e) (reap_time e) t) = (Some job, t2)) :
  exists t' a' tr job',
    run_next_capture e t a = (Done tt, t', a', tr) /\
    map id t' = map id t /\
    (forall k, k <> id job ->
       get k t' = get k (Reaper.clean_up_failed_captures (now e) (reap_time e) t)) /\
    get (id job) t' = Some job' /\
    same_job job job' /\
    capture_end_time job' = Some (end_time e).
Proof.
  destruct (run_finished e t a job t2 Hwf Hres)
    as (s & Hrun & Hfin & Hst & Hget & Ht2).
  destruct (finished_row e job t2 a s Hfin Hget) as [Hrow Hcj].
  destruct (final_fields e job Hst) as (Hsame & _ & _ & Hend & _).
  destruct Hfin as ((_ & Hdb & _) & _).
  exists (db s), (archives s), (trace s ++ [ApplyAsync "run_next_capture"]),
    (final_job e job).
  split; [exact Hrun|]. split.
  { rewrite Hdb, save_ids, Ht2, claim_ids. now apply clean_up_ids. }
  split.
  { intros k Hk. rewrite Hdb, Hcj, get_save_other.
    - rewrite Ht2. now apply get_claim_other.
    - destruct Hsame as [Hid _]. now rewrite Hid. }
  auto.
Qed.

Lemma run_writes_one_row_witness :
  wf_table (one_pending "example.com") /\
  exists t' a' tr job',
    run_next_capture calm (one_pending "example.com") [] =
      (Done tt, t', a', tr) /\
    map id t' = [1%nat] /\ get 1 t' = Some job' /\
    requested_url job' = "example.com" /\
    capture_end_time job' = Some 1010.
Proof.
  split; [apply wf_one_pending|].
  destruct (run_writes_one_row calm (one_pending "example.com") []
              _ _ (wf_one_pending "example.com") eq_refl)
    as (t' & a' & tr & job' & Hrun & Hids & _ & Hget & Hsame & Hend).
  exists t', a', tr, job'. repeat split; try assumption. apply Hsame.
Defined.

(** X4.  The resources are released once.  In a run that reserves a job,
    [container.remove(force=True)] is called exactly once when the
    container was created (the URL was accepted, and [docker.from_env] and
    [containers.create] returned) and never otherwise.  [client.close()]
    is called exactly once when the client was opened and either no
    container was created or its removal returned; when the removal
    raises, the client is not closed. *)
Theorem resources_released_once e t a job t2
    (Hwf : wf_table t)
    (Hres : Queue.get_next_job (now e)
              (Reaper.clean_up_failed_captures (now e) (reap_time e) t) = (Some job, t2)) :
  exists t' a' tr,
    run_next_capture e t a = (Done tt, t', a', tr) /\
    count is_remove tr = (if created e job then 1 else 0)%nat /\
    count is_close tr =
      (if opened e job &&
          (negb (created e job) || returned (container_remove e))
       then 1 else 0)%nat.
Proof.
  destruct (run_finished e t a job t2 Hwf Hres)
    as (s & Hrun & (_ & (_ & _ & _ & _ & _ & Hrm & Hcl)) & _).
  exists (db s), (archives s), (trace s ++ [ApplyAsync "run_next_capture"]).
  split; [exact Hrun|]. rewrite !count_app, Hrm, Hcl.
  unfold count. simpl. split; lia.
Qed.

Lemma resources_released_once_witness :
  wf_table (one_pending "example.com") /\
  exists t' a' tr,
    run_next_capture interrupted (one_pending "example.com") [] =
      (Done tt, t', a', tr) /\
    count is_remove tr = 1%nat /\ count is_close tr = 1%nat.
Proof.
  split; [apply wf_one_pending|].
  exact (resources_released_once interrupted (one_pending "example.com") []
           _ _ (wf_one_pending "example.com") eq_refl).
Defined.

(** X5.  The cleaned URL is stored.  When the validator accepts the
    requested URL of the reserved job, the job ends with the cleaned URL
    as its validated URL, however the capture goes afterwards; when the
    validator rejects it, the validated URL is left as it was. *)
Theorem validated_url_stored e t a job t2
    (Hwf : wf_table t)
    (Hres : Queue.get_next_job (now e)
              (Reaper.clean_up_failed_captures (now e) (reap_time e) t) = (Some job, t2)) :
  exists t' a' tr job',
    run_next_capture e t a = (Done tt, t', a', tr) /\
    get (id job) t' = Some job' /\
    (forall url,
       Utils.validate_and_clean_url (requested_url job) = inr url ->
       validated_url job' = Some url) /\
    (forall msgs,
       Utils.validate_and_clean_url (requested_url job) = inl msgs ->
       validated_url job' = validated_url job).
Proof.
  destruct (run_finished e t a job t2 Hwf Hres)
    as (s & Hrun & Hfin & Hst & Hget & _).
  destruct (finished_row e job t2 a s Hfin Hget) as [Hrow _].
  destruct (final_fields e job Hst) as (_ & _ & Hurl & _).
  exists (db s), (archives s), (trace s ++ [ApplyAsync "run_next_capture"]),
    (final_job e job).
  split; [exact Hrun|]. split; [exact Hrow|].
  unfold cleaned_url in Hurl.
  split; intros x Hx; now rewrite Hx in Hurl.
Qed.

Lemma validated_url_stored_witness :
  wf_table (one_pending "  example.com ") /\
  exists t' a' tr job',
    run_next_capture interrupted (one_pending "  example.com ") [] =
      (Done tt, t', a', tr) /\
    get 1 t' = Some job' /\ validated_url job' = Some "http://example.com".
Proof.
  split; [apply wf_one_pending|].
  destruct (validated_url_stored interrupted (one_pending "  example.com ") []
              _ _ (wf_one_pending "  example.com ") eq_refl)
    as (t' & a' & tr & job' & Hrun & Hget & Hurl & _).
  exists t', a', tr, job'. repeat split; try assumption.
  apply Hurl. reflexivity.
Defined.

(** X6.  Progress is logged as it is made.  The progress lines a run logs
    carry consecutive step counts, starting at the count the job had when
    it was reserved (the validation step adds 0, every later step 1), and
    the job ends with the count and the description of the last line
    logged. *)
Theorem progress_logged_in_step e t a job t2
    (Hwf : wf_table t)
    (Hres : Queue.get_next_job (now e)
              (Reaper.clean_up_failed_captures (now e) (reap_time e) t) = (Some job, t2)) :
  exists t' a' tr job',
    run_next_capture e t a = (Done tt, t', a', tr) /\
    get (id job) t' = Some job' /\
    map fst (steps tr) = seq (step_count job) (List.length (steps tr)) /\
    exists l,
      steps tr = l ++ [(step_count job', step_description job')].
Proof.
  destruct (run_finished e t a job t2 Hwf Hres)
    as (s & Hrun & Hfin & Hst & Hget & _).
  destruct (finished_row e job t2 a s Hfin Hget) as [Hrow Hcj].
  destruct Hfin as ((_ & _ & Hseq & l & Hl) & _).
  exists (db s), (archives s), (trace s ++ [ApplyAsync "run_next_capture"]),
    (final_job e job).
  split; [exact Hrun|]. split; [exact Hrow|].
  rewrite steps_app. simpl. rewrite app_nil_r.
  split; [exact Hseq|]. exists l. now rewrite <- Hcj.
Qed.

Lemma progress_logged_in_step_witness :
  wf_table (one_pending "example.com") /\
  exists t' a' tr job',
    run_next_capture interrupted (one_pending "example.com") [] =
      (Done tt, t', a', tr) /\
    get 1 t' = Some job' /\
    map fst (steps tr) = seq 0 (List.length (steps tr)).
Proof.
  split; [apply wf_one_pending|].
  destruct (progress_logged_in_step interrupted (one_pending "example.com") []
              _ _ (wf_one_pending "example.com") eq_refl)
    as (t' & a' & tr & job' & Hrun & Hget & Hseq & _).
  exists t', a', tr, job'. auto.
Defined.

(** X7.  The progress of a job tells how far its run got.  The step count
    a run leaves is the count the job had when reserved, plus one for each
    stage reached: the connection to Docker (reached when the URL is
    accepted), the creation of the container (when the client was
    opened), its start (when it was created), one for every line of
    output (when it was started), the processing of the archive (when the
    thread was joined, the resources were released and the output file
    exists) and its saving (when the file was hashed to its end).  The
    step description is that of the last stage reached. *)
Theorem progress_counts_stages e t a job t2
    (Hwf : wf_table t)
    (Hres : Queue.get_next_job (now e)
              (Reaper.clean_up_failed_captures (now e) (reap_time e) t) = (Some job, t2)) :
  exists t' a' tr job',
    run_next_capture e t a = (Done tt, t', a', tr) /\
    get (id job) t' = Some job' /\
    step_count job' =
      (step_count job + Nat.b2n (valid_url job) + Nat.b2n (opened e job) +
       Nat.b2n (created e job) +
       (if started e job then List.length (stdout_stream e) else 0) +
       Nat.b2n (filed e job) + Nat.b2n (filed e job && hashed e))%nat /\
    step_description job' =
      (if filed e job && hashed e then "Saving archive."
       else if filed e job then "Processing archive."
       else if started e job
       then last (map label (stdout_stream e)) "Starting browsertrix."
       else if created e job then "Starting browsertrix."
       else if opened e job then "Creating browsertrix container."
       else if valid_url job then "Connecting to Docker."
       else "Validating.").
Proof.
  destruct (run_finished e t a job t2 Hwf Hres)
    as (s & Hrun & Hfin & Hst & Hget & _).
  destruct (finished_row e job t2 a s Hfin Hget) as [Hrow _].
  destruct (final_fields e job Hst) as (_ & _ & _ & _ & Hc & Hd & _).
  destruct (captured_fields e job) as (_ & _ & _ & _ & Hc0 & Hd0).
  exists (db s), (archives s), (trace s ++ [ApplyAsync "run_next_capture"]),
    (final_job e job).
  split; [exact Hrun|]. split; [exact Hrow|].
  rewrite Hc, Hc0, Hd, Hd0. split; reflexivity.
Qed.

Lemma progress_counts_stages_witness :
  wf_table (one_pending "example.com") /\
  exists t' a' tr job',
    run_next_capture interrupted (one_pending "example.com") [] =
      (Done tt, t', a', tr) /\
    get 1 t' = Some job' /\
    step_count job' = 5%nat /\
    step_description job' = "Browsertrix: status 2.".
Proof.
  split; [apply wf_one_pending|].
  destruct (progress_counts_stages interrupted (one_pending "example.com") []
              _ _ (wf_one_pending "example.com") eq_refl)
    as (t' & a' & tr & job' & Hrun & Hget & Hc & Hd).
  exists t', a', tr, job'. auto.
Defined.

(** X8.  Every run reaps first.  Whether or not a job is waiting, a job
    that is in progress and was started more than [CELERY_TASK_TIME_LIMIT]
    seconds before the run is, in the table the run leaves, Failed with
    the one message "Timed out."; the fields the reaper never writes are
    as they were.  (Which time [mark_failed] stamps as the end time is
    decided in models.py, and is not stated.) *)
Theorem every_run_reaps e t a r
    (Hwf : wf_table t) (Hin : In r t)
    (Hstale : Reaper.stale (now e) r = true) :
  exists row,
    get (id r) (table_of (run_next_capture e t a)) = Some row /\
    status row = FAILED /\
    message row = [(Settings.NON_FIELD_ERRORS_KEY, ["Timed out."])] /\
    ReaperFrame.untouched row = ReaperFrame.untouched r.
Proof.
  exists (mark_failed (reap_time e r) "Timed out." r).
  split; [|repeat split].
  pose proof (ReaperFacts.wf_clean_up (now e) (reap_time e) t Hwf) as Hwf1.
  assert (Hin1 : In (mark_failed (reap_time e r) "Timed out." r)
                   (Reaper.clean_up_failed_captures (now e) (reap_time e) t)).
  { rewrite ReaperFacts.clean_up_rowwise by assumption.
    apply in_map_iff. exists r. split; [|exact Hin].
    unfold ReaperSpec.reap_row. now rewrite Hstale. }
  pose proof (get_in _ _ Hwf1 Hin1) as Hrow.
  change (id (mark_failed (reap_time e r) "Timed out." r)) with (id r) in Hrow.
  destruct (Queue.get_next_job (now e)
              (Reaper.clean_up_failed_captures (now e) (reap_time e) t))
    as [[job|] t2] eqn:Hres.
  - destruct (run_finished e t a job t2 Hwf Hres)
      as (s & Hrun & ((Hsame & Hdb & _) & (Hcj & _)) & Hst & Hget & Ht2).
    destruct (get_next_job_some _ _ job t2 Hwf1 Hres)
      as (j & Hnext & Hjob & _).
    destruct (next_job_pending _ _ Hnext) as [Hj Hp].
    assert (Hne : id r <> id job).
    { intros Heq. rewrite Hjob, id_reserve in Heq.
      assert (E : mark_failed (reap_time e r) "Timed out." r = j).
      { eapply wf_table_inj; eauto. }
      subst j. discriminate Hp. }
    rewrite Hrun. unfold table_of. rewrite Hdb.
    rewrite get_save_other.
    + rewrite Ht2, get_claim_other by exact Hne. exact Hrow.
    + destruct Hsame as [Hid _]. now rewrite Hid.
  - apply get_next_job_none in Hres as Hres'. destruct Hres' as [_ ->].
    unfold run_next_capture. rewrite Hres. exact Hrow.
Qed.

Lemma every_run_reaps_witness :
  wf_table ReaperSpec.sample_table /\
  exists row,
    get 1 (table_of (run_next_capture calm ReaperSpec.sample_table [])) =
      Some row /\
    status row = FAILED /\
    message row = [("error", ["Timed out."])].
Proof.
  split; [exact ReaperFacts.wf_sample_table|].
  destruct (every_run_reaps calm ReaperSpec.sample_table []
              (ReaperSpec.sample_job 1 IN_PROGRESS (Some 100))
              ReaperFacts.wf_sample_table (or_introl eq_refl) eq_refl)
    as (row & Hget & Hst & Hmsg & _).
  exists row. auto.
Defined.

End CaptureFacts.

(* ----------------------------------------------------------------- *)
(** ** The reaper, the queue and the clock *)

Module ReaperProperties.
Import Models Reaper ModelsFacts ModelsSpec ReaperSpec ReaperFacts
  QueueBasics ReaperFrame.

Lemma filter_map_fixed (p : CaptureJob -> bool) f l :
  (forall x, p (f x) = p x) -> (forall x, p x = true -> f x = x) ->
  filter p (map f l) = filter p l.
Proof.
  intros Hp Hf. induction l as [|x l IH]; [reflexivity|].
  simpl. rewrite Hp. destruct (p x) eqn:E; [|exact IH].
  rewrite (Hf x E), IH. reflexivity.
Qed.

Lemma reap_row_pending now clock j :
  Queue.is_pending (reap_row now clock j) = Queue.is_pending j /\
  human (reap_row now clock j) = human j /\
  (Queue.is_pending j = true -> reap_row now clock j = j).
Proof.
  unfold reap_row, stale.
  destruct (status_eqb (status j) IN_PROGRESS && timed_out now j) eqn:E;
    [|auto].
  apply andb_true_iff in E. destruct E as [E _].
  apply status_eqb_eq in E. unfold Queue.is_pending. simpl. rewrite E.
  repeat split. discriminate.
Qed.

(** X9.  The reaper leaves the queue alone.  On a table with unique keys,
    reaping never adds, removes or reorders a row, never writes a field of
    a row other than its status, its message and its end time, and never
    touches a pending job: the human and the robot jobs waiting are the
    same before and after. *)
Theorem reaper_keeps_queue now clock t (Hwf : wf_table t) :
  map untouched (clean_up_failed_captures now clock t) = map untouched t /\
  Queue.pending_human (clean_up_failed_captures now clock t) =
    Queue.pending_human t /\
  Queue.pending_robot (clean_up_failed_captures now clock t) =
    Queue.pending_robot t.
Proof.
  rewrite clean_up_rowwise by assumption. split; [|split].
  - rewrite map_map. apply map_ext. intros j. unfold reap_row.
    now destruct (stale now j).
  - unfold Queue.pending_human. apply filter_map_fixed; intros j;
      destruct (reap_row_pending now clock j) as (H1 & H2 & H3).
    + now rewrite H1, H2.
    + intros H. apply andb_true_iff in H. tauto.
  - unfold Queue.pending_robot. apply filter_map_fixed; intros j;
      destruct (reap_row_pending now clock j) as (H1 & H2 & H3).
    + now rewrite H1, H2.
    + intros H. apply andb_true_iff in H. tauto.
Qed.

Lemma reaper_keeps_queue_witness :
  wf_table sample_table /\
  map untouched (clean_up_failed_captures 1000 (fun _ => 1001) sample_table) =
    map untouched sample_table.
Proof.
  split; [exact wf_sample_table|].
  exact (proj1 (reaper_keeps_queue 1000 (fun _ => 1001) sample_table
                  wf_sample_table)).
Defined.

Lemma stale_later now1 now2 j :
  now1 <= now2 -> stale now1 j = true -> stale now2 j = true.
Proof.
  unfold stale, timed_out. intros Hle H.
  apply andb_true_iff in H. destruct H as [H1 H2]. rewrite H1. simpl.
  destruct (capture_start_time j) as [s|]; [|discriminate].
  apply Z.ltb_lt in H2. apply Z.ltb_lt. lia.
Qed.

(** X10.  Reaping later reaps no less.  A job that is timed out at one time
    is timed out at every later time; and on a table with unique keys,
    reaping at a time and again at a later time leaves every job with the
    status and the message that one reap at the later time leaves. *)
Theorem reaping_later_reaps_more now1 now2 clock1 clock2 clock t
    (Hwf : wf_table t) (Hle : now1 <= now2) :
  (forall j, stale now1 j = true -> stale now2 j = true) /\
  map verdict
    (clean_up_failed_captures now2 clock2
       (clean_up_failed_captures now1 clock1 t)) =
  map verdict (clean_up_failed_captures now2 clock t).
Proof.
  split; [intros j; now apply stale_later|].
  rewrite (clean_up_rowwise now2 clock2 _ (wf_clean_up now1 clock1 t Hwf)).
  rewrite !clean_up_rowwise by assumption.
  rewrite !map_map. apply map_ext. intros j.
  unfold reap_row at 2. destruct (stale now1 j) eqn:E1.
  - unfold reap_row. rewrite stale_mark_failed.
    now rewrite (stale_later now1 now2 j Hle E1).
  - unfold reap_row. now destruct (stale now2 j).
Qed.

Lemma reaping_later_reaps_more_witness :
  wf_table sample_table /\ 1000 <= 2000 /\
  map verdict
    (clean_up_failed_captures 2000 (fun _ => 2002)
       (clean_up_failed_captures 1000 (fun _ => 1001) sample_table)) =
  map verdict (clean_up_failed_captures 2000 (fun _ => 2001) sample_table).
Proof.
  split; [exact wf_sample_table|]. split; [lia|].
  exact (proj2 (reaping_later_reaps_more 1000 2000 (fun _ => 1001)
                  (fun _ => 2002) (fun _ => 2001) sample_table
                  wf_sample_table ltac:(lia))).
Defined.

(** X11.  A reserved job has the hard time limit to finish.  A job
    reserved at a time is left as it is by every reap up to
    [CELERY_TASK_TIME_LIMIT] seconds later, and is failed with "Timed out."
    by any reap after that, if it is still in progress then. *)
Theorem reserved_job_has_time_limit now t job t1
    (Hwf : wf_table t)
    (Hres : Queue.get_next_job now t = (Some job, t1)) :
  (forall later clock, later <= now + Settings.CELERY_TASK_TIME_LIMIT ->
     get (id job) (clean_up_failed_captures later clock t1) = Some job) /\
  (forall later clock, now + Settings.CELERY_TASK_TIME_LIMIT < later ->
     get (id job) (clean_up_failed_captures later clock t1) =
       Some (mark_failed (clock job) "Timed out." job)).
Proof.
  destruct (get_next_job_some now t job t1 Hwf Hres)
    as (j & _ & Hjob & _ & Hget & Hwf1).
  assert (Hin : In job t1).
  { unfold get in Hget. apply find_some in Hget. tauto. }
  assert (Hrow : forall later clock,
            get (id job) (clean_up_failed_captures later clock t1) =
              Some (reap_row later clock job)).
  { intros later clock. rewrite <- (id_reap_row later clock job).
    apply get_in; [now apply wf_clean_up|].
    rewrite clean_up_rowwise by assumption. now apply in_map. }
  split; intros later clock Hl; rewrite Hrow;
    unfold reap_row, stale, timed_out; subst job; simpl.
  - replace (now <? later - Settings.CELERY_TASK_TIME_LIMIT) with false
      by (symmetry; apply Z.ltb_ge; lia).
    reflexivity.
  - replace (now <? later - Settings.CELERY_TASK_TIME_LIMIT) with true
      by (symmetry; apply Z.ltb_lt; lia).
    reflexivity.
Qed.

Lemma reserved_job_has_time_limit_witness :
  wf_table (OrchestratorSpec.one_pending "example.com") /\
  exists job t1,
    Queue.get_next_job 1000 (OrchestratorSpec.one_pending "example.com") =
      (Some job, t1) /\
    option_map status
      (get 1 (clean_up_failed_captures 1420 (fun _ => 1425) t1)) =
      Some IN_PROGRESS /\
    option_map status
      (get 1 (clean_up_failed_captures 1421 (fun _ => 1425) t1)) =
      Some FAILED.
Proof.
  split; [apply OrchestratorFacts.wf_one_pending|].
  do 2 eexists. split; [reflexivity|].
  pose proof (reserved_job_has_time_limit 1000
                (OrchestratorSpec.one_pending "example.com") _ _
                (OrchestratorFacts.wf_one_pending "example.com") eq_refl)
    as [H1 H2].
  split.
  - exact (f_equal (option_map status)
             (H1 1420 (fun _ => 1425) ltac:(vm_compute; discriminate))).
  - exact (f_equal (option_map status)
             (H2 1421 (fun _ => 1425) ltac:(reflexivity))).
Defined.

End ReaperProperties.

(* ----------------------------------------------------------------- *)
(** ** The webhook dispatcher: chains of runs *)

Module WebhookProperties.
Import Models Webhook WebhookSpec WebhookFacts WebhookLedger.

Section Dispatcher.

Variable WEBHOOK_MAX_RETRIES : nat.
Variable serialize_payload : WebhookSubscription -> option CaptureJob -> string.
Variable hmac_hexdigest : string -> string -> string -> string.

Local Abbreviation dispatch flag :=
  (dispatch_webhook flag WEBHOOK_MAX_RETRIES serialize_payload hmac_hexdigest).
Local Abbreviation run_chain :=
  (deliver true WEBHOOK_MAX_RETRIES serialize_payload hmac_hexdigest).

(** The request a run sends for a subscription. *)
Local Abbreviation request_for s jid w :=
  (let payload := serialize_payload s (get jid (capture_jobs w)) in
   mkRequest (callback_url s) payload
     (Utils.sign_data hmac_hexdigest payload (signing_key s)
        (signing_key_algorithm s)) 20 false).

Lemma failed_run k sid jid r w s :
  lookup sid w = Some s -> accepted r = false ->
  (k < WEBHOOK_MAX_RETRIES)%nat ->
  dispatch true k sid jid r w =
    (RaisedRetry,
     add_retry (backoff sid jid k)
       (add_log (DeliveryFailed sid jid k WEBHOOK_MAX_RETRIES)
          (add_request (request_for s jid w) w))).
Proof.
  unfold lookup, dispatch_webhook. intros -> -> Hk. simpl.
  destruct (max_retries_exceeded WEBHOOK_MAX_RETRIES k) eqn:E;
    [apply max_retries_exceeded_iff in E; lia|reflexivity].
Qed.

Lemma accepted_run k sid jid r w s :
  lookup sid w = Some s -> accepted r = true ->
  dispatch true k sid jid r w =
    (Returned,
     add_log (Delivered sid jid) (add_request (request_for s jid w) w)).
Proof. unfold lookup, dispatch_webhook. now intros -> ->. Qed.

(** A callback that fails [n] times and then accepts. *)
Lemma chain_delivers n : forall k sid jid responses w s,
  lookup sid w = Some s ->
  (forall i, (k <= i < k + n)%nat -> accepted (responses i) = false) ->
  accepted (responses (k + n)%nat) = true ->
  (k + n <= WEBHOOK_MAX_RETRIES)%nat ->
  exists w', run_chain (S n) k sid jid responses w = Some (Returned, w') /\
    retries_scheduled w' =
      retries_scheduled w ++ map (backoff sid jid) (seq k n) /\
    mailoutbox w' = mailoutbox w /\
    requests_sent w' = requests_sent w ++ repeat (request_for s jid w) (S n) /\
    log w' =
      log w ++ failures sid jid WEBHOOK_MAX_RETRIES k n ++ [Delivered sid jid] /\
    subscriptions w' = subscriptions w /\ capture_jobs w' = capture_jobs w.
Proof.
  induction n as [|n IH]; intros k sid jid responses w s Hs Hfail Hok Hk.
  - rewrite Nat.add_0_r in Hok. cbn [deliver].
    rewrite (accepted_run k sid jid _ w s Hs Hok).
    eexists. split; [reflexivity|]. simpl. rewrite app_nil_r.
    repeat split.
  - cbn [deliver].
    rewrite (failed_run k sid jid _ w s Hs (Hfail k ltac:(lia)) ltac:(lia)).
    set (w1 := add_retry (backoff sid jid k)
                 (add_log (DeliveryFailed sid jid k WEBHOOK_MAX_RETRIES)
                    (add_request (request_for s jid w) w))).
    destruct (IH (k + 1)%nat sid jid responses w1 s) as
      (w' & E & Hr & Hm & Hq & Hl & Hsub & Hcj).
    + exact Hs.
    + intros i Hi. apply Hfail. lia.
    + replace (k + 1 + n)%nat with (k + S n)%nat by lia. exact Hok.
    + lia.
    + exists w'. split; [exact E|].
      rewrite Hr, Hm, Hq, Hl, Hsub, Hcj. unfold failures.
      replace (k + 1)%nat with (S k) by lia. simpl.
      rewrite <- !app_assoc. simpl. repeat split.
Qed.

(** X12.  A retry that succeeds ends the chain.  With [DISPATCH_WEBHOOKS]
    on and a subscription that exists, a callback that fails [n] times and
    accepts the next attempt, within the retry bound, is sent the same
    signed request [n + 1] times; [n] retries are scheduled, with
    countdowns 1, 2, 4, ...; the log has one failure line for each failed
    attempt, with its retry counter and the bound, and then the delivery
    line; no e-mail is sent, and the chain ends there.  (The runs of a
    chain see the tables as the run before left them: nothing else writes
    them in between.) *)
Theorem eventual_delivery n sid jid responses w s
    (Hs : lookup sid w = Some s)
    (Hfail : forall i, (i < n)%nat -> accepted (responses i) = false)
    (Hok : accepted (responses n) = true)
    (Hn : (n <= WEBHOOK_MAX_RETRIES)%nat) :
  exists w', run_chain (S n) 0 sid jid responses w = Some (Returned, w') /\
    requests_sent w' = requests_sent w ++ repeat (request_for s jid w) (S n) /\
    retries_scheduled w' =
      retries_scheduled w ++ map (backoff sid jid) (seq 0 n) /\
    map countdown (map (backoff sid jid) (seq 0 n)) =
      map (fun k => 2 ^ Z.of_nat k) (seq 0 n) /\
    log w' =
      log w ++ failures sid jid WEBHOOK_MAX_RETRIES 0 n ++ [Delivered sid jid] /\
    mailoutbox w' = mailoutbox w.
Proof.
  destruct (chain_delivers n 0 sid jid responses w s Hs) as
    (w' & E & Hr & Hm & Hq & Hl & _); auto.
  - intros i Hi. apply Hfail. lia.
  - exists w'. repeat split; auto.
    rewrite map_map. reflexivity.
Qed.

Lemma total_countdown_app l1 l2 :
  total_countdown (l1 ++ l2) = total_countdown l1 + total_countdown l2.
Proof.
  unfold total_countdown. induction l1 as [|x l1 IH]; simpl; [reflexivity|].
  rewrite IH. lia.
Qed.

Lemma total_countdown_backoff sid jid n : forall k,
  total_countdown (map (backoff sid jid) (seq k n)) =
    2 ^ Z.of_nat (k + n) - 2 ^ Z.of_nat k.
Proof.
  induction n as [|n IH]; intros k.
  - rewrite Nat.add_0_r. unfold total_countdown. simpl. lia.
  - change (seq k (S n)) with (k :: seq (S k) n).
    change (total_countdown (map (backoff sid jid) (k :: seq (S k) n)))
      with (2 ^ Z.of_nat k +
            total_countdown (map (backoff sid jid) (seq (S k) n))).
    rewrite IH. replace (S k + n)%nat with (k + S n)%nat by lia.
    replace (Z.of_nat (S k)) with (Z.of_nat k + 1) by lia.
    rewrite Z.pow_add_r by lia. lia.
Qed.

(** X13.  The back-off before the escalation is bounded.  With
    [DISPATCH_WEBHOOKS] on and a subscription that exists, a callback that
    never accepts is given up on after [WEBHOOK_MAX_RETRIES] retries whose
    countdowns add up to 2 ^ [WEBHOOK_MAX_RETRIES] - 1 seconds; the one
    e-mail is sent then. *)
Theorem total_backoff_bounded sid jid responses w s
    (Hs : lookup sid w = Some s)
    (Hfail : forall i, accepted (responses i) = false) :
  exists w',
    run_chain (S WEBHOOK_MAX_RETRIES) 0 sid jid responses w =
      Some (Returned, w') /\
    total_countdown (retries_scheduled w') =
      total_countdown (retries_scheduled w) +
      (2 ^ Z.of_nat WEBHOOK_MAX_RETRIES - 1) /\
    mailoutbox w' = mailoutbox w ++ [escalation s (get jid (capture_jobs w))].
Proof.
  destruct (chain_all_fail WEBHOOK_MAX_RETRIES serialize_payload hmac_hexdigest
              WEBHOOK_MAX_RETRIES 0 sid jid responses w s Hs Hfail eq_refl)
    as (w' & E & Hr & Hm & _).
  exists w'. split; [exact E|]. split; [|exact Hm].
  rewrite Hr, total_countdown_app, total_countdown_backoff. simpl. lia.
Qed.

(** X14.  A subscription that is gone fails the task at once.  With
    [DISPATCH_WEBHOOKS] on, a run for a subscription id that is not in the
    table raises [DoesNotExist] before anything is sent, logged, scheduled
    or mailed, whatever its retry counter; the task substrate does not run
    it again. *)
Theorem missing_subscription_raises k sid jid w
    (Hnone : lookup sid w = None) :
  (forall r, dispatch true k sid jid r w = (RaisedDoesNotExist, w)) /\
  (forall fuel responses,
     run_chain (S fuel) k sid jid responses w =
       Some (RaisedDoesNotExist, w)).
Proof.
  assert (H : forall r, dispatch true k sid jid r w = (RaisedDoesNotExist, w)).
  { intros r. unfold lookup in Hnone. unfold dispatch_webhook.
    now rewrite Hnone. }
  split; [exact H|]. intros fuel responses. cbn [deliver]. now rewrite H.
Qed.

(** X15.  One run keeps a ledger.  A run of the task, whatever the flag,
    its retry counter and the answer of the callback, never writes the
    subscription table or the job table, and only appends to what was
    sent, mailed, scheduled and logged.  It sends at most one request.  It
    schedules a retry or sends an e-mail, never both, and only after a
    request that was not accepted; the e-mail only at or beyond the retry
    bound.  It raises [Retry] exactly when it scheduled a retry, and it
    logs the delivery exactly when it sent a request that was accepted. *)
Theorem one_run_ledger flag k sid jid r w :
  let out := fst (dispatch flag k sid jid r w) in
  let w' := snd (dispatch flag k sid jid r w) in
  subscriptions w' = subscriptions w /\
  capture_jobs w' = capture_jobs w /\
  exists rq ml rt lg,
    requests_sent w' = requests_sent w ++ rq /\
    mailoutbox w' = mailoutbox w ++ ml /\
    retries_scheduled w' = retries_scheduled w ++ rt /\
    log w' = log w ++ lg /\
    (List.length rq <= 1)%nat /\
    (List.length ml + List.length rt <= 1)%nat /\
    (ml <> [] \/ rt <> [] -> rq <> [] /\ accepted r = false) /\
    (ml <> [] -> (WEBHOOK_MAX_RETRIES <= k)%nat) /\
    (out = RaisedRetry <-> rt <> []) /\
    (In (Delivered sid jid) lg <-> rq <> [] /\ accepted r = true).
Proof.
  unfold dispatch_webhook.
  destruct flag; cbn [negb].
  2:{ simpl. repeat split.
      exists [], [], [], [NotificationsDisabled sid jid].
      rewrite !app_nil_r.
      repeat split; simpl in *; intuition (discriminate || congruence || lia). }
  destruct (find _ _) as [s|].
  2:{ simpl. repeat split. exists [], [], [], [].
      rewrite !app_nil_r.
      repeat split; simpl in *; intuition (discriminate || congruence || lia). }
  destruct (accepted r) eqn:Ha.
  { simpl. repeat split. do 4 eexists.
    split; [reflexivity|]. split; [symmetry; apply app_nil_r|].
    split; [symmetry; apply app_nil_r|]. split; [reflexivity|].
    repeat split; simpl in *; intuition (discriminate || congruence || lia). }
  destruct (max_retries_exceeded WEBHOOK_MAX_RETRIES k) eqn:Hm.
  - apply max_retries_exceeded_iff in Hm.
    simpl. repeat split. do 3 eexists.
    exists [DeliveryFailed sid jid k WEBHOOK_MAX_RETRIES;
            PermanentlyFailed sid jid].
    split; [reflexivity|]. split; [reflexivity|].
    split; [symmetry; apply app_nil_r|].
    split; [rewrite <- app_assoc; reflexivity|].
    repeat split; simpl in *; intuition (discriminate || congruence || lia).
  - simpl. repeat split. do 4 eexists.
    split; [reflexivity|]. split; [symmetry; apply app_nil_r|].
    split; [reflexivity|]. split; [reflexivity|].
    repeat split; simpl in *; intuition (discriminate || congruence || lia).
Qed.

End Dispatcher.

Lemma total_backoff_bounded_witness :
  lookup 5 sample_world =
    Some (mkWebhookSubscription 5 "owner@example.com"
            "https://hook.example/cb" "secret" "sha256") /\
  exists w',
    deliver true 3 (fun _ _ => "{}") (fun _ _ _ => "sig") 4 0 5 9
      (fun _ => StatusCode 502) sample_world = Some (Returned, w') /\
    total_countdown (retries_scheduled w') = 7.
Proof.
  split; [reflexivity|].
  destruct (total_backoff_bounded 3 (fun _ _ => "{}") (fun _ _ _ => "sig")
              5 9 (fun _ => StatusCode 502) sample_world _ eq_refl
              (fun _ => eq_refl))
    as (w' & E & Ht & _).
  exists w'. split; [exact E|]. rewrite Ht. reflexivity.
Defined.

Lemma missing_subscription_raises_witness :
  lookup 6 sample_world = None /\
  deliver true 3 (fun _ _ => "{}") (fun _ _ _ => "sig") 4 0 6 9
    (fun _ => StatusCode 200) sample_world =
    Some (RaisedDoesNotExist, sample_world).
Proof.
  split; [reflexivity|].
  exact (proj2 (missing_subscription_raises 3 (fun _ _ => "{}")
                  (fun _ _ _ => "sig") 0 6 9 sample_world eq_refl)
           3%nat (fun _ => StatusCode 200)).
Defined.

Lemma eventual_delivery_witness :
  lookup 5 sample_world =
    Some (mkWebhookSubscription 5 "owner@example.com"
            "https://hook.example/cb" "secret" "sha256") /\
  exists w',
    deliver true 3 (fun _ _ => "{}") (fun _ _ _ => "sig") 3 0 5 9
      (fun k => if Nat.ltb k 2 then StatusCode 502 else StatusCode 200)
      sample_world = Some (Returned, w') /\
    List.length (requests_sent w') = 3%nat /\
    map countdown (retries_scheduled w') = [1; 2] /\
    mailoutbox w' = [].
Proof.
  split; [reflexivity|].
  destruct (eventual_delivery 3 (fun _ _ => "{}") (fun _ _ _ => "sig")
              2 5 9
              (fun k => if Nat.ltb k 2 then StatusCode 502 else StatusCode 200)
              sample_world _ eq_refl)
    as (w' & E & Hq & Hr & _ & _ & Hm).
  - intros [|[|i]] Hi; [reflexivity|reflexivity|lia].
  - reflexivity.
  - lia.
  - exists w'. split; [exact E|]. rewrite Hq, Hr, Hm. repeat split.
Defined.

End WebhookProperties.

(* ----------------------------------------------------------------- *)
(** ** The orchestrator and the queue *)

Module CaptureQueue.
Import Models Orchestrator ModelsFacts QueueBasics ModelsSpec OrchestratorSpec
  OrchestratorFacts CaptureSpec CaptureFacts.

Lemma filter_map_but (p : CaptureJob -> bool) (g : CaptureJob -> CaptureJob)
    k l :
  (forall x, Nat.eqb (id x) k = true -> p (g x) = false) ->
  (forall x, Nat.eqb (id x) k = false -> p (g x) = p x) ->
  (forall x, Nat.eqb (id x) k = false -> p x = true -> g x = x) ->
  filter p (map g l) =
  filter (fun r => negb (Nat.eqb (id r) k)) (filter p l).
Proof.
  intros H1 H2 H3. induction l as [|x l IH]; [reflexivity|].
  simpl. destruct (Nat.eqb (id x) k) eqn:E.
  - rewrite (H1 x E). destruct (p x); simpl; rewrite ?E; exact IH.
  - rewrite (H2 x E). destruct (p x) eqn:Ep; simpl; rewrite ?E; simpl.
    + rewrite (H3 x E Ep), IH. reflexivity.
    + exact IH.
Qed.

(** X16.  A run takes one job off the queue.  The human and the robot jobs
    waiting after a run that reserved a job are those that waited before
    it, in the same order, without the reserved job; no job is made to
    wait again. *)
Theorem run_takes_one_job e t a job t2
    (Hwf : wf_table t)
    (Hres : Queue.get_next_job (now e)
              (Reaper.clean_up_failed_captures (now e) (reap_time e) t) = (Some job, t2)) :
  let t' := table_of (run_next_capture e t a) in
  Queue.pending_human t' =
    filter (fun r => negb (Nat.eqb (id r) (id job))) (Queue.pending_human t) /\
  Queue.pending_robot t' =
    filter (fun r => negb (Nat.eqb (id r) (id job))) (Queue.pending_robot t).
Proof.
  destruct (run_finished e t a job t2 Hwf Hres)
    as (s & Hrun & ((Hsame & Hdb & _) & (Hcj & _)) & Hst & Hget & Ht2).
  destruct (final_fields e job Hst) as ((Hid & _) & Hstatus & _).
  cbv zeta. rewrite Hrun. unfold table_of. rewrite Hdb, Hcj, Ht2.
  rewrite ReaperFacts.clean_up_rowwise by assumption.
  unfold Queue.claim, save. cbn [snd]. rewrite !map_map.
  assert (Hfinal : Queue.is_pending (final_job e job) = false).
  { unfold Queue.is_pending. rewrite Hstatus.
    destruct (is_some (archived e job)), (valid_url job); reflexivity. }
  assert (Hrow : forall x, Nat.eqb (id x) (id job) = false ->
            (if Nat.eqb
                  (id (if Nat.eqb (id (ReaperSpec.reap_row (now e) (reap_time e) x)) (id job) &&
                          Queue.is_pending (ReaperSpec.reap_row (now e) (reap_time e) x)
                       then Queue.reserve (now e) (ReaperSpec.reap_row (now e) (reap_time e) x)
                       else ReaperSpec.reap_row (now e) (reap_time e) x))
                  (id (final_job e job))
             then final_job e job
             else if Nat.eqb (id (ReaperSpec.reap_row (now e) (reap_time e) x)) (id job) &&
                     Queue.is_pending (ReaperSpec.reap_row (now e) (reap_time e) x)
                  then Queue.reserve (now e) (ReaperSpec.reap_row (now e) (reap_time e) x)
                  else ReaperSpec.reap_row (now e) (reap_time e) x) =
            ReaperSpec.reap_row (now e) (reap_time e) x).
  { intros x E. rewrite ReaperFacts.id_reap_row, E. simpl.
    now rewrite ReaperFacts.id_reap_row, Hid, E. }
  assert (Hjob : forall x, Nat.eqb (id x) (id job) = true ->
            (if Nat.eqb
                  (id (if Nat.eqb (id (ReaperSpec.reap_row (now e) (reap_time e) x)) (id job) &&
                          Queue.is_pending (ReaperSpec.reap_row (now e) (reap_time e) x)
                       then Queue.reserve (now e) (ReaperSpec.reap_row (now e) (reap_time e) x)
                       else ReaperSpec.reap_row (now e) (reap_time e) x))
                  (id (final_job e job))
             then final_job e job
             else if Nat.eqb (id (ReaperSpec.reap_row (now e) (reap_time e) x)) (id job) &&
                     Queue.is_pending (ReaperSpec.reap_row (now e) (reap_time e) x)
                  then Queue.reserve (now e) (ReaperSpec.reap_row (now e) (reap_time e) x)
                  else ReaperSpec.reap_row (now e) (reap_time e) x) =
            final_job e job).
  { intros x E.
    destruct (Nat.eqb (id (ReaperSpec.reap_row (now e) (reap_time e) x)) (id job) &&
              Queue.is_pending (ReaperSpec.reap_row (now e) (reap_time e) x));
      rewrite ?id_reserve, ReaperFacts.id_reap_row, Hid, E; reflexivity. }
  split.
  - unfold Queue.pending_human. apply filter_map_but.
    + intros x E. now rewrite (Hjob x E), Hfinal.
    + intros x E. rewrite (Hrow x E).
      destruct (ReaperProperties.reap_row_pending (now e) (reap_time e) x) as (H1 & H2 & _).
      now rewrite H1, H2.
    + intros x E Hp. rewrite (Hrow x E).
      apply ReaperProperties.reap_row_pending.
      apply andb_true_iff in Hp. tauto.
  - unfold Queue.pending_robot. apply filter_map_but.
    + intros x E. now rewrite (Hjob x E), Hfinal.
    + intros x E. rewrite (Hrow x E).
      destruct (ReaperProperties.reap_row_pending (now e) (reap_time e) x) as (H1 & H2 & _).
      now rewrite H1, H2.
    + intros x E Hp. rewrite (Hrow x E).
      apply ReaperProperties.reap_row_pending.
      apply andb_true_iff in Hp. tauto.
Qed.

Lemma run_takes_one_job_witness :
  wf_table QueueSpec.test_jobs /\
  map id (Queue.pending_human
            (table_of (run_next_capture calm QueueSpec.test_jobs []))) =
    [1; 2; 3; 5; 6; 7; 8]%nat.
Proof.
  split; [exact QueueFacts.wf_test_jobs|].
  rewrite (proj1 (run_takes_one_job calm QueueSpec.test_jobs [] _ _
                    QueueFacts.wf_test_jobs eq_refl)).
  reflexivity.
Defined.

End CaptureQueue.
